(** * DB_assistbot: the query pipeline of [main.py]

    A shallow embedding of the safety-critical part of the Telegram
    database assistant: the SQL blocklist ([DatabaseManager._is_query_safe]),
    the executor ([DatabaseManager.execute_query]), the schema cache
    ([DatabaseManager.get_schema_info]), SQL synthesis and cleaning
    ([OllamaLLM.generate_sql], [OllamaLLM._clean_sql]), result sanitising
    ([OllamaLLM._sanitize_data], [OllamaLLM._format_all_records]), the
    per-user sliding-window limiter ([RateLimiter.check_rate_limit]) and
    the message handler ([handle_message]) with the dispatch of
    [OllamaLLM.format_response].

    Text is a list of characters, one [ascii] per code point, read as the
    Latin-1 range U+0000..U+00FF of a Python [str]; the character classes
    below are the ones Python's [str.lower], [str.strip] and the [re]
    module (Unicode mode) use on that range.  Regular expressions are
    syntax trees run by a backtracking matcher that follows the order of
    Python's.  The database driver, the file system, the clock, the
    language model and what pandas computes are explicit inputs; logging
    and sleeping between retries are left out.

    The definitions come first, module by module as the classes of the
    source; the facts proved about them follow. *)

From Stdlib Require Import List Ascii String DecimalString NArith ZArith QArith Lia Lqa Bool.
From stdpp Require Import base option list gmap.
Import ListNotations.

Local Open Scope list_scope.
Local Open Scope bool_scope.

(** ** Characters and text *)

Module Text.

Definition str : Type := list ascii.

(** A literal of the source, written as a Rocq string. *)
Definition txt (s : string) : str := list_ascii_of_string s.

Definition code (c : ascii) : N := N_of_ascii c.

Definition in_range (lo hi : N) (c : ascii) : bool :=
  (lo <=? code c)%N && (code c <=? hi)%N.

Definition nl : ascii := ascii_of_N 10.

(** [str.lower] on one code point: A-Z, and the Latin-1 capitals
    U+00C0..U+00DE without the multiplication sign U+00D7. *)
Definition is_upper (c : ascii) : bool :=
  in_range 65 90 c || (in_range 192 222 c && negb (code c =? 215)%N).

Definition lower_char (c : ascii) : ascii :=
  if is_upper c then ascii_of_N (code c + 32) else c.

Definition lower (s : str) : str := List.map lower_char s.

(** [\s] of [re] and the characters [str.strip] removes. *)
Definition is_space (c : ascii) : bool :=
  in_range 9 13 c || in_range 28 32 c || (code c =? 133)%N || (code c =? 160)%N.

(** [\d] of [re]. *)
Definition is_digit (c : ascii) : bool := in_range 48 57 c.

(** [\w] of [re]: alphanumeric code points and the underscore. *)
Definition is_word (c : ascii) : bool :=
  is_digit c || in_range 65 90 c || in_range 97 122 c || (code c =? 95)%N
  || (code c =? 170)%N || in_range 178 179 c || (code c =? 181)%N
  || in_range 185 186 c || in_range 188 190 c
  || in_range 192 214 c || in_range 216 246 c || in_range 248 255 c.

Definition eqc (a b : ascii) : bool := Ascii.eqb a b.

(** [a == b] on text. *)
Definition str_eqb (a b : str) : bool := bool_decide (a = b).

(** [str(n)] for a number that is not negative. *)
Definition decimal (n : nat) : str := txt (NilEmpty.string_of_uint (Nat.to_uint n)).

(** [s.startswith(p)] *)
Fixpoint startswith (p s : str) : bool :=
  match p, s with
  | [], _ => true
  | a :: p', b :: s' => eqc a b && startswith p' s'
  | _ :: _, [] => false
  end.

(** [p in s] *)
Fixpoint contains (p s : str) : bool :=
  startswith p s ||
  match s with
  | [] => false
  | _ :: s' => contains p s'
  end.

Fixpoint lstrip (s : str) : str :=
  match s with
  | c :: s' => if is_space c then lstrip s' else s
  | [] => []
  end.

Definition rstrip (s : str) : str := rev (lstrip (rev s)).

(** [s.strip()] *)
Definition strip (s : str) : str := rstrip (lstrip s).

(** [s.split(sep)[0]] for a one-character separator. *)
Fixpoint split_head (sep : ascii) (s : str) : str :=
  match s with
  | [] => []
  | c :: s' => if eqc c sep then [] else c :: split_head sep s'
  end.

(** [s.split(sep)] for a one-character separator. *)
Fixpoint split_on (sep : ascii) (s : str) : list str :=
  match s with
  | [] => [[]]
  | c :: s' =>
      if eqc c sep then [] :: split_on sep s'
      else match split_on sep s' with
           | l :: ls => (c :: l) :: ls
           | [] => [[c]]
           end
  end.

(** [sep.join(parts)] *)
Fixpoint join (sep : str) (parts : list str) : str :=
  match parts with
  | [] => []
  | [p] => p
  | p :: ps => p ++ sep ++ join sep ps
  end.

(** [s.endswith(c)] for one character. *)
Definition endswith_char (c : ascii) (s : str) : bool :=
  match rev s with
  | d :: _ => eqc c d
  | [] => false
  end.

(** White space collapsed to single spaces: every white-space character is
    a plain space, no two are adjacent, and none leads or trails. *)
Definition starts_with_space (s : str) : bool :=
  match s with
  | c :: _ => is_space c
  | [] => false
  end.

Fixpoint single_spaced (s : str) : bool :=
  match s with
  | [] => true
  | c :: s' =>
      (if is_space c then eqc c " "%char && negb (starts_with_space s') else true)
      && single_spaced s'
  end.

Definition trimmed (s : str) : bool :=
  negb (starts_with_space s) && negb (starts_with_space (rev s)).

Definition collapsed (s : str) : bool := single_spaced s && trimmed s.

(** The last character of [m], or [prev] when [m] is empty. *)
Definition last_char (prev : option ascii) (m : str) : option ascii :=
  List.fold_left (fun _ c => Some c) m prev.

(** Text of one line that separates two words: not empty, no newline, and
    neither its first nor its last character is a word character. *)
Definition is_gap (m : str) : bool :=
  List.forallb (fun c => negb (eqc c nl)) m
  && match m with c :: _ => negb (is_word c) | [] => false end
  && match last_char None m with Some c => negb (is_word c) | None => false end.

End Text.
Import Text.

(** ** The fragment of Python's [re] the program uses

    Every repetition in the program's patterns is over a single character
    class, so the syntax has one-character classes, greedy and lazy
    repetition of a class, concatenation, alternation, the word boundary
    [\b] and the end anchor [$].  A match is run from a position, given by
    the character before it and the text from it on; [run] lists the
    positions a match can end at, in the order Python's backtracking tries
    them, so the head of the list is the match Python reports. *)

Module Re.

Inductive regex : Type :=
| Eps
| Chr (p : ascii -> bool)
| Cat (r1 r2 : regex)
| Alt (r1 r2 : regex)
| Star (p : ascii -> bool)
| StarLazy (p : ascii -> bool)
| WordB
| Eol (multiline : bool).

Definition pos : Type := (option ascii * str)%type.

Definition word_before (prev : option ascii) : bool :=
  match prev with Some c => is_word c | None => false end.

Definition word_after (s : str) : bool :=
  match s with c :: _ => is_word c | [] => false end.

(** [\b]: exactly one side of the position is a word character. *)
Definition at_boundary (prev : option ascii) (s : str) : bool :=
  xorb (word_before prev) (word_after s).

(** [$]: the end of the text or just before a final newline; with
    [re.MULTILINE] also before every newline. *)
Definition at_eol (multiline : bool) (s : str) : bool :=
  match s with
  | [] => true
  | c :: s' => eqc c nl && (multiline || match s' with [] => true | _ => false end)
  end.

Fixpoint star_greedy (p : ascii -> bool) (prev : option ascii) (s : str) : list pos :=
  match s with
  | c :: s' => if p c then star_greedy p (Some c) s' ++ [(prev, s)] else [(prev, s)]
  | [] => [(prev, [])]
  end.

Fixpoint star_lazy (p : ascii -> bool) (prev : option ascii) (s : str) : list pos :=
  (prev, s) ::
  match s with
  | c :: s' => if p c then star_lazy p (Some c) s' else []
  | [] => []
  end.

Fixpoint run (r : regex) (prev : option ascii) (s : str) : list pos :=
  match r with
  | Eps => [(prev, s)]
  | Chr p => match s with
             | c :: s' => if p c then [(Some c, s')] else []
             | [] => []
             end
  | Cat r1 r2 => List.flat_map (fun q => run r2 (fst q) (snd q)) (run r1 prev s)
  | Alt r1 r2 => run r1 prev s ++ run r2 prev s
  | Star p => star_greedy p prev s
  | StarLazy p => star_lazy p prev s
  | WordB => if at_boundary prev s then [(prev, s)] else []
  | Eol m => if at_eol m s then [(prev, s)] else []
  end.

(** The character before the position reached by reading [m]. *)
Definition prev_after (prev : option ascii) (m : str) : option ascii := last_char prev m.

(** A position a match can end at: the text minus what the match read. *)
Definition reached (prev : option ascii) (s : str) (q : pos) : Prop :=
  exists m, s = m ++ snd q /\ fst q = prev_after prev m.

(** The match starting exactly here, as the text left after it. *)
Definition match_here (r : regex) (prev : option ascii) (s : str) : option str :=
  match run r prev s with
  | q :: _ => Some (snd q)
  | [] => None
  end.

(** [re.search(r, s) is not None], scanning start positions left to right. *)
Fixpoint search_from (r : regex) (prev : option ascii) (s : str) : bool :=
  match match_here r prev s with
  | Some _ => true
  | None => match s with
            | c :: s' => search_from r (Some c) s'
            | [] => false
            end
  end.

Definition search (r : regex) (s : str) : bool := search_from r None s.

(** [re.sub(r, rep, s)] for a literal replacement: [skip] counts the
    characters of the current match still to be dropped.  A match that
    consumes nothing inserts [rep] and copies the next character. *)
Fixpoint sub_from (r : regex) (rep : str) (prev : option ascii) (skip : nat) (s : str) : str :=
  match s with
  | [] => match skip, match_here r prev [] with
          | O, Some _ => rep
          | _, _ => []
          end
  | c :: s' =>
      match skip with
      | S k => sub_from r rep (Some c) k s'
      | O =>
          match match_here r prev s with
          | Some rest =>
              match length s - length rest with
              | O => rep ++ c :: sub_from r rep (Some c) O s'
              | S k => rep ++ sub_from r rep (Some c) k s'
              end
          | None => c :: sub_from r rep (Some c) O s'
          end
      end
  end.

Definition sub (r : regex) (rep : str) (s : str) : str := sub_from r rep None O s.

(** *** Pattern building blocks *)

Definition any : ascii -> bool := fun _ => true.            (* [.] with DOTALL *)
Definition dot : ascii -> bool := fun c => negb (eqc c nl).  (* [.] *)
Definition one (a : ascii) : ascii -> bool := fun c => eqc c a.
(** A letter of a pattern under [re.IGNORECASE]: within Latin-1 it matches
    its two cases.  The code points beyond Latin-1 that fold to an ASCII
    letter (U+017F to [s], U+212A to [k], U+0130 and U+0131 to [i]) are
    outside the text model, and so is what the code does on text that has
    them. *)
Definition one_ci (a : ascii) : ascii -> bool := fun c => eqc (lower_char c) (lower_char a).

Fixpoint cats (rs : list regex) : regex :=
  match rs with
  | [] => Eps
  | [r] => r
  | r :: rs' => Cat r (cats rs')
  end.

Fixpoint alts (rs : list regex) : regex :=
  match rs with
  | [] => Eps
  | [r] => r
  | r :: rs' => Alt r (alts rs')
  end.

(** A literal, and a literal under [re.IGNORECASE]. *)
Definition lit (s : string) : regex := cats (List.map (fun a => Chr (one a)) (txt s)).
Definition lit_ci (s : string) : regex := cats (List.map (fun a => Chr (one_ci a)) (txt s)).

Definition plus (p : ascii -> bool) : regex := Cat (Chr p) (Star p).

(** [p{n,}] *)
Fixpoint at_least (n : nat) (p : ascii -> bool) : regex :=
  match n with
  | O => Star p
  | S k => Cat (Chr p) (at_least k p)
  end.

End Re.
Import Re.

(** ** Configuration constants *)

Definition MAX_SQL_ATTEMPTS : nat := 3.
Definition MAX_REQUESTS_PER_MINUTE : nat := 10.
Definition MAX_RESULTS : nat := 50.

(** ** [DatabaseManager._is_query_safe] *)

Module SafetyGate.

(** [\b(drop|delete|truncate|alter|shutdown|insert|update|merge)\b] *)
Definition mutating_words : list string :=
  ["drop"; "delete"; "truncate"; "alter"; "shutdown"; "insert"; "update"; "merge"]%string.

Definition mutating_keyword : regex :=
  cats [WordB; alts (List.map lit mutating_words); WordB].

(** [;.*\b(exec|execute|xp_cmdshell|sp_)\b] *)
Definition stacked_words : list string := ["exec"; "execute"; "xp_cmdshell"; "sp_"]%string.

Definition stacked_statement : regex :=
  cats [lit ";"; Star dot; WordB; alts (List.map lit stacked_words); WordB].

(** [\bunion\b.*\bselect\b] *)
Definition union_select : regex :=
  cats [WordB; lit "union"; WordB; Star dot; WordB; lit "select"; WordB].

(** [\bselect\b.*\bfrom\b.*\bwhere\b.*\b1\s*=\s*1\b] *)
Definition tautology : regex :=
  cats [WordB; lit "select"; WordB; Star dot;
        WordB; lit "from"; WordB; Star dot;
        WordB; lit "where"; WordB; Star dot;
        WordB; lit "1"; Star is_space; lit "="; Star is_space; lit "1"; WordB].

(** [/\*.*\*/] *)
Definition block_comment : regex := cats [lit "/*"; Star dot; lit "*/"].

(** [--.*$] *)
Definition line_comment : regex := cats [lit "--"; Star dot; Eol false].

(** [[\/\\]] *)
Definition is_slash (c : ascii) : bool := eqc c "/"%char || eqc c "\"%char.
Definition slash : regex := Chr is_slash.

Definition dangerous_patterns : list regex :=
  [mutating_keyword; stacked_statement; union_select; tautology;
   block_comment; line_comment; slash].

Definition is_query_safe (query : str) : bool :=
  let query_lower := lower query in
  negb (List.existsb (fun pattern => search pattern query_lower) dangerous_patterns).

(** A statement whose line comment is not on its last line. *)
Definition commented_query : str := txt "select 1 -- x" ++ nl :: txt "from t".

End SafetyGate.
Import SafetyGate.

(** ** [RateLimiter]

    [time.time()] is a float.  The limiter only subtracts one clock reading
    from another, and for two readings of the same clock in seconds since
    the epoch the floating-point difference is exact, so readings are
    modelled as rationals.  The map
    [self.user_requests] is a finite map from user ids to windows.  The
    reply sent on the denying path is an output and not part of the state. *)

Module RateLimiter.

Abbreviation state := (gmap Z (list Q)).

(** [now - t < 60] *)
Definition fresh (now t : Q) : bool := negb (Qle_bool 60 (now - t)).

(** [[t for t in window if now - t < 60]] *)
Definition purge (now : Q) (window : list Q) : list Q := List.filter (fresh now) window.

Definition window_of (st : state) (user_id : Z) : list Q := default [] (st !! user_id).

Definition check_rate_limit (st : state) (user_id : Z) (now : Q) : bool * state :=
  let st1 := match st !! user_id with
             | None => <[user_id := []]> st
             | Some _ => st
             end in
  let window := purge now (window_of st1 user_id) in
  let st2 := <[user_id := window]> st1 in
  if (MAX_REQUESTS_PER_MINUTE <=? length window)%nat
  then (false, st2)
  else (true, <[user_id := window ++ [now]]> st2).

(** [RateLimiter.__init__] *)
Definition init : state := ∅.

(** A schedule of calls, each by a user at a clock reading, and the log of
    the answers given. *)
Fixpoint run_calls (st : state) (calls : list (Z * Q)) : list (Z * bool) * state :=
  match calls with
  | [] => ([], st)
  | (user_id, now) :: rest =>
      let r := check_rate_limit st user_id now in
      let rs := run_calls (snd r) rest in
      ((user_id, fst r) :: fst rs, snd rs)
  end.

Definition times_of (user_id : Z) (calls : list (Z * Q)) : list Q :=
  List.map snd (List.filter (fun c => Z.eqb (fst c) user_id) calls).

Definition answers_of (user_id : Z) (log : list (Z * bool)) : list bool :=
  List.map snd (List.filter (fun c => Z.eqb (fst c) user_id) log).

(** What one call does to the caller's own window. *)
Definition step_window (window : list Q) (now : Q) : bool * list Q :=
  let w := purge now window in
  if (MAX_REQUESTS_PER_MINUTE <=? length w)%nat then (false, w) else (true, w ++ [now]).

Fixpoint run_window (window : list Q) (times : list Q) : list bool * list Q :=
  match times with
  | [] => ([], window)
  | now :: rest =>
      let r := step_window window now in
      let rs := run_window (snd r) rest in
      (fst r :: fst rs, snd rs)
  end.

(** A reading within the 60 seconds that start at [t1]. *)
Definition in_window (t1 t : Q) : Prop := (t1 <= t)%Q /\ (t - t1 < 60)%Q.

Definition all_accepted (answers : list bool) : Prop := Forall (fun b => b = true) answers.
Definition all_denied (answers : list bool) : Prop := Forall (fun b => b = false) answers.

(** Ten calls of user 7, one a second. *)
Definition ten_calls : list (Z * Q) :=
  List.map (fun t => (7%Z, inject_Z t)) [0; 1; 2; 3; 4; 5; 6; 7; 8; 9]%Z.

End RateLimiter.

(** ** [DatabaseManager.get_connection] and [DatabaseManager.execute_query]

    The ODBC driver is an oracle: what each driver call does is a field of
    [driver].  An exception is a value; every exception the driver or the
    interpreter raises here is a subclass of [Exception], which is what the
    handlers of the source catch.  The calls made on the driver are
    recorded as a trace. *)

Module Executor.

Inductive exn : Type :=
| PyodbcError (text : str)     (* [pyodbc.Error], with [str(e)] *)
| OtherException.              (* ValueError, ConnectionError, RuntimeError, ... *)

(** A cell of a result row: [None] is SQL NULL, [Some s] a value. *)
Definition cell : Type := option str.

(** A row as [dict(zip(columns, row))] builds it: insertion ordered, the
    last value of a repeated column name kept at the name's first place. *)
Definition record : Type := list (str * cell).

Fixpoint dict_set (d : record) (k : str) (v : cell) : record :=
  match d with
  | [] => [(k, v)]
  | (k', v') :: d' => if str_eqb k' k then (k', v) :: d' else (k', v') :: dict_set d' k v
  end.

Fixpoint dict_zip_onto (d : record) (columns : list str) (row : list cell) : record :=
  match columns, row with
  | k :: ks, v :: vs => dict_zip_onto (dict_set d k v) ks vs
  | _, _ => d
  end.

Definition dict_zip (columns : list str) (row : list cell) : record :=
  dict_zip_onto [] columns row.

Inductive fetch_result : Type :=
| Fetched (rows : list (list cell))
| FetchRaises (e : exn).

Inductive exec_result : Type :=
| ExecRaises (e : exn)
| Executed (description : option (list str)) (rows : fetch_result).

Record driver : Type := {
  env_set : bool;                   (* DB_SERVER and DB_NAME are both set *)
  connect : nat -> option exn;      (* [pyodbc.connect] at a connection attempt *)
  open_cursor : option exn;         (* [conn.cursor()] *)
  execute : str -> exec_result;     (* [cursor.execute(query)], then the cursor's state *)
  close_cursor : option exn;        (* leaving [with conn.cursor()] *)
  commit : option exn;              (* [conn.commit()] *)
  rollback : option exn             (* [conn.rollback()] *)
}.

Inductive event : Type :=
| EvConnect (attempt : nat)
| EvCursor
| EvExecute (query : str)
| EvFetch
| EvCommit
| EvRollback
| EvClose.

Definition trace : Type := list event.

(** [conn.close()] is taken to succeed when it closes an open connection;
    on a connection closed before it raises, which the handler of
    [pyodbc.Error] ignores.  Setting [conn.autocommit] is taken to
    succeed. *)

(** The retry loop of [get_connection] from attempt [attempt] on, up to its
    next [yield]: the attempt that connected, or the exception raised.
    [held] tells that [conn] is bound to the connection of an earlier
    attempt; the handler of [pyodbc.Error] then closes it once more. *)
Fixpoint get_connection (d : driver) (held : bool) (attempt fuel : nat) : (exn + nat) * trace :=
  match fuel with
  | O => (inl OtherException, [])                     (* ConnectionError *)
  | S fuel' =>
      if negb (env_set d) then (inl OtherException, [])   (* ValueError *)
      else match connect d attempt with
           | None => (inr attempt, [EvConnect attempt])
           | Some (PyodbcError _) =>
               let r := get_connection d held (S attempt) fuel' in
               (fst r, EvConnect attempt :: (if held then [EvClose] else []) ++ snd r)
           | Some OtherException => (inl OtherException, [EvConnect attempt])
           end
  end.

(** The exception that leaves the inner [try] when [e] reached the
    [except Exception] clause: that of [rollback] when it raises, else
    [e], raised again. *)
Definition after_rollback (d : driver) (e : exn) : exn :=
  match rollback d with
  | Some e' => e'
  | None => e
  end.

(** A [pyodbc.Error] left the inner [try] of attempt [attempt]: the handler
    closes the connection once more and the loop goes on with the next
    attempt.  When an attempt connects, the generator yields a second
    time, which is a RuntimeError of [contextlib]; the suspended generator
    is then closed, and its [finally] closes the new connection. *)
Definition retry (d : driver) (attempt : nat) : trace :=
  let r := get_connection d true (S attempt) (MAX_SQL_ATTEMPTS - S attempt) in
  EvClose :: snd r ++ match fst r with
                      | inr _ => [EvClose]
                      | inl _ => []
                      end.

(** An exception [e] reaches the generator at its [yield], thrown in by the
    body or raised by [commit]: roll back, close, and for a [pyodbc.Error]
    go round the retry loop again.  No path returns normally. *)
Definition get_connection_raise (d : driver) (attempt : nat) (e : exn) : trace :=
  [EvRollback; EvClose] ++
  match after_rollback d e with
  | PyodbcError _ => retry d attempt
  | OtherException => []
  end.

(** [str(e).split('\n')[0]] *)
Definition first_line (text : str) : str := split_head nl text.

Definition sql_error (text : str) : list record * option str :=
  ([], Some (txt "SQL error: " ++ first_line text)).

(** The body of the two [with] blocks: a returned pair or an exception
    that leaves the block.  An exception raised on leaving the cursor
    block replaces the returned pair or the exception of the body. *)
Definition body (d : driver) (query : str) : (exn + (list record * option str)) * trace :=
  match open_cursor d with
  | Some e => (inl e, [EvCursor])
  | None =>
      let r :=
        match execute d query with
        | ExecRaises (PyodbcError text) => (inr (sql_error text), [EvExecute query])
        | ExecRaises OtherException => (inl OtherException, [EvExecute query])
        | Executed None _ | Executed (Some []) _ =>
            (inr ([], Some (txt "No results returned")), [EvExecute query])
        | Executed (Some _) (FetchRaises (PyodbcError text)) =>
            (inr (sql_error text), [EvExecute query; EvFetch])
        | Executed (Some _) (FetchRaises OtherException) =>
            (inl OtherException, [EvExecute query; EvFetch])
        | Executed (Some columns) (Fetched rows) =>
            (inr (List.map (dict_zip columns) rows, None), [EvExecute query; EvFetch])
        end in
      match close_cursor d with
      | Some e => (inl e, EvCursor :: snd r)
      | None => (fst r, EvCursor :: snd r)
      end
  end.

Definition unexpected : list record * option str :=
  ([], Some (txt "Unexpected database error")).

Definition execute_query (d : driver) (query : str) : (list record * option str) * trace :=
  if negb (startswith (txt "select") (lower (strip query))) then
    (([], Some (txt "Only SELECT queries are allowed")), [])
  else if negb (is_query_safe query) then
    (([], Some (txt "Query contains potentially unsafe operations")), [])
  else
    match get_connection d false 0 MAX_SQL_ATTEMPTS with
    | (inl _, t) => (unexpected, t)
    | (inr attempt, t) =>
        match body d query with
        | (inl e, tb) => (unexpected, t ++ tb ++ get_connection_raise d attempt e)
        | (inr result, tb) =>
            match commit d with
            | None => (result, t ++ tb ++ [EvCommit; EvClose])
            | Some e => (unexpected, t ++ tb ++ EvCommit :: get_connection_raise d attempt e)
            end
        end
    end.

(** Sample drivers and the messages [execute_query] can return. *)

(** A driver on which everything succeeds and every statement yields one
    row with one unnamed column. *)
Definition one_row_driver : driver :=
  {| env_set := true;
     connect := fun _ => None;
     open_cursor := None;
     execute := fun _ => Executed (Some [[]]) (Fetched [[Some (txt "1")]]);
     close_cursor := None;
     commit := None;
     rollback := None |}.

(** A driver whose [execute] fails with a two-line diagnostic. *)
Definition failing_driver : driver :=
  {| env_set := true;
     connect := fun _ => None;
     open_cursor := None;
     execute := fun _ => ExecRaises (PyodbcError
                  (txt "('42S02', 'Invalid object name')" ++ nl :: txt "[SQL: select 1]"));
     close_cursor := None;
     commit := None;
     rollback := None |}.

Definition guard_messages : list str :=
  [txt "Only SELECT queries are allowed"; txt "Query contains potentially unsafe operations"].

Definition fixed_messages : list str :=
  guard_messages ++ [txt "No results returned"; txt "Unexpected database error"].

End Executor.

(** ** [DatabaseManager.get_schema_info]

    The cache file and the database are the world the function runs in.
    [json.dump] and [json.load] belong to the standard library and are
    parameters of the model. *)

Module SchemaCache.

Record ColumnInfo : Type := {
  name : str;
  type : str;
  nullable : bool
}.

Record TableInfo : Type := {
  columns : list ColumnInfo;
  primary_keys : list str
}.

Record Relationship : Type := {
  from_table : str;
  from_column : str;
  to_table : str;
  to_column : str
}.

Record SchemaInfo : Type := {
  tables : list (str * TableInfo);
  relationships : list Relationship
}.

(** A row of the column query and of the foreign-key query. *)
Record schema_row : Type := {
  TABLE_SCHEMA : str;
  TABLE_NAME : str;
  COLUMN_NAME : str;
  DATA_TYPE : str;
  IS_NULLABLE : str
}.

Record fk_row : Type := {
  FK_TABLE : str;
  FK_COLUMN : str;
  REFERENCED_TABLE : str;
  REFERENCED_COLUMN : str
}.

Definition column_of (row : schema_row) : ColumnInfo :=
  {| name := COLUMN_NAME row;
     type := DATA_TYPE row;
     nullable := str_eqb (IS_NULLABLE row) (txt "YES") |}.

(** [tables[key]["columns"].append(col)], creating the entry when the key
    is new. *)
Fixpoint add_column (ts : list (str * TableInfo)) (key : str) (col : ColumnInfo)
  : list (str * TableInfo) :=
  match ts with
  | [] => [(key, {| columns := [col]; primary_keys := [] |})]
  | (k, t) :: ts' =>
      if str_eqb k key
      then (k, {| columns := columns t ++ [col]; primary_keys := primary_keys t |}) :: ts'
      else (k, t) :: add_column ts' key col
  end.

Definition table_key (row : schema_row) : str :=
  TABLE_SCHEMA row ++ txt "." ++ TABLE_NAME row.

Definition relationship_of (row : fk_row) : Relationship :=
  {| from_table := FK_TABLE row;
     from_column := FK_COLUMN row;
     to_table := REFERENCED_TABLE row;
     to_column := REFERENCED_COLUMN row |}.

Definition organize (schema_data : list schema_row) (fk_data : list fk_row) : SchemaInfo :=
  {| tables := List.fold_left (fun ts row => add_column ts (table_key row) (column_of row))
                              schema_data [];
     relationships := List.map relationship_of fk_data |}.

Section Cache.

(** The contents of a file. *)
Variable content : Type.
Variable json_dump : SchemaInfo -> content.
Variable json_load : content -> option SchemaInfo.

(** What one call finds: the cache file, the database and whether the
    file can be written.  A call changes the cache file only; the database
    and the file system are free to differ by the next call, which then
    runs in a world of its own. *)
Record world : Type := {
  cache_file : option content;      (* [schema_cache.json], when it exists *)
  introspect : option (list schema_row * list fk_row);
                                    (* the two queries, [None] when they raise *)
  writable : bool                   (* [open(cache_file, 'w')] succeeds *)
}.

Definition write_cache (w : world) (c : content) : world :=
  {| cache_file := Some c; introspect := introspect w; writable := writable w |}.

(** [None] is a raised exception. *)
Definition get_schema_info (w : world) (force_refresh : bool) : option SchemaInfo * world :=
  match force_refresh, cache_file w with
  | false, Some c => (json_load c, w)
  | _, _ =>
      match introspect w with
      | None => (None, w)
      | Some (schema_data, fk_data) =>
          let schema_info := organize schema_data fk_data in
          if writable w then (Some schema_info, write_cache w (json_dump schema_info))
          else (None, w)
      end
  end.

End Cache.

Arguments Build_world {content}.
Arguments cache_file {content}.
Arguments introspect {content}.
Arguments writable {content}.
Arguments write_cache {content}.
Arguments get_schema_info {content}.

(** A sample world: no cache file yet, a database with one table. *)
Definition customers_rows : list schema_row :=
  [ {| TABLE_SCHEMA := txt "dbo"; TABLE_NAME := txt "Customers";
       COLUMN_NAME := txt "CustomerID"; DATA_TYPE := txt "nchar"; IS_NULLABLE := txt "NO" |};
    {| TABLE_SCHEMA := txt "dbo"; TABLE_NAME := txt "Customers";
       COLUMN_NAME := txt "Country"; DATA_TYPE := txt "nvarchar"; IS_NULLABLE := txt "YES" |} ].

Definition fresh_world : @world SchemaInfo :=
  {| cache_file := None; introspect := Some (customers_rows, []); writable := true |}.

(** A later world: the cache file holds [c], the database cannot be
    reached any more and the file cannot be written. *)
Definition changed_world (c : SchemaInfo) : @world SchemaInfo :=
  {| cache_file := Some c; introspect := None; writable := false |}.

End SchemaCache.

(** ** [OllamaLLM] *)

Module OllamaLLM.

(** [select\s+] under [re.IGNORECASE] *)
Definition select_ws : regex := Cat (lit_ci "select") (plus is_space).

(** [f'select top {MAX_RESULTS} '] *)
Definition select_top : str := txt "select top " ++ decimal MAX_RESULTS ++ txt " ".

(** The part of [select_top] after the keyword and its space. *)
Definition row_cap : str := txt "top " ++ decimal MAX_RESULTS ++ txt " ".

(** [with_caps prev s s']: [s'] is [s] with row caps inserted after some
    of its spaces; [prev] is the character before the two texts. *)
Inductive with_caps : option ascii -> str -> str -> Prop :=
| caps_nil (prev : option ascii) : with_caps prev [] []
| caps_copy (prev : option ascii) (c : ascii) (s s' : str) :
    with_caps (Some c) s s' -> with_caps prev (c :: s) (c :: s')
| caps_insert (s s' : str) :
    with_caps (Some " "%char) s s' -> with_caps (Some " "%char) s (row_cap ++ s').

(** A word no part of a row cap can be taken for: not empty, without a
    space, and not a piece of [top] or of the number. *)
Definition cap_free (w : str) : bool :=
  match w with [] => false | _ => true end
  && List.forallb (fun c => negb (eqc c " "%char)) w
  && negb (contains w (txt "top"))
  && negb (contains w (decimal MAX_RESULTS)).

(** The patterns of [_clean_sql], in the order they are applied. *)
Definition fence_tail : regex := cats [lit "```"; Star any; Eol false].
Definition inst_tail : regex := cats [lit_ci "[/INST]"; Star any; Eol false].
Definition sys_tail : regex := cats [lit_ci "<<SYS>>"; Star any; Eol false].
Definition block_comment_lazy : regex := cats [lit "/*"; StarLazy any; lit "*/"].
Definition line_comment_ml : regex := cats [lit "--"; Star dot; Eol true].

(** The loop over [sql.split('\n')]: stripped non-empty lines are kept up
    to and including the first that ends with a semicolon. *)
Fixpoint keep_lines (lines : list str) : list str :=
  match lines with
  | [] => []
  | line :: rest =>
      let line := strip line in
      match line with
      | [] => keep_lines rest
      | _ => if endswith_char ";"%char line then [line] else line :: keep_lines rest
      end
  end.

Definition clean_sql (sql : str) : str :=
  let sql := sub fence_tail [] sql in
  let sql := sub inst_tail [] sql in
  let sql := sub sys_tail [] sql in
  let sql := sub block_comment_lazy [] sql in
  let sql := sub line_comment_ml [] sql in
  let sql := sub slash [] sql in
  let sql := strip (sub (plus is_space) (txt " ") sql) in
  let sql := if contains (txt "select") (lower sql) && negb (contains (txt "top ") (lower sql))
             then sub select_ws select_top sql
             else sql in
  let sql := strip (split_head ";"%char sql) in
  strip (join (txt " ") (keep_lines (split_on nl sql))).

(** [_validate_sql] *)
Definition join_to (table target : string) : regex :=
  cats [lit "join"; plus is_space; lit table; plus is_space; Star dot;
        lit "="; Star is_space; lit target].

Definition invalid_joins : list regex :=
  [join_to "products" "employees.employeeid";
   join_to "orders" "suppliers.supplierid";
   cats [join_to "orders" "shippers.shipperid"; plus is_space; Star dot;
         lit "!="; Star is_space; lit "orders.shipvia"]].

Definition validate_sql (sql : str) : bool :=
  let sql_lower := lower sql in
  if search (join_to "customers" "employees.employeeid") sql_lower
     || search (join_to "employees" "customers.customerid") sql_lower
  then false
  else if List.existsb (fun pattern => search pattern sql_lower) invalid_joins
  then false
  else true.

(** One pass of the loop body of [generate_sql] after the model answered:
    the accepted statement, or [None] when a check raises ValueError. *)
Definition accept (response : str) : option str :=
  let sql := clean_sql response in
  if negb (startswith (txt "select") (strip (lower sql))) then None
  else if List.existsb (fun c => contains c (lower sql)) [txt "/*"; txt "--"; txt "/"] then None
  else if negb (contains (txt "top") (lower sql)) && contains (txt "limit") (lower sql) then None
  else if negb (is_query_safe sql) then None
  else if negb (validate_sql sql) then None
  else if negb (contains (txt "top " ++ decimal MAX_RESULTS) (lower sql))
       then Some (sub select_ws select_top sql)
       else Some sql.

(** [generate_sql]: the model's answer at each attempt is [llm attempt];
    [None] stands for an exception while reading the schema or calling the
    model.  [attempt] counts up from 0 and [fuel] is the number of attempts
    left in [range(MAX_SQL_ATTEMPTS)]. *)
Fixpoint generate_from (llm : nat -> option str) (attempt fuel : nat) : option str :=
  match fuel with
  | O => None
  | S fuel' =>
      match match llm attempt with Some response => accept response | None => None end with
      | Some sql => Some sql
      | None => if (attempt =? MAX_SQL_ATTEMPTS - 1)%nat then None
                else generate_from llm (S attempt) fuel'
      end
  end.

Definition generate_sql (llm : nat -> option str) : option str :=
  generate_from llm 0 MAX_SQL_ATTEMPTS.

(** [_sanitize_data] *)
Definition alnum_ascii (c : ascii) : bool :=
  in_range 65 90 c || in_range 97 122 c || in_range 48 57 c.

(** [[A-Za-z0-9._%+-]], [[A-Za-z0-9.-]] and [[A-Z|a-z]] *)
Definition email_local (c : ascii) : bool := alnum_ascii c || List.existsb (eqc c) (txt "._%+-").
Definition email_domain (c : ascii) : bool := alnum_ascii c || List.existsb (eqc c) (txt ".-").
Definition email_tld (c : ascii) : bool :=
  in_range 65 90 c || in_range 97 122 c || eqc c "|"%char.

(** [\b[A-Za-z0-9._%+-]+@[A-Za-z0-9.-]+\.[A-Z|a-z]{2,}\b] *)
Definition email : regex :=
  cats [WordB; plus email_local; lit "@"; plus email_domain; lit ".";
        at_least 2 email_tld; WordB].

(** [\b\d{10,}\b] *)
Definition long_number : regex := cats [WordB; at_least 10 is_digit; WordB].

Definition sensitive_words : list str :=
  [txt "password"; txt "secret"; txt "address"; txt "phone"; txt "fax"].

Definition sanitize_data (value : str) : str :=
  let value := sub email (txt "[EMAIL]") value in
  let value := sub long_number (txt "[PHONE]") value in
  if List.existsb (fun word => contains word (lower value)) sensitive_words
  then txt "[REDACTED]"
  else value.

(** [_format_all_records]: a row of the frame is its fields in column
    order, a field a column name and [str(v)], or no value where
    [pd.notna(v)] is false.  The pin and the bullet of the source's
    templates are carried as their UTF-8 bytes. *)
Definition field : Type := (str * option str)%type.

Definition format_field (f : field) : list str :=
  match snd f with
  | Some v => [txt "• " ++ fst f ++ txt ": " ++ sanitize_data v]
  | None => []
  end.

Definition format_record (idx : nat) (row : list field) : str :=
  join [nl] ((txt "📌 Record " ++ decimal idx ++ txt ":") :: List.flat_map format_field row).

Fixpoint format_records_from (idx : nat) (rows : list (list field)) : list str :=
  match rows with
  | [] => []
  | row :: rest => format_record idx row :: format_records_from (S idx) rest
  end.

Definition format_all_records (rows : list (list field)) : str :=
  join [nl; nl] (format_records_from 1 rows).

End OllamaLLM.

(** ** [OllamaLLM.format_response]

    The frame [pd.DataFrame(results)] has a column for every key of every
    record.  What pandas computes on the frame is a parameter; the
    formatting of the numbers in the f-strings of [_format_order_response]
    is computed. *)

Module Response.
Import Executor.

Inductive shape : Type :=
| ProductShape
| OrderShape
| EmployeeShape
| CompanyShape
| ShipperShape
| GeneralShape.

(** ['name' in df.columns] *)
Definition has_column (results : list record) (name : string) : bool :=
  List.existsb (fun r => List.existsb (fun f => str_eqb (fst f) (txt name)) r) results.

(** The [if]/[elif] chain of [format_response]. *)
Definition classify (results : list record) : shape :=
  let has := has_column results in
  if has "ProductName"%string && has "UnitPrice"%string then ProductShape
  else if has "OrderID"%string && (has "CustomerID"%string || has "ShipVia"%string)
  then OrderShape
  else if has "EmployeeID"%string && has "LastName"%string then EmployeeShape
  else if has "CompanyName"%string && has "ContactName"%string then CompanyShape
  else if has "ShipperID"%string || has "ShipVia"%string then ShipperShape
  else GeneralShape.

(** *** Formatting a float in an f-string

    [format(x, spec)] for a float reads [spec] by the grammar
    [[[fill]align][sign][z][#][0][width][grouping][.precision][type]] of
    Python 3.11 and raises ValueError when it does not fit. *)

Definition is_align (c : ascii) : bool := List.existsb (eqc c) (txt "<>=^").
Definition is_sign (c : ascii) : bool := List.existsb (eqc c) (txt "+- ").

(** The fill character and the alignment. *)
Definition skip_align (s : str) : str :=
  match s with
  | f :: a :: s' => if is_align a then s'
                    else if is_align f then a :: s' else s
  | [a] => if is_align a then [] else s
  | [] => []
  end.

(** One optional character. *)
Definition skip_if (p : ascii -> bool) (s : str) : str :=
  match s with
  | c :: s' => if p c then s' else s
  | [] => []
  end.

(** The digits a text starts with, as a number, and the text after
    them. *)
Fixpoint get_integer (acc : N) (s : str) : N * str :=
  match s with
  | c :: s' => if is_digit c then get_integer (10 * acc + (code c - 48))%N s' else (acc, s)
  | [] => (acc, [])
  end.

Definition SSIZE_MAX : N := 9223372036854775807.
Definition INT_MAX : N := 2147483647.

Definition float_types : str := txt "eEfFgGn%".
Definition grouped_types : str := txt "deEfFgG%".

(** [true] when [format(x, spec)] accepts [spec] for a float [x]. *)
Definition float_spec_ok (spec : str) : bool :=
  let s := skip_align spec in
  let s := skip_if is_sign s in
  let s := skip_if (eqc "z"%char) s in
  let s := skip_if (eqc "#"%char) s in
  let (width, s) := get_integer 0 s in
  if (SSIZE_MAX <? width)%N then false
  else
    let comma := match s with c :: _ => eqc c ","%char | [] => false end in
    let s := skip_if (eqc ","%char) s in
    let underscore := match s with c :: _ => eqc c "_"%char | [] => false end in
    let s := skip_if (eqc "_"%char) s in
    if comma && underscore then false
    else if underscore && match s with c :: _ => eqc c ","%char | [] => false end then false
    else
      let grouped := comma || underscore in
      let dotted := match s with c :: _ => eqc c "."%char | [] => false end in
      let s := skip_if (eqc "."%char) s in
      let missing := dotted && negb (match s with c :: _ => is_digit c | [] => false end) in
      let (precision, s) := if dotted then get_integer 0 s else (0%N, s) in
      if missing || (INT_MAX <? precision)%N then false
      else
        match s with
        | [] => true
        | [t] => List.existsb (eqc t) float_types
                 && (negb grouped || List.existsb (eqc t) grouped_types)
        | _ :: _ :: _ => false
        end.

(** A Python float. *)
Inductive pyfloat : Type :=
| Finite (q : Q)
| Infinite (negative : bool)
| NotANumber.

(** What pandas computes on the frame of the results; [None] is a raised
    exception. *)
Record frame_ops : Type := {
  date_span : list record -> option (str * str);
      (* [pd.to_datetime] of OrderDate, then [min] and [max] as ['%Y-%m-%d'] *)
  nunique : string -> list record -> option nat;       (* [df[col].nunique()] *)
  group_mean : string -> list record -> option pyfloat;
      (* [df.groupby(col).size().mean()] *)
  column_mean : string -> list record -> option pyfloat;   (* [df[col].mean()] *)
  float_text : str -> pyfloat -> str;
      (* the text of a float under a specification [format] accepts *)
  frame_rows : list record -> list (list OllamaLLM.field)
      (* the rows of the frame as [_format_all_records] iterates them *)
}.

(** [f"{x:spec}"] for a float [x] *)
Definition format_float (p : frame_ops) (spec : str) (x : pyfloat) : option str :=
  if float_spec_ok spec then Some (float_text p spec x) else None.

(** [_format_order_response]; in the fourth line of the header everything
    after the colon of the replacement field is the format
    specification. *)
Definition format_order_response (p : frame_ops) (results : list record) (query : str)
  : option str :=
  let has := has_column results in
  date_range ←
    (if has "OrderDate"%string
     then span ← date_span p results; Some (fst span ++ txt " to " ++ snd span)
     else Some (txt "Date information not available"));
  customers ←
    (if has "CustomerID"%string
     then n ← nunique p "CustomerID" results; Some (decimal n)
     else Some (txt "N/A"));
  items ←
    (x ← group_mean p "OrderID" results;
     format_float p (txt ".1f if 'OrderID' in df.columns else 'N/A'") x);
  let analysis :=
    [txt "📝 *Order Analysis: " ++ query ++ txt "*";
     txt "📅 Date Range: " ++ date_range;
     txt "👥 Unique Customers: " ++ customers;
     txt "📦 Avg Items/Order: " ++ items] in
  freight ←
    (if has "Freight"%string
     then x ← column_mean p "Freight" results;
          cost ← format_float p (txt ".2f") x;
          Some [txt "🚚 Avg Freight Cost: $" ++ cost]
     else Some []);
  shipping ←
    (if has "ShipVia"%string
     then n ← nunique p "ShipVia" results;
          Some [txt "🚛 Shipping Methods: " ++ decimal n]
     else Some []);
  Some (join [nl] (analysis ++ freight ++ shipping) ++ [nl; nl]
        ++ OllamaLLM.format_all_records (frame_rows p results)).

(** The other formatters compute their statistics with pandas in the same
    way and are parameters: each returns its text or raises. *)
Record formatters : Type := {
  format_product_response : list record -> str -> option str;
  format_employee_response : list record -> str -> option str;
  format_company_response : list record -> str -> option str;
  format_shipper_response : list record -> str -> option str;
  format_general_response : list record -> str -> option str;
  order_frame : frame_ops
}.

Definition format_response (f : formatters) (user_query : str) (results : list record)
  : option str :=
  match results with
  | [] => Some (txt "🔍 No data found matching your query")
  | _ =>
      match classify results with
      | ProductShape => format_product_response f results user_query
      | OrderShape => format_order_response (order_frame f) results user_query
      | EmployeeShape => format_employee_response f results user_query
      | CompanyShape => format_company_response f results user_query
      | ShipperShape => format_shipper_response f results user_query
      | GeneralShape => format_general_response f results user_query
      end
  end.

End Response.

(** ** The handlers: [is_greeting], [send_long_message], [handle_message] *)

Module Bot.
Import Executor RateLimiter OllamaLLM Response.

Definition greetings : list string :=
  ["hi"; "hello"; "hey"; "good morning"; "good evening"; "good afternoon"]%string.

(** [rf"\b{greeting}\b"] under [re.IGNORECASE] *)
Definition greeting_pattern (greeting : string) : regex :=
  cats [WordB; lit_ci greeting; WordB].

Definition is_greeting (text : str) : bool :=
  List.existsb (fun greeting => search (greeting_pattern greeting) text) greetings.

(** [range(start, stop, step)] for a positive step; [fuel] bounds the
    number of elements. *)
Fixpoint range_from (fuel start stop step : nat) : list nat :=
  match fuel with
  | O => []
  | S fuel' =>
      if (start <? stop)%nat then start :: range_from fuel' (start + step) stop step else []
  end.

Definition range (stop step : nat) : list nat := range_from stop 0 stop step.

(** [text[i:j]] *)
Definition slice {A : Type} (text : list A) (i j : nat) : list A :=
  firstn (j - i) (skipn i text).

(** The messages [send_long_message] sends, for a chunk size. *)
Definition chunks {A : Type} (size : nat) (text : list A) : list (list A) :=
  List.map (fun i => slice text i (i + size)) (range (length text) size).

Definition send_long_message (text : str) : list str := chunks 4096 text.

Definition too_many_requests : str := txt "⚠️ Too many requests. Please wait a minute.".
Definition hello : str := txt "👋 Hello! How can I help with Northwind data today?".
Definition could_not_generate : str :=
  txt "🤔 I couldn't generate a valid query. Try something like 'Show customers from Germany'".
Definition please_rephrase : str :=
  txt "⚠️ There was an issue with the query structure. Please try rephrasing your request.".
Definition unexpected_error : str := txt "⚠️ An unexpected error occurred. Please try again.".

(** [handle_message]: the replies sent, the limiter's state and the calls
    [execute_query] makes on the driver.  [model prompt] is the outcome of
    each attempt of [generate_sql] up to the model's answer, reading the
    schema included: the answer to the prompt built from [prompt], or
    [None] for an exception.  In Python a statement or an error that is
    the empty string counts as absent. *)
Definition handle_message (f : formatters) (model : str -> nat -> option str) (d : driver)
    (st : state) (user_id : Z) (now : Q) (text : str) : (list str * state) * trace :=
  let user_message := strip text in
  let limit := check_rate_limit st user_id now in
  if negb (fst limit) then (([too_many_requests], snd limit), [])
  else if is_greeting user_message then (([hello], snd limit), [])
  else
    match generate_sql (model user_message) with
    | None | Some [] => (([could_not_generate], snd limit), [])
    | Some query =>
        let r := execute_query d query in
        match fst r with
        | (_, Some (c :: e)) =>
            if contains (txt "invalid column name") (lower (c :: e))
            then (([please_rephrase], snd limit), snd r)
            else (([txt "⚠️ " ++ c :: e], snd limit), snd r)
        | ([], _) => (([txt "🔍 No data found for: " ++ user_message], snd limit), snd r)
        | (results, _) =>
            match format_response f user_message results with
            | Some response => ((send_long_message response, snd limit), snd r)
            | None => (([unexpected_error], snd limit), snd r)
            end
        end
    end.

End Bot.

(** ** Views of a trace *)

Module Calls.
Import Executor.

(** The statements handed to [cursor.execute], in order. *)
Definition executed (t : trace) : list str :=
  List.flat_map (fun e => match e with EvExecute query => [query] | _ => [] end) t.

(** The connection attempts made, in order. *)
Definition connects (t : trace) : list nat :=
  List.flat_map (fun e => match e with EvConnect attempt => [attempt] | _ => [] end) t.

End Calls.

(** ** Views of a row *)

Module Rows.
Import Executor.

(** [d.get(k)]: the value stored under a column name, if any. *)
Definition dict_get (d : record) (k : str) : option cell :=
  option_map snd (List.find (fun kv => str_eqb (fst kv) k) d).

End Rows.

(** ** Views of the schema *)

Module Tables.
Import Executor SchemaCache.

(** [tables.get(key)] with the key it is stored under. *)
Definition lookup_table (ts : list (str * TableInfo)) (key : str) : option (str * TableInfo) :=
  List.find (fun kt => str_eqb (fst kt) key) ts.

(** The rows of the column query that belong to a table key. *)
Definition rows_of (key : str) (schema_data : list schema_row) : list schema_row :=
  List.filter (fun row => str_eqb (table_key row) key) schema_data.

End Tables.

(** ** Sample parts for [handle_message] *)

Module Samples.
Import Executor Response.

(** A driver on which everything succeeds and every statement yields one
    row of the Orders table. *)
Definition orders_driver : driver :=
  {| env_set := true;
     connect := fun _ => None;
     open_cursor := None;
     execute := fun _ => Executed (Some [txt "OrderID"; txt "CustomerID"])
                           (Fetched [[Some (txt "10248"); Some (txt "VINET")]]);
     close_cursor := None;
     commit := None;
     rollback := None |}.

(** A frame on which every computation of pandas succeeds. *)
Definition fixed_frame : frame_ops :=
  {| date_span := fun _ => Some (txt "1996-07-04", txt "1996-07-04");
     nunique := fun _ _ => Some 1%nat;
     group_mean := fun _ _ => Some (Finite 1);
     column_mean := fun _ _ => Some (Finite 1);
     float_text := fun _ _ => txt "1.0";
     frame_rows := fun results => results |}.

(** Formatters that all return the same text. *)
Definition fixed_formatters : formatters :=
  {| format_product_response := fun _ _ => Some (txt "products");
     format_employee_response := fun _ _ => Some (txt "employees");
     format_company_response := fun _ _ => Some (txt "companies");
     format_shipper_response := fun _ _ => Some (txt "shippers");
     format_general_response := fun _ _ => Some (txt "records");
     order_frame := fixed_frame |}.

(** A model that gives the same answer at every attempt. *)
Definition fixed_model (answer : string) : str -> nat -> option str :=
  fun _ _ => Some (txt answer).

End Samples.


(** * Facts about text and patterns *)

Module TextFacts.

(** A property of every character, checked on the 256 of them. *)
Ltac each_char c :=
  destruct c as [[] [] [] [] [] [] [] []];
  vm_compute; try reflexivity; try discriminate; auto.

Lemma lower_char_slash (c : ascii) : is_slash (lower_char c) = is_slash c.
Proof. each_char c. Qed.

Lemma lower_char_space (c : ascii) : is_space (lower_char c) = is_space c.
Proof. each_char c. Qed.

Lemma lower_char_word (c : ascii) : is_word (lower_char c) = is_word c.
Proof. each_char c. Qed.

Lemma lower_char_nl (c : ascii) : eqc (lower_char c) nl = eqc c nl.
Proof. each_char c. Qed.

Lemma nl_is_space : is_space nl = true.
Proof. reflexivity. Qed.

Lemma eqc_eq (a b : ascii) : eqc a b = true <-> a = b.
Proof. apply Ascii.eqb_eq. Qed.

Lemma lstrip_In (c : ascii) (s : str) : In c (lstrip s) -> In c s.
Proof.
  induction s as [|d s IH]; cbn [lstrip]; [done|].
  destruct (is_space d); [right; auto|done].
Qed.

Lemma rstrip_In (c : ascii) (s : str) : In c (rstrip s) -> In c s.
Proof.
  unfold rstrip. intros H. apply in_rev in H. apply lstrip_In in H. by apply in_rev.
Qed.

Lemma strip_In (c : ascii) (s : str) : In c (strip s) -> In c s.
Proof. unfold strip. intros H. by apply lstrip_In, rstrip_In. Qed.

Lemma split_head_In (sep c : ascii) (s : str) : In c (split_head sep s) -> In c s.
Proof.
  induction s as [|d s IH]; cbn [split_head]; [done|].
  destruct (eqc d sep); [intros []|]. intros [->|H]; [by left|right; auto].
Qed.

Lemma split_head_no_sep (sep : ascii) (s : str) : ~ In sep (split_head sep s).
Proof.
  induction s as [|d s IH]; cbn [split_head]; [intros []|].
  destruct (eqc d sep) eqn:E; [intros []|].
  intros [->|H]; [|done]. unfold eqc in E. by rewrite Ascii.eqb_refl in E.
Qed.

End TextFacts.

Module ReFacts.
Import TextFacts.

Lemma sub_from_In (r : regex) (rep : str) (c : ascii) (s : str) :
  forall (prev : option ascii) (skip : nat),
  In c (sub_from r rep prev skip s) -> In c s \/ In c rep.
Proof.
  induction s as [|d s IH]; intros prev skip; cbn [sub_from].
  - destruct skip, (match_here r prev []); auto; intros [].
  - destruct skip as [|k].
    + destruct (match_here r prev (d :: s)) as [rest|].
      * destruct (length (d :: s) - length rest)%nat.
        -- intros H. apply in_app_iff in H. destruct H as [H|[->|H]]; auto.
           { left. by left. }
           destruct (IH _ _ H); auto. left. by right.
        -- intros H. apply in_app_iff in H. destruct H as [H|H]; auto.
           destruct (IH _ _ H); auto. left. by right.
      * intros [->|H]; [left; by left|]. destruct (IH _ _ H); auto. left. by right.
    + intros H. destruct (IH _ _ H); auto. left. by right.
Qed.

Lemma sub_In (r : regex) (rep : str) (c : ascii) (s : str) :
  In c (sub r rep s) -> In c s \/ In c rep.
Proof. apply sub_from_In. Qed.

(** Deleting the matches of a one-character class filters the text. *)
Lemma sub_from_class (p : ascii -> bool) (s : str) : forall prev : option ascii,
  sub_from (Chr p) [] prev 0 s = List.filter (fun c => negb (p c)) s.
Proof.
  induction s as [|d s IH]; intros prev; [reflexivity|].
  assert (Hm : match_here (Chr p) prev (d :: s) = if p d then Some s else None).
  { unfold match_here. cbn [run]. by destruct (p d). }
  cbn [sub_from List.filter]. rewrite Hm. destruct (p d); cbn [negb].
  - replace (length (d :: s) - length s)%nat with 1%nat by (cbn [length]; lia).
    cbn [app]. apply IH.
  - f_equal. apply IH.
Qed.

Lemma prev_after_app (prev : option ascii) (m1 m2 : str) :
  prev_after prev (m1 ++ m2) = prev_after (prev_after prev m1) m2.
Proof. apply fold_left_app. Qed.

Lemma prev_after_cons (prev : option ascii) (c : ascii) (m : str) :
  prev_after prev (c :: m) = prev_after (Some c) m.
Proof. reflexivity. Qed.

Lemma reached_refl (prev : option ascii) (s : str) : reached prev s (prev, s).
Proof. by exists []. Qed.

Lemma reached_cons (prev : option ascii) (c : ascii) (s : str) (q : pos) :
  reached (Some c) s q -> reached prev (c :: s) q.
Proof. intros (m & Hs & Hq). exists (c :: m). split; [cbn; by f_equal|done]. Qed.

Lemma reached_trans (prev : option ascii) (s : str) (q1 q2 : pos) :
  reached prev s q1 -> reached (fst q1) (snd q1) q2 -> reached prev s q2.
Proof.
  intros (m1 & Hs1 & Hq1) (m2 & Hs2 & Hq2). exists (m1 ++ m2). split.
  - rewrite Hs1, Hs2. by rewrite app_assoc.
  - by rewrite prev_after_app, <- Hq1.
Qed.

Lemma star_greedy_reached (p : ascii -> bool) (s : str) : forall (prev : option ascii) (q : pos),
  In q (star_greedy p prev s) -> reached prev s q.
Proof.
  induction s as [|c s IH]; intros prev q; cbn [star_greedy].
  - intros [<-|[]]. apply reached_refl.
  - destruct (p c).
    + intros H. apply in_app_iff in H. destruct H as [H|[<-|[]]].
      * apply reached_cons. by apply IH.
      * apply reached_refl.
    + intros [<-|[]]. apply reached_refl.
Qed.

Lemma star_lazy_reached (p : ascii -> bool) (s : str) : forall (prev : option ascii) (q : pos),
  In q (star_lazy p prev s) -> reached prev s q.
Proof.
  induction s as [|c s IH]; intros prev q; cbn [star_lazy].
  - intros [<-|[]]. apply reached_refl.
  - intros [<-|H]; [apply reached_refl|]. destruct (p c); [|destruct H].
    apply reached_cons. by apply IH.
Qed.

Lemma run_reached (r : regex) : forall (prev : option ascii) (s : str) (q : pos),
  In q (run r prev s) -> reached prev s q.
Proof.
  induction r as [|p|r1 IH1 r2 IH2|r1 IH1 r2 IH2|p|p| |m]; intros prev s q; cbn [run].
  - intros [<-|[]]. apply reached_refl.
  - destruct s as [|c s]; [intros []|]. destruct (p c); [|intros []].
    intros [<-|[]]. exists [c]. by split.
  - intros H. apply in_flat_map in H. destruct H as (q1 & H1 & H2).
    eapply reached_trans; eauto.
  - intros H. apply in_app_iff in H. destruct H; eauto.
  - apply star_greedy_reached.
  - apply star_lazy_reached.
  - destruct (at_boundary prev s); [|intros []]. intros [<-|[]]. apply reached_refl.
  - destruct (at_eol m s); [|intros []]. intros [<-|[]]. apply reached_refl.
Qed.

Lemma match_here_reached (r : regex) (prev : option ascii) (s rest : str) :
  match_here r prev s = Some rest ->
  exists m, s = m ++ rest /\ In (prev_after prev m, rest) (run r prev s).
Proof.
  unfold match_here. destruct (run r prev s) as [|q l] eqn:E; [discriminate|].
  intros [= <-]. destruct (run_reached r prev s q) as (m & Hs & Hq).
  - rewrite E. by left.
  - exists m. split; [done|]. left. destruct q. cbn in *. by subst.
Qed.

Lemma sub_from_skip (r : regex) (rep : str) (m rest : str) : forall prev : option ascii,
  sub_from r rep prev (length m) (m ++ rest) = sub_from r rep (prev_after prev m) 0 rest.
Proof.
  induction m as [|c m IH]; intros prev; [reflexivity|].
  cbn [length app sub_from]. apply IH.
Qed.

(** How [re.sub] proceeds at a position: no match and the character is
    copied; or a match that reads [m] and the scan goes on after it; or a
    match that reads nothing. *)
Lemma sub_from_cases (r : regex) (rep : str) (prev : option ascii) (c : ascii) (s : str) :
  (match_here r prev (c :: s) = None
   /\ sub_from r rep prev 0 (c :: s) = c :: sub_from r rep (Some c) 0 s)
  \/ (exists m rest, c :: s = (c :: m) ++ rest
        /\ match_here r prev (c :: s) = Some rest
        /\ sub_from r rep prev 0 (c :: s) = rep ++ sub_from r rep (prev_after prev (c :: m)) 0 rest)
  \/ (match_here r prev (c :: s) = Some (c :: s)
       /\ sub_from r rep prev 0 (c :: s) = rep ++ c :: sub_from r rep (Some c) 0 s).
Proof.
  cbn [sub_from]. destruct (match_here r prev (c :: s)) as [rest|] eqn:E; [|by left].
  right. destruct (match_here_reached _ _ _ _ E) as (m & Hs & _).
  destruct m as [|c' m].
  - right. cbn in Hs. subst rest. replace (length (c :: s) - length (c :: s))%nat with 0%nat by lia.
    done.
  - left. injection Hs as <- Hs. exists m, rest. subst s. split; [done|]. split; [done|].
    replace (length (c :: m ++ rest) - length rest)%nat with (S (length m))
      by (cbn [length]; rewrite length_app; lia).
    f_equal. apply (sub_from_skip r rep m rest (Some c)).
Qed.

Lemma run_cat_chr (p : ascii -> bool) (r : regex) (prev : option ascii) (s : str) :
  run (Cat (Chr p) r) prev s =
  match s with
  | c :: s' => if p c then run r (Some c) s' else []
  | [] => []
  end.
Proof.
  cbn [run]. destruct s as [|c s]; [reflexivity|]. destruct (p c); [|reflexivity].
  cbn [flat_map fst snd]. apply app_nil_r.
Qed.

Lemma run_cat_assoc (r1 r2 r3 : regex) (prev : option ascii) (s : str) :
  run (Cat (Cat r1 r2) r3) prev s = run (Cat r1 (Cat r2 r3)) prev s.
Proof.
  cbn [run]. induction (run r1 prev s) as [|q l IH]; [reflexivity|].
  cbn [flat_map]. rewrite flat_map_app. f_equal. exact IH.
Qed.

Lemma run_cat_wordb (r : regex) (prev : option ascii) (s : str) :
  run (Cat WordB r) prev s = if at_boundary prev s then run r prev s else [].
Proof.
  cbn [run]. destruct (at_boundary prev s); [|reflexivity]. cbn [flat_map fst snd]. apply app_nil_r.
Qed.

(** Without a match the substitution copies the text; with one, the
    replacement occurs in the result. *)
Lemma sub_from_no_match (r : regex) (rep : str) (s : str) : forall prev : option ascii,
  search_from r prev s = false -> sub_from r rep prev 0 s = s.
Proof.
  induction s as [|c s IH]; intros prev; cbn [search_from sub_from].
  - by destruct (match_here r prev []).
  - destruct (match_here r prev (c :: s)); [discriminate|]. intros H. f_equal. by apply IH.
Qed.

Lemma contains_startswith (p s : str) : startswith p s = true -> contains p s = true.
Proof. intros H. destruct s; cbn [contains]; by rewrite H. Qed.

Lemma contains_cons (p : str) (c : ascii) (s : str) :
  contains p s = true -> contains p (c :: s) = true.
Proof. intros H. cbn [contains]. rewrite H. apply orb_true_r. Qed.

Lemma startswith_app (p s : str) : startswith p (p ++ s) = true.
Proof.
  induction p as [|a p IH]; [reflexivity|]. cbn [app startswith]. unfold eqc.
  by rewrite Ascii.eqb_refl.
Qed.

Lemma sub_from_match (r : regex) (rep : str) (s : str) : forall prev : option ascii,
  search_from r prev s = true -> contains rep (sub_from r rep prev 0 s) = true.
Proof.
  induction s as [|c s IH]; intros prev; cbn [search_from sub_from].
  - destruct (match_here r prev []); [|discriminate]. intros _.
    apply contains_startswith. rewrite <- (app_nil_r rep) at 2. apply startswith_app.
  - destruct (match_here r prev (c :: s)) as [rest|].
    + intros _. destruct (length (c :: s) - length rest)%nat;
        apply contains_startswith, startswith_app.
    + intros H. apply contains_cons. by apply IH.
Qed.

Lemma startswith_lower (p s : str) :
  startswith p s = true -> startswith (lower p) (lower s) = true.
Proof.
  revert s. induction p as [|a p IH]; intros s; [reflexivity|].
  destruct s as [|b s]; [discriminate|]. cbn [startswith lower List.map].
  intros H. apply andb_true_iff in H. destruct H as [Hab H]. apply eqc_eq in Hab. subst.
  unfold eqc. rewrite Ascii.eqb_refl. by apply IH.
Qed.

Lemma contains_lower (p s : str) :
  contains p s = true -> contains (lower p) (lower s) = true.
Proof.
  induction s as [|c s IH]; cbn [contains].
  - rewrite orb_false_r. intros H. apply contains_startswith.
    by apply (startswith_lower p []).
  - intros H. apply orb_true_iff in H. destruct H as [H|H].
    + apply contains_startswith. by apply (startswith_lower p (c :: s)).
    + apply (contains_cons _ (lower_char c)). by apply IH.
Qed.

Lemma startswith_prefix (p q s : str) : startswith (p ++ q) s = true -> startswith p s = true.
Proof.
  revert s. induction p as [|a p IH]; intros s; [reflexivity|].
  destruct s as [|b s]; [discriminate|]. cbn [app startswith].
  intros H. apply andb_true_iff in H. destruct H as [-> H]. by apply IH.
Qed.

Lemma contains_prefix (p q s : str) : contains (p ++ q) s = true -> contains p s = true.
Proof.
  induction s as [|c s IH]; cbn [contains].
  - rewrite !orb_false_r. apply startswith_prefix.
  - intros H. apply orb_true_iff in H. apply orb_true_iff. destruct H as [H|H].
    + left. by apply (startswith_prefix p q).
    + right. by apply IH.
Qed.

Lemma contains_tail (c : ascii) (p s : str) : contains (c :: p) s = true -> contains p s = true.
Proof.
  induction s as [|d s IH]; cbn [contains startswith]; [discriminate|].
  intros H. apply orb_true_iff in H. apply contains_cons. destruct H as [H|H].
  - apply andb_true_iff in H. destruct H as [_ H]. by apply contains_startswith.
  - by apply IH.
Qed.

(** Stepping a match through a concatenation, one factor at a time. *)
Lemma run_cat_literal (w : str) (r : regex) (s : str) : forall prev : option ascii,
  w <> [] ->
  run (Cat (cats (List.map (fun a => Chr (one a)) w)) r) prev (w ++ s)
  = run r (prev_after prev w) s.
Proof.
  induction w as [|a w IH]; intros prev Hw; [done|].
  destruct w as [|a' w].
  - cbn [List.map cats app]. rewrite run_cat_chr. unfold one, eqc.
    by rewrite Ascii.eqb_refl.
  - change (cats (List.map (fun a => Chr (one a)) (a :: a' :: w)))
      with (Cat (Chr (one a)) (cats (List.map (fun a => Chr (one a)) (a' :: w)))).
    rewrite run_cat_assoc, run_cat_chr. cbn [app]. unfold one at 1, eqc.
    rewrite Ascii.eqb_refl. by apply (IH (Some a)).
Qed.

Lemma In_run_cat_lit (w : string) (r : regex) (prev : option ascii) (s : str) (q : pos) :
  txt w <> [] -> In q (run r (prev_after prev (txt w)) s) ->
  In q (run (Cat (lit w) r) prev (txt w ++ s)).
Proof. intros Hw H. unfold lit. by rewrite run_cat_literal. Qed.

Lemma In_star_greedy_here (p : ascii -> bool) (s : str) (prev : option ascii) :
  In (prev, s) (star_greedy p prev s).
Proof.
  destruct s as [|c s]; cbn [star_greedy]; [by left|].
  destruct (p c); [apply in_app_iff; right|]; by left.
Qed.

Lemma In_star_greedy (p : ascii -> bool) (m rest : str) : forall prev : option ascii,
  forallb p m = true -> In (prev_after prev m, rest) (star_greedy p prev (m ++ rest)).
Proof.
  induction m as [|c m IH]; intros prev H; [apply In_star_greedy_here|].
  cbn [forallb] in H. apply andb_true_iff in H. destruct H as [Hc Hm].
  cbn [app star_greedy]. rewrite Hc. apply in_app_iff. left. by apply (IH (Some c)).
Qed.

Lemma In_run_cat_star (p : ascii -> bool) (r : regex) (m rest : str)
    (prev : option ascii) (q : pos) :
  forallb p m = true -> In q (run r (prev_after prev m) rest) ->
  In q (run (Cat (Star p) r) prev (m ++ rest)).
Proof.
  intros Hm Hq. cbn [run]. apply in_flat_map.
  exists (prev_after prev m, rest). split; [by apply In_star_greedy|exact Hq].
Qed.

Lemma In_run_cat_wordb (r : regex) (prev : option ascii) (s : str) (q : pos) :
  at_boundary prev s = true -> In q (run r prev s) -> In q (run (Cat WordB r) prev s).
Proof.
  intros Hb Hq. cbn [run]. rewrite Hb. cbn [flat_map fst snd]. apply in_app_iff. by left.
Qed.

Lemma In_run_wordb (prev : option ascii) (s : str) :
  at_boundary prev s = true -> In (prev, s) (run WordB prev s).
Proof. intros Hb. cbn [run]. rewrite Hb. by left. Qed.

Lemma In_run_alts (rs : list regex) (r : regex) (prev : option ascii) (s : str) (q : pos) :
  In r rs -> In q (run r prev s) -> In q (run (alts rs) prev s).
Proof.
  induction rs as [|r0 rs IH]; [intros []|]. intros Hin Hq.
  destruct rs as [|r1 rs].
  - destruct Hin as [->|[]]. exact Hq.
  - change (alts (r0 :: r1 :: rs)) with (Alt r0 (alts (r1 :: rs))). cbn [run].
    apply in_app_iff. destruct Hin as [->|Hin]; [by left|right; by apply IH].
Qed.

Lemma run_literal (w : str) (b : str) : forall prev : option ascii,
  run (cats (List.map (fun a => Chr (one a)) w)) prev (w ++ b) = [(prev_after prev w, b)].
Proof.
  induction w as [|a w IH]; intros prev; [reflexivity|].
  destruct w as [|a' w].
  - cbn. unfold one, eqc. by rewrite Ascii.eqb_refl.
  - change (cats (List.map (fun a => Chr (one a)) (a :: a' :: w)))
      with (Cat (Chr (one a)) (cats (List.map (fun a => Chr (one a)) (a' :: w)))).
    rewrite run_cat_chr. cbn [app]. unfold one at 1, eqc. rewrite Ascii.eqb_refl.
    apply (IH (Some a)).
Qed.

Lemma In_run_cat_words (words : list string) (kw : string) (r : regex)
    (prev : option ascii) (s : str) (q : pos) :
  In kw words -> In q (run r (prev_after prev (txt kw)) s) ->
  In q (run (Cat (alts (List.map lit words)) r) prev (txt kw ++ s)).
Proof.
  intros Hkw Hq. cbn [run]. apply in_flat_map.
  exists (prev_after prev (txt kw), s). split; [|exact Hq].
  apply (In_run_alts _ (lit kw)); [by apply in_map|].
  unfold lit. rewrite run_literal. by left.
Qed.

(** The same steps read backwards: what a match of a concatenation says
    about the text. *)
Lemma run_cat_literal_inv (w : str) (r : regex) (q : pos) : forall (prev : option ascii) (s : str),
  w <> [] ->
  In q (run (Cat (cats (List.map (fun a => Chr (one a)) w)) r) prev s) ->
  exists s1, s = w ++ s1 /\ In q (run r (prev_after prev w) s1).
Proof.
  induction w as [|a w IH]; intros prev s Hw; [done|].
  destruct w as [|a' w].
  - cbn [List.map cats]. rewrite run_cat_chr. destruct s as [|c s]; [intros []|].
    unfold one. destruct (eqc c a) eqn:E; [|intros []]. apply eqc_eq in E. subst.
    intros H. by exists s.
  - change (cats (List.map (fun a => Chr (one a)) (a :: a' :: w)))
      with (Cat (Chr (one a)) (cats (List.map (fun a => Chr (one a)) (a' :: w)))).
    rewrite run_cat_assoc, run_cat_chr. destruct s as [|c s]; [intros []|].
    unfold one at 1. destruct (eqc c a) eqn:E; [|intros []]. apply eqc_eq in E. subst.
    intros H. destruct (IH (Some a) s ltac:(done) H) as (s1 & -> & H1). by exists s1.
Qed.

Lemma run_cat_lit_inv (w : string) (r : regex) (prev : option ascii) (s : str) (q : pos) :
  txt w <> [] -> In q (run (Cat (lit w) r) prev s) ->
  exists s1, s = txt w ++ s1 /\ In q (run r (prev_after prev (txt w)) s1).
Proof. intros Hw. unfold lit. by apply run_cat_literal_inv. Qed.

Lemma run_literal_inv (w : str) (q : pos) : forall (prev : option ascii) (s : str),
  w <> [] ->
  In q (run (cats (List.map (fun a => Chr (one a)) w)) prev s) ->
  exists s1, s = w ++ s1 /\ q = (prev_after prev w, s1).
Proof.
  induction w as [|a w IH]; intros prev s Hw; [done|].
  destruct w as [|a' w].
  - cbn [List.map cats run]. destruct s as [|c s]; [intros []|].
    unfold one. destruct (eqc c a) eqn:E; [|intros []]. apply eqc_eq in E. subst.
    intros [<-|[]]. by exists s.
  - change (cats (List.map (fun a => Chr (one a)) (a :: a' :: w)))
      with (Cat (Chr (one a)) (cats (List.map (fun a => Chr (one a)) (a' :: w)))).
    rewrite run_cat_chr. destruct s as [|c s]; [intros []|].
    unfold one at 1. destruct (eqc c a) eqn:E; [|intros []]. apply eqc_eq in E. subst.
    intros H. destruct (IH (Some a) s ltac:(done) H) as (s1 & -> & H1). by exists s1.
Qed.

Lemma star_greedy_inv (p : ascii -> bool) (q : pos) : forall (s : str) (prev : option ascii),
  In q (star_greedy p prev s) ->
  exists m, s = m ++ snd q /\ forallb p m = true /\ fst q = prev_after prev m.
Proof.
  induction s as [|c s IH]; intros prev; cbn [star_greedy].
  - intros [<-|[]]. by exists [].
  - destruct (p c) eqn:E.
    + intros H. apply in_app_iff in H. destruct H as [H|[<-|[]]]; [|by exists []].
      destruct (IH (Some c) H) as (m & Hs & Hm & Hq). exists (c :: m).
      split; [cbn; by f_equal|]. split; [cbn; by rewrite E|exact Hq].
    + intros [<-|[]]. by exists [].
Qed.

Lemma run_cat_star_inv (p : ascii -> bool) (r : regex) (prev : option ascii) (s : str) (q : pos) :
  In q (run (Cat (Star p) r) prev s) ->
  exists m s1, s = m ++ s1 /\ forallb p m = true /\ In q (run r (prev_after prev m) s1).
Proof.
  cbn [run]. intros H. apply in_flat_map in H. destruct H as ([pv s1] & H1 & H2).
  apply star_greedy_inv in H1. destruct H1 as (m & Hs & Hm & Hq). cbn [fst snd] in *.
  subst pv. by exists m, s1.
Qed.

Lemma run_cat_wordb_inv (r : regex) (prev : option ascii) (s : str) (q : pos) :
  In q (run (Cat WordB r) prev s) -> at_boundary prev s = true /\ In q (run r prev s).
Proof. rewrite run_cat_wordb. destruct (at_boundary prev s); [by split|intros []]. Qed.

Lemma run_wordb_inv (prev : option ascii) (s : str) (q : pos) :
  In q (run WordB prev s) -> at_boundary prev s = true.
Proof. cbn [run]. destruct (at_boundary prev s); [done|intros []]. Qed.

Lemma run_alts_inv (rs : list regex) (prev : option ascii) (s : str) (q : pos) :
  rs <> [] -> In q (run (alts rs) prev s) -> exists r, In r rs /\ In q (run r prev s).
Proof.
  induction rs as [|r0 rs IH]; [done|]. intros _ H. destruct rs as [|r1 rs].
  - exists r0. split; [by left|exact H].
  - change (alts (r0 :: r1 :: rs)) with (Alt r0 (alts (r1 :: rs))) in H. cbn [run] in H.
    apply in_app_iff in H. destruct H as [H|H].
    + exists r0. split; [by left|exact H].
    + destruct (IH ltac:(done) H) as (r & Hr & Hq). exists r. split; [by right|exact Hq].
Qed.

Lemma run_cat_words_inv (words : list string) (r : regex)
    (prev : option ascii) (s : str) (q : pos) :
  words <> [] -> Forall (fun w => txt w <> []) words ->
  In q (run (Cat (alts (List.map lit words)) r) prev s) ->
  exists kw s1, In kw words /\ s = txt kw ++ s1 /\ In q (run r (prev_after prev (txt kw)) s1).
Proof.
  intros Hne Hall H. cbn [run] in H. apply in_flat_map in H. destruct H as (q1 & H1 & H2).
  apply run_alts_inv in H1; [|by destruct words].
  destruct H1 as (r1 & Hr1 & Hq1). apply in_map_iff in Hr1. destruct Hr1 as (kw & <- & Hkw).
  unfold lit in Hq1. apply run_literal_inv in Hq1.
  - destruct Hq1 as (s1 & -> & ->). by exists kw, s1.
  - rewrite List.Forall_forall in Hall. by apply Hall.
Qed.

(** A successful scan found a match at some place. *)
Lemma search_from_inv (r : regex) (s : str) : forall prev : option ascii,
  search_from r prev s = true ->
  exists a b q, s = a ++ b /\ In q (run r (prev_after prev a) b).
Proof.
  induction s as [|c s IH]; intros prev; cbn [search_from]; unfold match_here.
  - destruct (run r prev []) as [|q l] eqn:E; [discriminate|]. intros _.
    exists [], [], q. split; [done|]. cbn. rewrite E. by left.
  - destruct (run r prev (c :: s)) as [|q l] eqn:E.
    + intros H. destruct (IH (Some c) H) as (a & b & q & -> & Hq). by exists (c :: a), b, q.
    + intros _. exists [], (c :: s), q. split; [done|]. cbn. rewrite E. by left.
Qed.

(** What a gap tells about the positions at its two ends. *)
Lemma is_gap_facts (m : str) (prev : option ascii) :
  is_gap m = true ->
  forallb dot m = true /\ word_after m = false /\ word_before (prev_after prev m) = false.
Proof.
  unfold is_gap. intros H. apply andb_true_iff in H. destruct H as [H H3].
  apply andb_true_iff in H. destruct H as [H1 H2]. split; [exact H1|].
  destruct m as [|c m]; [discriminate|]. split.
  - cbn. by apply negb_true_iff.
  - unfold prev_after. cbn [last_char fold_left] in *.
    unfold word_before. destruct (fold_left _ m (Some c)); [by apply negb_true_iff|discriminate].
Qed.

End ReFacts.

Module SpacingFacts.
Import TextFacts ReFacts OllamaLLM.

Lemma lstrip_suffix (s : str) : exists a, s = a ++ lstrip s.
Proof.
  induction s as [|c s [a IH]]; [by exists []|]. cbn [lstrip].
  destruct (is_space c); [|by exists []]. exists (c :: a). cbn. by f_equal.
Qed.

Lemma lstrip_not_space (s : str) : starts_with_space (lstrip s) = false.
Proof.
  induction s as [|c s IH]; [reflexivity|]. cbn [lstrip].
  destruct (is_space c) eqn:E; [done|]. cbn. done.
Qed.

Lemma lstrip_length (s : str) : (length (lstrip s) <= length s)%nat.
Proof. destruct (lstrip_suffix s) as [a H]. rewrite H at 2. rewrite length_app. lia. Qed.

Lemma single_spaced_suffix (a b : str) : single_spaced (a ++ b) = true -> single_spaced b = true.
Proof.
  induction a as [|c a IH]; cbn [app single_spaced]; [auto|].
  intros H. apply andb_true_iff in H. apply IH, H.
Qed.

Lemma single_spaced_cons (c : ascii) (s t : str) :
  starts_with_space t = starts_with_space s ->
  single_spaced (c :: s) = true -> single_spaced t = true -> single_spaced (c :: t) = true.
Proof.
  cbn [single_spaced]. intros -> H Ht. apply andb_true_iff in H. destruct H as [H _].
  by rewrite H, Ht.
Qed.

Lemma star_greedy_space_head (s : str) : forall prev : option ascii,
  exists pv tl, star_greedy is_space prev s = (pv, lstrip s) :: tl.
Proof.
  induction s as [|c s IH]; intros prev; cbn [star_greedy lstrip]; [by eexists _, _|].
  destruct (is_space c); [|by eexists _, _].
  destruct (IH (Some c)) as (pv & tl & ->). by eexists _, _.
Qed.

Lemma match_here_spaces (prev : option ascii) (c : ascii) (s : str) :
  match_here (plus is_space) prev (c :: s) = if is_space c then Some (lstrip s) else None.
Proof.
  unfold match_here, plus. cbn [run]. destruct (is_space c); cbn [flat_map fst snd]; [|reflexivity].
  destruct (star_greedy_space_head s (Some c)) as (pv & tl & ->).
  reflexivity.
Qed.

(** [re.sub(r'\s+', ' ', s)] *)
Lemma collapse_single_spaced (n : nat) : forall (s : str) (prev : option ascii),
  (length s <= n)%nat ->
  single_spaced (sub_from (plus is_space) (txt " ") prev 0 s) = true
  /\ starts_with_space (sub_from (plus is_space) (txt " ") prev 0 s) = starts_with_space s.
Proof.
  induction n as [|n IH]; intros s prev Hlen.
  - destruct s; [|cbn in Hlen; lia]. by cbn.
  - destruct s as [|c s]; [by cbn|]. cbn [length] in Hlen.
    destruct (sub_from_cases (plus is_space) (txt " ") prev c s)
      as [[Hm ->]|[(m & rest & Hs & Hm & ->)|[Hm _]]];
      rewrite match_here_spaces in Hm; destruct (is_space c) eqn:Ec; try discriminate.
    + destruct (IH s (Some c) ltac:(lia)) as [H1 H2]. split; [|by cbn].
      cbn [single_spaced]. by rewrite Ec, H1.
    + injection Hm as <-. pose proof (lstrip_length s) as Hl.
      destruct (IH (lstrip s) (prev_after prev (c :: m)) ltac:(lia)) as [H1 H2].
      rewrite lstrip_not_space in H2.
      set (o := sub_from _ _ _ _ (lstrip s)) in *. split; [|by cbn].
      change (txt " " ++ o) with (" "%char :: o). cbn [single_spaced]. by rewrite H2, H1.
    + injection Hm as Hm. exfalso. pose proof (lstrip_length s). 
      apply (f_equal (@length ascii)) in Hm. cbn [length] in Hm. lia.
Qed.

Lemma one_ci_not_space (a c : ascii) :
  is_space a = false -> one_ci a c = true -> is_space c = false.
Proof.
  unfold one_ci. intros Ha H. apply eqc_eq in H.
  rewrite <- (lower_char_space c), H, lower_char_space. exact Ha.
Qed.

(** A match of [select\s+] starts at a letter and reads all the white
    space after the keyword. *)
Lemma match_here_select_ws (prev : option ascii) (s rest : str) :
  match_here select_ws prev s = Some rest ->
  starts_with_space s = false /\ starts_with_space rest = false
  /\ (length rest < length s)%nat.
Proof.
  unfold match_here, select_ws, lit_ci.
  cbn [txt list_ascii_of_string List.map cats].
  rewrite ?run_cat_assoc, run_cat_chr.
  destruct s as [|c0 s]; [discriminate|]. destruct (one_ci "s" c0) eqn:E0; [|discriminate].
  rewrite ?run_cat_assoc, run_cat_chr.
  destruct s as [|c1 s]; [discriminate|]. destruct (one_ci "e" c1); [|discriminate].
  rewrite ?run_cat_assoc, run_cat_chr.
  destruct s as [|c2 s]; [discriminate|]. destruct (one_ci "l" c2); [|discriminate].
  rewrite ?run_cat_assoc, run_cat_chr.
  destruct s as [|c3 s]; [discriminate|]. destruct (one_ci "e" c3); [|discriminate].
  rewrite ?run_cat_assoc, run_cat_chr.
  destruct s as [|c4 s]; [discriminate|]. destruct (one_ci "c" c4); [|discriminate].
  rewrite ?run_cat_assoc, run_cat_chr.
  destruct s as [|c5 s]; [discriminate|]. destruct (one_ci "t" c5); [|discriminate].
  destruct s as [|c6 s]; [discriminate|].
  change (match_here (plus is_space) (Some c5) (c6 :: s) = Some rest ->
          starts_with_space (c0 :: c1 :: c2 :: c3 :: c4 :: c5 :: c6 :: s) = false
          /\ starts_with_space rest = false
          /\ (length rest < length (c0 :: c1 :: c2 :: c3 :: c4 :: c5 :: c6 :: s))%nat).
  rewrite match_here_spaces. destruct (is_space c6); [|discriminate]. intros [= <-].
  split; [|split; [apply lstrip_not_space|pose proof (lstrip_length s); cbn [length]; lia]].
  cbn [starts_with_space]. by apply (one_ci_not_space "s").
Qed.

Lemma select_top_app_single_spaced (o : str) :
  starts_with_space o = false -> single_spaced o = true ->
  single_spaced (select_top ++ o) = true.
Proof.
  intros H1 H2. change select_top with (txt "select top 50 ").
  cbn [txt list_ascii_of_string app single_spaced starts_with_space].
  rewrite H1, H2. reflexivity.
Qed.

(** [re.sub(r'select\s+', 'select top 50 ', s)] *)
Lemma inject_top_single_spaced (n : nat) : forall (s : str) (prev : option ascii),
  (length s <= n)%nat -> single_spaced s = true ->
  single_spaced (sub_from select_ws select_top prev 0 s) = true
  /\ starts_with_space (sub_from select_ws select_top prev 0 s) = starts_with_space s.
Proof.
  induction n as [|n IH]; intros s prev Hlen Hs.
  - destruct s; [|cbn in Hlen; lia]. by cbn.
  - destruct s as [|c s]; [by cbn|]. cbn [length] in Hlen.
    destruct (sub_from_cases select_ws select_top prev c s)
      as [[Hm ->]|[(m & rest & Hsplit & Hm & ->)|[Hm _]]].
    + pose proof Hs as Hs'. cbn [single_spaced] in Hs'. apply andb_true_iff in Hs'.
      destruct (IH s (Some c) ltac:(lia) (proj2 Hs')) as [H1 H2].
      split; [|by cbn]. by apply (single_spaced_cons c s).
    + apply match_here_select_ws in Hm. destruct Hm as (Hc & Hrest & _).
      assert (Hr : single_spaced rest = true).
      { apply (single_spaced_suffix (c :: m)). by rewrite <- Hsplit. }
      assert (Hl : (length rest <= n)%nat).
      { apply (f_equal (@length ascii)) in Hsplit. cbn [length app] in Hsplit.
        rewrite length_app in Hsplit. lia. }
      destruct (IH rest (prev_after prev (c :: m)) Hl Hr) as [H1 H2].
      rewrite Hrest in H2. split.
      * by apply select_top_app_single_spaced.
      * cbn [starts_with_space] in Hc |- *. by rewrite Hc.
    + apply match_here_select_ws in Hm. destruct Hm as (_ & _ & Hlt). lia.
Qed.

Lemma single_spaced_prefix (a b : str) : single_spaced (a ++ b) = true -> single_spaced a = true.
Proof.
  induction a as [|c a IH]; [reflexivity|]. cbn [app single_spaced].
  intros H. apply andb_true_iff in H. destruct H as [H1 H2]. rewrite (IH H2), andb_true_r.
  destruct (is_space c); [|reflexivity]. apply andb_true_iff in H1. destruct H1 as [-> H1].
  destruct a; [reflexivity|exact H1].
Qed.

Lemma rstrip_prefix (s : str) : exists b, s = rstrip s ++ b.
Proof.
  unfold rstrip. destruct (lstrip_suffix (rev s)) as [a H]. exists (rev a).
  rewrite <- rev_app_distr, <- H. by rewrite rev_involutive.
Qed.

Lemma split_head_prefix (sep : ascii) (s : str) : exists b, s = split_head sep s ++ b.
Proof.
  induction s as [|c s [b IH]]; [by exists []|]. cbn [split_head].
  destruct (eqc c sep); [by eexists|]. exists b. cbn. by f_equal.
Qed.

Lemma strip_single_spaced (s : str) : single_spaced s = true -> single_spaced (strip s) = true.
Proof.
  intros H. unfold strip. destruct (rstrip_prefix (lstrip s)) as [b Hb].
  apply (single_spaced_prefix _ b). rewrite <- Hb.
  destruct (lstrip_suffix s) as [a Ha]. apply (single_spaced_suffix a). by rewrite <- Ha.
Qed.

Lemma split_head_single_spaced (sep : ascii) (s : str) :
  single_spaced s = true -> single_spaced (split_head sep s) = true.
Proof.
  intros H. destruct (split_head_prefix sep s) as [b Hb].
  apply (single_spaced_prefix _ b). by rewrite <- Hb.
Qed.

Lemma strip_trimmed (s : str) : trimmed (strip s) = true.
Proof.
  unfold trimmed, strip. apply andb_true_iff. split; apply negb_true_iff.
  - destruct (rstrip_prefix (lstrip s)) as [b Hb].
    pose proof (lstrip_not_space s) as H. rewrite Hb in H.
    destruct (rstrip (lstrip s)); [reflexivity|exact H].
  - unfold rstrip. rewrite rev_involutive. apply lstrip_not_space.
Qed.

Lemma strip_collapsed (s : str) : single_spaced s = true -> collapsed (strip s) = true.
Proof.
  intros H. unfold collapsed. by rewrite strip_single_spaced, strip_trimmed.
Qed.

Lemma single_spaced_no_newline (s : str) : single_spaced s = true -> ~ In nl s.
Proof.
  induction s as [|c s IH]; [intros _ []|]. cbn [single_spaced]. intros H [->|Hin].
  - cbn in H. discriminate.
  - apply andb_true_iff in H. destruct H as [_ H]. exact (IH H Hin).
Qed.

Lemma split_on_no_sep (sep : ascii) (s : str) : ~ In sep s -> split_on sep s = [s].
Proof.
  induction s as [|c s IH]; [reflexivity|]. intros H. cbn [split_on].
  destruct (eqc c sep) eqn:E.
  - apply eqc_eq in E. subst. exfalso. apply H. by left.
  - rewrite IH; [reflexivity|]. intros Hin. apply H. by right.
Qed.

(** On a text of one line the loop over the lines keeps the stripped line. *)
Lemma keep_one_line (s : str) : join (txt " ") (keep_lines [s]) = strip s.
Proof.
  cbn [keep_lines]. destruct (strip s) as [|c l]; [reflexivity|].
  destruct (endswith_char ";" (c :: l)); reflexivity.
Qed.

Lemma lstrip_id (s : str) : starts_with_space s = false -> lstrip s = s.
Proof. destruct s as [|c s]; [reflexivity|]. cbn. by intros ->. Qed.

Lemma strip_id (s : str) : trimmed s = true -> strip s = s.
Proof.
  unfold trimmed, strip, rstrip. intros H. apply andb_true_iff in H.
  destruct H as [H1 H2]. apply negb_true_iff in H1, H2.
  rewrite (lstrip_id s H1), (lstrip_id (rev s) H2). apply rev_involutive.
Qed.

Lemma lower_lstrip (s : str) : lower (lstrip s) = lstrip (lower s).
Proof.
  induction s as [|c s IH]; [reflexivity|]. cbn [lower List.map lstrip].
  rewrite lower_char_space. destruct (is_space c); [exact IH|reflexivity].
Qed.

Lemma lower_strip (s : str) : lower (strip s) = strip (lower s).
Proof.
  unfold strip, rstrip, lower. rewrite map_rev. fold (lower (lstrip (rev (lstrip s)))).
  rewrite lower_lstrip. unfold lower. rewrite map_rev. fold (lower (lstrip s)).
  by rewrite lower_lstrip.
Qed.

Lemma match_here_select_ws_first (prev : option ascii) (c : ascii) (s : str) :
  one_ci "s" c = false -> match_here select_ws prev (c :: s) = None.
Proof.
  intros H. unfold match_here, select_ws, lit_ci.
  cbn [txt list_ascii_of_string List.map cats].
  rewrite ?run_cat_assoc, run_cat_chr. by rewrite H.
Qed.

Lemma sub_from_select_copy (prev : option ascii) (c : ascii) (s : str) :
  one_ci "s" c = false ->
  sub_from select_ws select_top prev 0 (c :: s) = c :: sub_from select_ws select_top (Some c) 0 s.
Proof. intros H. cbn [sub_from]. by rewrite match_here_select_ws_first. Qed.

Lemma one_ci_other (a b c : ascii) :
  eqc a (lower_char c) = true -> eqc a (lower_char b) = false -> one_ci b c = false.
Proof.
  unfold one_ci. intros H1 H2. apply eqc_eq in H1. rewrite <- H1. exact H2.
Qed.

(** The injected row cap leaves a leading [select] a leading [select]. *)
Lemma inject_top_keeps_select (s : str) :
  startswith (txt "select") (lower s) = true ->
  startswith (txt "select") (lower (sub select_ws select_top s)) = true.
Proof.
  intros H. unfold sub.
  destruct s as [|c0 s]; [discriminate|].
  destruct (sub_from_cases select_ws select_top None c0 s)
    as [[Hm ->]|[(m & rest & _ & _ & ->)|[_ ->]]]; [|reflexivity|reflexivity].
  cbn [txt list_ascii_of_string lower List.map startswith] in H.
  destruct s as [|c1 [|c2 [|c3 [|c4 [|c5 s]]]]]; cbn [List.map startswith] in H;
    rewrite ?andb_false_r in H; try discriminate.
  repeat (apply andb_true_iff in H; let E := fresh "E" in destruct H as [E H]).
  rewrite (sub_from_select_copy _ c1) by (by apply (one_ci_other "e")).
  rewrite (sub_from_select_copy _ c2) by (by apply (one_ci_other "l")).
  rewrite (sub_from_select_copy _ c3) by (by apply (one_ci_other "e")).
  rewrite (sub_from_select_copy _ c4) by (by apply (one_ci_other "c")).
  rewrite (sub_from_select_copy _ c5) by (by apply (one_ci_other "t")).
  cbn [txt list_ascii_of_string lower List.map startswith].
  by rewrite E, E0, E1, E2, E3, E4.
Qed.

End SpacingFacts.


Module SafetyGateFacts.
Import TextFacts ReFacts.

Lemma search_from_class (p : ascii -> bool) (s : str) : forall prev : option ascii,
  search_from (Chr p) prev s = List.existsb p s.
Proof.
  induction s as [|c s IH]; intros prev; [reflexivity|].
  cbn [search_from List.existsb]. unfold match_here. cbn [run].
  destruct (p c); [reflexivity|]. apply IH.
Qed.

(** A match somewhere in the text is found by the scan. *)
Lemma search_from_app (r : regex) (a b : str) : forall prev : option ascii,
  run r (prev_after prev a) b <> [] -> search_from r prev (a ++ b) = true.
Proof.
  induction a as [|c a IH]; intros prev H.
  - cbn [app]. destruct b; cbn [search_from]; unfold match_here;
      cbn [prev_after last_char fold_left] in H; by destruct (run r prev _).
  - cbn [app search_from]. destruct (match_here r prev (c :: a ++ b)); [reflexivity|].
    by apply IH.
Qed.

Lemma is_query_safe_false (pattern : regex) (query : str) :
  In pattern dangerous_patterns -> search pattern (lower query) = true ->
  is_query_safe query = false.
Proof.
  intros Hin Hs. unfold is_query_safe. apply negb_false_iff, existsb_exists. eauto.
Qed.

(** C1, the parts that hold: any forward or backward slash, hence any
    block comment, is rejected. *)
Theorem slash_rejected (query : str) (c : ascii) :
  In c query -> is_slash c = true -> is_query_safe query = false.
Proof.
  intros Hin Hc. apply (is_query_safe_false slash).
  - cbn. tauto.
  - unfold search, slash. rewrite search_from_class. apply existsb_exists.
    exists (lower_char c). split; [by apply in_map|by rewrite lower_char_slash].
Qed.

Lemma In_run_cat (r1 r2 : regex) (prev : option ascii) (s : str) (q1 q2 : pos) :
  In q1 (run r1 prev s) -> In q2 (run r2 (fst q1) (snd q1)) -> In q2 (run (Cat r1 r2) prev s).
Proof. intros H1 H2. cbn [run]. apply in_flat_map. eauto. Qed.

Lemma mutating_word_ends_in_word (kw : string) (prev : option ascii) :
  In kw mutating_words ->
  word_before (prev_after prev (txt kw)) = true /\ word_after (txt kw) = true.
Proof.
  intros H. repeat (destruct H as [<-|H]; [by split|]). destruct H.
Qed.

(** A mutating keyword as a whole word is rejected, in any capitals. *)
Theorem mutating_keyword_rejected (query a b : str) (kw : string) :
  In kw mutating_words ->
  lower query = a ++ txt kw ++ b ->
  word_before (prev_after None a) = false -> word_after b = false ->
  is_query_safe query = false.
Proof.
  intros Hkw Hq Ha Hb. apply (is_query_safe_false mutating_keyword); [cbn; tauto|].
  unfold search. rewrite Hq. apply search_from_app.
  destruct (mutating_word_ends_in_word kw (prev_after None a) Hkw) as [Hlast Hfirst].
  unfold mutating_keyword.
  change (cats [WordB; alts (List.map lit mutating_words); WordB])
    with (Cat WordB (Cat (alts (List.map lit mutating_words)) WordB)).
  rewrite run_cat_wordb.
  assert (Hb0 : at_boundary (prev_after None a) (txt kw ++ b) = true).
  { unfold at_boundary. rewrite Ha. destruct (txt kw); [discriminate|exact Hfirst]. }
  rewrite Hb0.
  assert (Hin : In (prev_after (prev_after None a) (txt kw), b)
                   (run (Cat (alts (List.map lit mutating_words)) WordB)
                        (prev_after None a) (txt kw ++ b))).
  { eapply In_run_cat.
    - apply (In_run_alts _ (lit kw)); [by apply in_map|].
      unfold lit. rewrite run_literal. by left.
    - cbn [run fst snd]. unfold at_boundary. rewrite Hlast, Hb. by left. }
  intros E. rewrite E in Hin. destruct Hin.
Qed.

Lemma stacked_word_ends_in_word (kw : string) (prev : option ascii) :
  In kw stacked_words ->
  word_before (prev_after prev (txt kw)) = true /\ word_after (txt kw) = true.
Proof.
  intros H. repeat (destruct H as [<-|H]; [by split|]). destruct H.
Qed.

Lemma word_after_app (w b : str) : w <> [] -> word_after (w ++ b) = word_after w.
Proof. by destruct w. Qed.

Lemma found (r : regex) (prev : option ascii) (s : str) :
  (exists q, In q (run r prev s)) -> run r prev s <> [].
Proof. intros [q Hq] E. rewrite E in Hq. destruct Hq. Qed.

(** A semicolon followed on the same line by one of the call words, as a
    whole word, is rejected. *)
Theorem stacked_statement_rejected (query a m b : str) (kw : string) :
  In kw stacked_words ->
  lower query = a ++ txt ";" ++ m ++ txt kw ++ b ->
  forallb dot m = true ->
  word_before (prev_after (Some ";"%char) m) = false -> word_after b = false ->
  is_query_safe query = false.
Proof.
  intros Hkw Hq Hm Hbefore Hafter.
  apply (is_query_safe_false stacked_statement); [cbn; tauto|].
  unfold search. rewrite Hq. apply search_from_app, found.
  destruct (stacked_word_ends_in_word kw (prev_after (Some ";"%char) m) Hkw) as [Hlast Hfirst].
  eexists. unfold stacked_statement.
  change (cats [lit ";"; Star dot; WordB; alts (List.map lit stacked_words); WordB])
    with (Cat (lit ";") (Cat (Star dot) (Cat WordB
            (Cat (alts (List.map lit stacked_words)) WordB)))).
  apply In_run_cat_lit; [discriminate|].
  apply In_run_cat_star; [exact Hm|].
  apply In_run_cat_wordb.
  { unfold at_boundary. rewrite word_after_app by (by destruct (txt kw)).
    cbn [prev_after last_char txt list_ascii_of_string fold_left] in *.
    by rewrite Hbefore, Hfirst. }
  apply In_run_cat_words; [exact Hkw|].
  apply In_run_wordb. unfold at_boundary.
  cbn [prev_after last_char txt list_ascii_of_string fold_left] in *.
  by rewrite Hlast, Hafter.
Qed.

(** UNION and a later SELECT on the same line, both as whole words, are
    rejected. *)
Theorem union_select_rejected (query a m b : str) :
  lower query = a ++ txt "union" ++ m ++ txt "select" ++ b ->
  word_before (prev_after None a) = false -> is_gap m = true -> word_after b = false ->
  is_query_safe query = false.
Proof.
  intros Hq Hbefore Hgap Hafter.
  apply (is_query_safe_false union_select); [cbn; tauto|].
  unfold search. rewrite Hq. apply search_from_app, found.
  destruct (is_gap_facts m (Some "n"%char) Hgap) as (Hm & Hm1 & Hm2).
  eexists. unfold union_select.
  change (cats [WordB; lit "union"; WordB; Star dot; WordB; lit "select"; WordB])
    with (Cat WordB (Cat (lit "union") (Cat WordB (Cat (Star dot) (Cat WordB
            (Cat (lit "select") WordB)))))).
  apply In_run_cat_wordb; [unfold at_boundary; by rewrite Hbefore|].
  apply In_run_cat_lit; [discriminate|].
  apply In_run_cat_wordb.
  { unfold at_boundary. rewrite word_after_app by (destruct m; [discriminate|done]).
    by rewrite Hm1. }
  apply In_run_cat_star; [exact Hm|].
  apply In_run_cat_wordb.
  { unfold at_boundary. cbn [prev_after last_char txt list_ascii_of_string fold_left] in *.
    by rewrite Hm2. }
  apply In_run_cat_lit; [discriminate|].
  apply In_run_wordb. unfold at_boundary. by rewrite Hafter.
Qed.

(** A WHERE clause with [1 = 1] after SELECT and FROM, all on one line, is
    rejected. *)
Theorem tautology_rejected (query a m1 m2 m3 s1 s2 b : str) :
  lower query = a ++ txt "select" ++ m1 ++ txt "from" ++ m2 ++ txt "where" ++ m3
                  ++ txt "1" ++ s1 ++ txt "=" ++ s2 ++ txt "1" ++ b ->
  word_before (prev_after None a) = false ->
  is_gap m1 = true -> is_gap m2 = true -> is_gap m3 = true ->
  forallb is_space s1 = true -> forallb is_space s2 = true ->
  word_after b = false ->
  is_query_safe query = false.
Proof.
  intros Hq Hbefore Hg1 Hg2 Hg3 Hs1 Hs2 Hafter.
  apply (is_query_safe_false tautology); [cbn; tauto|].
  unfold search. rewrite Hq. apply search_from_app, found.
  destruct (is_gap_facts m1 (Some "t"%char) Hg1) as (Hd1 & Ha1 & Hb1).
  destruct (is_gap_facts m2 (Some "m"%char) Hg2) as (Hd2 & Ha2 & Hb2).
  destruct (is_gap_facts m3 (Some "e"%char) Hg3) as (Hd3 & Ha3 & Hb3).
  assert (Hne : forall m, is_gap m = true -> m <> []) by (by intros []).
  eexists. unfold tautology.
  change (cats [WordB; lit "select"; WordB; Star dot; WordB; lit "from"; WordB; Star dot;
                WordB; lit "where"; WordB; Star dot;
                WordB; lit "1"; Star is_space; lit "="; Star is_space; lit "1"; WordB])
    with (Cat WordB (Cat (lit "select") (Cat WordB (Cat (Star dot)
         (Cat WordB (Cat (lit "from") (Cat WordB (Cat (Star dot)
         (Cat WordB (Cat (lit "where") (Cat WordB (Cat (Star dot)
         (Cat WordB (Cat (lit "1") (Cat (Star is_space) (Cat (lit "=")
         (Cat (Star is_space) (Cat (lit "1") WordB)))))))))))))))))).
  apply In_run_cat_wordb; [unfold at_boundary; by rewrite Hbefore|].
  apply In_run_cat_lit; [discriminate|].
  apply In_run_cat_wordb; [unfold at_boundary; rewrite word_after_app by auto; by rewrite Ha1|].
  apply In_run_cat_star; [exact Hd1|].
  apply In_run_cat_wordb.
  { unfold at_boundary. cbn [prev_after last_char txt list_ascii_of_string fold_left] in *.
    by rewrite Hb1. }
  apply In_run_cat_lit; [discriminate|].
  apply In_run_cat_wordb; [unfold at_boundary; rewrite word_after_app by auto; by rewrite Ha2|].
  apply In_run_cat_star; [exact Hd2|].
  apply In_run_cat_wordb.
  { unfold at_boundary. cbn [prev_after last_char txt list_ascii_of_string fold_left] in *.
    by rewrite Hb2. }
  apply In_run_cat_lit; [discriminate|].
  apply In_run_cat_wordb; [unfold at_boundary; rewrite word_after_app by auto; by rewrite Ha3|].
  apply In_run_cat_star; [exact Hd3|].
  apply In_run_cat_wordb.
  { unfold at_boundary. cbn [prev_after last_char txt list_ascii_of_string fold_left] in *.
    by rewrite Hb3. }
  apply In_run_cat_lit; [discriminate|].
  apply In_run_cat_star; [exact Hs1|].
  apply In_run_cat_lit; [discriminate|].
  apply In_run_cat_star; [exact Hs2|].
  apply In_run_cat_lit; [discriminate|].
  apply In_run_wordb. unfold at_boundary. by rewrite Hafter.
Qed.

Lemma star_greedy_dot_all (s : str) : forall prev : option ascii,
  ~ In nl s -> exists tl, star_greedy dot prev s = (prev_after prev s, []) :: tl.
Proof.
  induction s as [|c s IH]; intros prev H; [by exists []|].
  cbn [star_greedy]. assert (Hc : dot c = true).
  { unfold dot. apply negb_true_iff. destruct (eqc c nl) eqn:E; [|reflexivity].
    apply eqc_eq in E. subst. exfalso. apply H. by left. }
  rewrite Hc. destruct (IH (Some c)) as [tl ->]; [intros Hin; apply H; by right|].
  by eexists.
Qed.

(** A line comment on the last line of the statement is rejected. *)
Theorem last_line_comment_rejected (query a b : str) :
  lower query = a ++ txt "--" ++ b -> ~ In nl b -> is_query_safe query = false.
Proof.
  intros Hq Hb. apply (is_query_safe_false line_comment); [cbn; tauto|].
  unfold search. rewrite Hq. apply search_from_app.
  unfold line_comment, lit. cbn [txt list_ascii_of_string List.map cats app].
  rewrite run_cat_assoc, !run_cat_chr. cbn [run].
  destruct (star_greedy_dot_all b (Some "-"%char) Hb) as [tl ->].
  cbn. discriminate.
Qed.

(** C1: a statement with a line comment that is not on its last line
    passes the gate, although the multi-line pattern of [_clean_sql] finds
    the comment; so do a stacked call of a stored procedure and a UNION
    whose SELECT is on the next line. *)
Theorem is_query_safe_misses_inner_line_comment :
  contains (txt "--") commented_query = true
  /\ search OllamaLLM.line_comment_ml (lower commented_query) = true
  /\ search line_comment (lower commented_query) = false
  /\ is_query_safe commented_query = true
  /\ is_query_safe (txt "select 1; sp_who") = true
  /\ is_query_safe (txt "select a from t union" ++ nl :: txt "select b from u") = true.
Proof. vm_compute. repeat split. Qed.

End SafetyGateFacts.

Module OllamaLLMFacts.
Import OllamaLLM TextFacts ReFacts SpacingFacts.

(** What [_clean_sql] returns: a single-spaced text without slashes, with
    the row cap injected or not, cut at the first semicolon and stripped. *)
Lemma clean_sql_shape (sql : str) :
  exists s7 : str,
    single_spaced s7 = true
    /\ (forall c, In c s7 -> is_slash c = false)
    /\ clean_sql sql =
       strip (strip (strip (split_head ";"
         (if contains (txt "select") (lower s7) && negb (contains (txt "top ") (lower s7))
          then sub select_ws select_top s7 else s7)))).
Proof.
  unfold clean_sql.
  set (s5 := sub line_comment_ml [] _).
  set (s7 := strip (sub (plus is_space) (txt " ") (sub slash [] s5))).
  match goal with
  | |- context [if ?b then ?x else s7] => set (s8 := if b then x else s7)
  end.
  assert (H7 : single_spaced s7 = true).
  { apply strip_single_spaced. apply (collapse_single_spaced _ _ None (Nat.le_refl _)). }
  assert (H8 : single_spaced s8 = true).
  { unfold s8. destruct (_ && _); [|exact H7].
    by apply (inject_top_single_spaced _ s7 None (Nat.le_refl _)). }
  exists s7. split; [exact H7|]. split.
  - intros c Hc. apply strip_In, sub_In in Hc. destruct Hc as [Hc|[<-|[]]]; [|reflexivity].
    unfold sub, slash in Hc. rewrite sub_from_class in Hc. apply filter_In in Hc.
    by apply negb_true_iff, Hc.
  - fold s8. rewrite split_on_no_sep.
    + by rewrite keep_one_line.
    + apply single_spaced_no_newline, strip_single_spaced. by apply split_head_single_spaced.
Qed.

(** The parts of C8 that hold: the cleaned text has no slash or backslash,
    hence no block comment; no semicolon; and its white space is collapsed
    to single spaces. *)
Theorem clean_sql_no_slash (sql : str) (c : ascii) :
  In c (clean_sql sql) -> is_slash c = false.
Proof.
  destruct (clean_sql_shape sql) as (s7 & _ & Hs & ->).
  intros Hc. do 3 apply strip_In in Hc. apply split_head_In in Hc.
  destruct (_ && _); [|by apply Hs].
  apply sub_In in Hc. destruct Hc as [Hc|Hc]; [by apply Hs|].
  revert Hc. vm_compute. intuition (subst; reflexivity).
Qed.

Theorem clean_sql_no_semicolon (sql : str) : ~ In ";"%char (clean_sql sql).
Proof.
  destruct (clean_sql_shape sql) as (s7 & _ & _ & ->).
  intros Hc. do 3 apply strip_In in Hc. by apply split_head_no_sep in Hc.
Qed.

Theorem clean_sql_collapsed (sql : str) : collapsed (clean_sql sql) = true.
Proof.
  destruct (clean_sql_shape sql) as (s7 & H7 & _ & ->).
  apply strip_collapsed. do 2 apply strip_single_spaced. apply split_head_single_spaced.
  destruct (_ && _); [|exact H7].
  by apply (inject_top_single_spaced _ s7 None (Nat.le_refl _)).
Qed.

(** The part of C2 that holds: an accepted statement starts with
    [select], in any capitals. *)
Lemma accept_starts_with_select (response sql : str) :
  accept response = Some sql -> startswith (txt "select") (lower sql) = true.
Proof.
  unfold accept. intros H.
  assert (Hs : strip (lower (clean_sql response)) = lower (clean_sql response)).
  { rewrite <- lower_strip. f_equal. apply strip_id.
    pose proof (clean_sql_collapsed response) as Hc. unfold collapsed in Hc.
    apply andb_true_iff in Hc. apply Hc. }
  rewrite Hs in H.
  destruct (startswith _ (lower (clean_sql response))) eqn:E; [|discriminate].
  cbn [negb] in H.
  repeat match type of H with
         | (if ?b then None else _) = _ => destruct b; [discriminate|]
         end.
  destruct (negb _); injection H as <-; [by apply inject_top_keeps_select|exact E].
Qed.

Theorem generate_sql_starts_with_select (llm : nat -> option str) (sql : str) :
  generate_sql llm = Some sql -> startswith (txt "select") (lower sql) = true.
Proof.
  unfold generate_sql. generalize 0%nat. induction MAX_SQL_ATTEMPTS as [|fuel IH]; [discriminate|].
  intros attempt. cbn [generate_from].
  destruct (llm attempt) as [response|].
  - destruct (accept response) as [sql'|] eqn:E.
    + intros [= <-]. by apply (accept_starts_with_select response).
    + destruct (attempt =? _)%nat; [discriminate|apply IH].
  - destruct (attempt =? _)%nat; [discriminate|apply IH].
Qed.

(** C2: the model answers [select*from t]; every check passes, the
    injection finds no white space after the keyword, and the statement is
    returned without a row cap. *)
Theorem generate_sql_returns_uncapped_select :
  generate_sql (fun _ => Some (txt "select*from t")) = Some (txt "select*from t")
  /\ contains (txt "top 50") (lower (txt "select*from t")) = false
  /\ is_query_safe (txt "select*from t") = true.
Proof. vm_compute. auto. Qed.

(** C8: removing the slash of [-/-] after the comments were removed
    leaves a line comment in the cleaned text. *)
Theorem clean_sql_leaves_line_comment :
  clean_sql (txt "select 1 -/- x") = txt "select top 50 1 -- x"
  /\ contains (txt "--") (clean_sql (txt "select 1 -/- x")) = true.
Proof. vm_compute. auto. Qed.

(** The part of C5 on digits that holds: no run of ten or more digits
    between word boundaries is left in a sanitised value. *)
Theorem sanitize_data_no_long_number (value : str) :
  search long_number (sanitize_data value) = false.
Proof.
  unfold sanitize_data. set (v1 := sub email (txt "[EMAIL]") value).
  destruct (existsb _ sensitive_words) eqn:E; [reflexivity|].
  assert (Hphone : contains (txt "phone") (lower (sub long_number (txt "[PHONE]") v1)) = false).
  { destruct (contains (txt "phone") _) eqn:Ec; [|reflexivity].
    rewrite <- E. symmetry. apply existsb_exists. exists (txt "phone").
    split; [cbn; tauto|exact Ec]. }
  destruct (search long_number v1) eqn:Es.
  - exfalso. apply (sub_from_match long_number (txt "[PHONE]")) in Es.
    apply contains_lower in Es. apply contains_tail in Es.
    apply (contains_prefix (txt "phone") (txt "]")) in Es.
    unfold sub in Hphone. congruence.
  - unfold sub. by rewrite sub_from_no_match.
Qed.

(** C5: the value of a field named Phone is rendered as it is; the name
    of the field never reaches [_sanitize_data]. *)
Theorem sensitive_field_name_not_redacted :
  sanitize_data (txt "030-0074321") = txt "030-0074321"
  /\ format_all_records [[(txt "Phone", Some (txt "030-0074321"))]]
     = txt "📌 Record 1:" ++ nl :: txt "• Phone: 030-0074321"
  /\ format_all_records [[(txt "Address", Some (txt "Obere Str. 57"))]]
     = txt "📌 Record 1:" ++ nl :: txt "• Address: Obere Str. 57"
  /\ sanitize_data (txt "see phone book") = txt "[REDACTED]"
  /\ sanitize_data (txt "call 12345678901 now") = txt "[REDACTED]"
  /\ sanitize_data (txt "mail bob@example.com now") = txt "mail [EMAIL] now"
  /\ sanitize_data (txt "id1234567890") = txt "id1234567890".
Proof. vm_compute. repeat split. Qed.

End OllamaLLMFacts.


(** * The injected row cap and the gate *)

Module RowCapFacts.
Import OllamaLLM TextFacts ReFacts SpacingFacts SafetyGateFacts OllamaLLMFacts.

Lemma row_cap_eq : row_cap = txt "top 50 ".
Proof. reflexivity. Qed.

Lemma with_caps_In (prev : option ascii) (s s' : str) (c : ascii) :
  with_caps prev s s' -> In c s' -> In c s \/ In c row_cap.
Proof.
  induction 1 as [prev|prev d s s' _ IH|s s' _ IH]; [intros []| |].
  - intros [->|H]; [left; by left|]. destruct (IH H); [left; by right|by right].
  - intros H. apply in_app_iff in H. destruct H; [by right|by apply IH].
Qed.

Lemma with_caps_In_back (prev : option ascii) (s s' : str) (c : ascii) :
  with_caps prev s s' -> In c s -> In c s'.
Proof.
  induction 1 as [prev|prev d s s' _ IH|s s' _ IH]; [intros []| |].
  - intros [->|H]; [by left|right; by apply IH].
  - intros H. apply in_app_iff. right. by apply IH.
Qed.

Lemma with_caps_prev (prev : option ascii) (s s' : str) :
  with_caps prev s s' -> prev_after prev s' = prev_after prev s.
Proof.
  induction 1 as [prev|prev d s s' _ IH|s s' _ IH]; [reflexivity| |].
  - by rewrite !prev_after_cons.
  - rewrite prev_after_app, <- IH. reflexivity.
Qed.

(** After a character that is not a space, a word of the capped text is a
    word of the text. *)
Lemma with_caps_word (w : str) : forall (c : ascii) (s y' : str),
  eqc c " " = false -> forallb (fun d => negb (eqc d " ")) w = true ->
  with_caps (Some c) s (w ++ y') ->
  exists y, s = w ++ y /\ with_caps (prev_after (Some c) w) y y'.
Proof.
  induction w as [|d w IH]; intros c s y' Hc Hw H; [by exists s|].
  cbn [forallb] in Hw. apply andb_true_iff in Hw. destruct Hw as [Hd Hw].
  apply negb_true_iff in Hd. cbn [app] in H. inversion H; subst.
  - destruct (IH d s0 y' Hd Hw) as (y & -> & Hy); [done|]. by exists y.
  - by rewrite Ascii.eqb_refl in Hc.
Qed.

Lemma cap_free_cons (c : ascii) (w : str) :
  cap_free (c :: w) = true ->
  eqc c " " = false /\ forallb (fun d => negb (eqc d " ")) w = true.
Proof.
  unfold cap_free. intros H.
  apply andb_true_iff in H. destruct H as [H _].
  apply andb_true_iff in H. destruct H as [H _].
  apply andb_true_iff in H. destruct H as [_ H].
  cbn [forallb] in H. apply andb_true_iff in H. destruct H as [Hc Hw].
  split; [by apply negb_true_iff|exact Hw].
Qed.

(** A word that is free of the cap lies in the text itself: the capped text
    around it is the capped text before it and the capped text after it. *)
Lemma with_caps_split (w : str) (prev : option ascii) (s L' : str) :
  with_caps prev s L' -> cap_free w = true ->
  forall x' y' : str, L' = x' ++ w ++ y' ->
  exists x y, s = x ++ w ++ y /\ with_caps prev x x' /\ with_caps (prev_after None w) y y'.
Proof.
  intros H Hfree. induction H as [prev|prev c s s' H IH|s s' H IH]; intros x' y' Heq.
  - destruct x', w; discriminate.
  - destruct x' as [|a x'].
    + destruct w as [|d w]; [discriminate|]. cbn [app] in Heq. injection Heq as <- ->.
      destruct (cap_free_cons _ _ Hfree) as [Hc Hw].
      destruct (with_caps_word w c s y' Hc Hw H) as (y & -> & Hy).
      exists [], y. split; [done|]. split; [constructor|exact Hy].
    + cbn [app] in Heq. injection Heq as <- ->.
      destruct (IH x' y' eq_refl) as (x & y & -> & Hx & Hy).
      exists (c :: x), y. split; [done|]. split; [by constructor|exact Hy].
  - rewrite row_cap_eq in Heq. cbn [txt list_ascii_of_string app] in Heq.
    destruct x' as [|a0 [|a1 [|a2 [|a3 [|a4 [|a5 [|a6 x']]]]]]]; cbn [app] in Heq;
      try (destruct w as [|c1 [|c2 [|c3 [|c4 w]]]]; cbn [app] in Heq; try discriminate;
           injection Heq; intros; subst; vm_compute in Hfree; discriminate).
    injection Heq; intros; subst.
    destruct (IH x' y' eq_refl) as (x & y & -> & Hx & Hy).
    exists x, y. split; [done|]. split; [|exact Hy].
    apply (caps_insert x x') in Hx. by rewrite row_cap_eq in Hx.
Qed.

Lemma with_caps_spaces (prev : option ascii) (s s' : str) :
  with_caps prev s s' -> forallb is_space s' = true -> s = s'.
Proof.
  intros H. induction H as [prev|prev d s s' _ IH|s s' _ IH]; intros Hs.
  - reflexivity.
  - cbn [forallb] in Hs. apply andb_true_iff in Hs. f_equal. apply IH, Hs.
  - rewrite row_cap_eq in Hs. cbn in Hs. discriminate.
Qed.

Lemma with_caps_word_after (prev : option ascii) (s s' : str) :
  with_caps prev s s' -> word_after s' = false -> word_after s = false.
Proof.
  intros H Hw. destruct H as [prev|prev d s s' _|s s' _]; [exact Hw|exact Hw|].
  rewrite row_cap_eq in Hw. cbn in Hw. discriminate.
Qed.

Lemma last_char_nonempty (p1 p2 : option ascii) (m : str) :
  m <> [] -> last_char p1 m = last_char p2 m.
Proof. destruct m; [done|reflexivity]. Qed.

Lemma with_caps_gap (c : ascii) (s s' : str) :
  eqc c " " = false -> with_caps (Some c) s s' -> is_gap s' = true -> is_gap s = true.
Proof.
  intros Hc H Hgap. unfold is_gap in *.
  apply andb_true_iff in Hgap. destruct Hgap as [Hgap H3].
  apply andb_true_iff in Hgap. destruct Hgap as [H1 H2].
  inversion H; subst.
  - discriminate.
  - rewrite H2. rewrite andb_true_r. apply andb_true_iff. split.
    + apply forallb_forall. intros d Hd. rewrite forallb_forall in H1. apply H1.
      by apply (with_caps_In_back _ _ _ _ H).
    + pose proof (with_caps_prev _ _ _ H) as Hp. unfold prev_after in Hp.
      rewrite (last_char_nonempty None (Some c)) by done.
      rewrite <- Hp. by rewrite <- (last_char_nonempty None (Some c)).
  - by rewrite Ascii.eqb_refl in Hc.
Qed.

Lemma boundary_before_word (prev : option ascii) (s : str) :
  at_boundary prev s = true -> word_after s = true -> word_before prev = false.
Proof. unfold at_boundary. intros H Hs. rewrite Hs in H. by destruct (word_before prev). Qed.

Lemma boundary_after_word (prev : option ascii) (s : str) :
  at_boundary prev s = true -> word_before prev = true -> word_after s = false.
Proof. unfold at_boundary. intros H Hp. rewrite Hp in H. by destruct (word_after s). Qed.

Lemma gap_intro (c : ascii) (m X : str) :
  forallb dot m = true ->
  word_after (m ++ X) = false -> word_after X = true ->
  word_before (prev_after (Some c) m) = false ->
  is_gap m = true.
Proof.
  intros Hdot Hfirst HX Hlast. destruct m as [|d m]; [cbn [app] in Hfirst; congruence|].
  unfold is_gap. apply andb_true_iff. split; [apply andb_true_iff; split|].
  - exact Hdot.
  - cbn in Hfirst. by rewrite Hfirst.
  - unfold prev_after in Hlast. rewrite (last_char_nonempty None (Some c)) by done.
    unfold word_before in Hlast. destruct (last_char (Some c) (d :: m)) eqn:E.
    + by rewrite Hlast.
    + cbn [last_char fold_left] in E. clear -E. exfalso. revert d E.
      induction m as [|e m IH]; intros d E; [discriminate|]. by apply (IH e).
Qed.

(** A mutating keyword found in the capped text is in the text. *)
Lemma mutating_keyword_transfer (L L' : str) :
  with_caps None L L' -> search mutating_keyword L' = true ->
  exists a b kw, In kw mutating_words /\ L = a ++ txt kw ++ b
    /\ word_before (prev_after None a) = false /\ word_after b = false.
Proof.
  intros Hcaps Hs. apply search_from_inv in Hs. destruct Hs as (a' & b1 & q & -> & Hq).
  unfold mutating_keyword in Hq.
  change (cats [WordB; alts (List.map lit mutating_words); WordB])
    with (Cat WordB (Cat (alts (List.map lit mutating_words)) WordB)) in Hq.
  apply run_cat_wordb_inv in Hq. destruct Hq as [Hb1 Hq].
  apply run_cat_words_inv in Hq;
    [|discriminate|repeat (apply List.Forall_cons; [discriminate|]); apply List.Forall_nil].
  destruct Hq as (kw & s1 & Hkw & -> & Hq). apply run_wordb_inv in Hq.
  destruct (mutating_word_ends_in_word kw (prev_after None a') Hkw) as [Hlast Hfirst].
  assert (Hfree : cap_free (txt kw) = true).
  { clear -Hkw. repeat (destruct Hkw as [<-|Hkw]; [reflexivity|]). destruct Hkw. }
  destruct (with_caps_split (txt kw) None L _ Hcaps Hfree a' s1 eq_refl)
    as (a & b & -> & Ha & Hb).
  exists a, b, kw. split; [exact Hkw|]. split; [reflexivity|]. split.
  - rewrite <- (with_caps_prev _ _ _ Ha). apply (boundary_before_word _ _ Hb1).
    rewrite word_after_app by (by destruct (txt kw)). exact Hfirst.
  - apply (with_caps_word_after _ _ _ Hb). by apply (boundary_after_word _ _ Hq).
Qed.

(** UNION ... SELECT found in the capped text is in the text. *)
Lemma union_select_transfer (L L' : str) :
  with_caps None L L' -> search union_select L' = true ->
  exists a m b, L = a ++ txt "union" ++ m ++ txt "select" ++ b
    /\ word_before (prev_after None a) = false /\ is_gap m = true /\ word_after b = false.
Proof.
  intros Hcaps Hs. apply search_from_inv in Hs. destruct Hs as (a' & b1 & q & -> & Hq).
  unfold union_select in Hq.
  change (cats [WordB; lit "union"; WordB; Star dot; WordB; lit "select"; WordB])
    with (Cat WordB (Cat (lit "union") (Cat WordB (Cat (Star dot) (Cat WordB
            (Cat (lit "select") WordB)))))) in Hq.
  apply run_cat_wordb_inv in Hq. destruct Hq as [Hb1 Hq].
  apply run_cat_lit_inv in Hq; [|discriminate]. destruct Hq as (s1 & -> & Hq).
  apply run_cat_wordb_inv in Hq. destruct Hq as [Hb2 Hq].
  apply run_cat_star_inv in Hq. destruct Hq as (m' & s2 & -> & Hdot & Hq).
  apply run_cat_wordb_inv in Hq. destruct Hq as [Hb3 Hq].
  apply run_cat_lit_inv in Hq; [|discriminate]. destruct Hq as (b' & -> & Hq).
  apply run_wordb_inv in Hq.
  assert (Hgap' : is_gap m' = true).
  { apply (gap_intro "n" m' (txt "select" ++ b')); [exact Hdot| |reflexivity|].
    - by apply (boundary_after_word _ _ Hb2).
    - by apply (boundary_before_word _ _ Hb3). }
  destruct (with_caps_split (txt "union") None L _ Hcaps eq_refl a' _ eq_refl)
    as (a & y1 & -> & Ha & Hy1).
  destruct (with_caps_split (txt "select") _ y1 _ Hy1 eq_refl m' b' eq_refl)
    as (m & b & -> & Hm & Hb).
  exists a, m, b. split; [reflexivity|]. split; [|split].
  - rewrite <- (with_caps_prev _ _ _ Ha). by apply (boundary_before_word _ _ Hb1).
  - by apply (with_caps_gap "n" m m').
  - apply (with_caps_word_after _ _ _ Hb). by apply (boundary_after_word _ _ Hq).
Qed.

(** The tautology found in the capped text is in the text. *)
Lemma tautology_transfer (L L' : str) :
  with_caps None L L' -> search tautology L' = true ->
  exists a m1 m2 m3 s1 s2 b,
    L = a ++ txt "select" ++ m1 ++ txt "from" ++ m2 ++ txt "where" ++ m3
          ++ txt "1" ++ s1 ++ txt "=" ++ s2 ++ txt "1" ++ b
    /\ word_before (prev_after None a) = false
    /\ is_gap m1 = true /\ is_gap m2 = true /\ is_gap m3 = true
    /\ forallb is_space s1 = true /\ forallb is_space s2 = true
    /\ word_after b = false.
Proof.
  intros Hcaps Hs. apply search_from_inv in Hs. destruct Hs as (a' & b1 & q & -> & Hq).
  unfold tautology in Hq.
  change (cats [WordB; lit "select"; WordB; Star dot; WordB; lit "from"; WordB; Star dot;
                WordB; lit "where"; WordB; Star dot;
                WordB; lit "1"; Star is_space; lit "="; Star is_space; lit "1"; WordB])
    with (Cat WordB (Cat (lit "select") (Cat WordB (Cat (Star dot)
         (Cat WordB (Cat (lit "from") (Cat WordB (Cat (Star dot)
         (Cat WordB (Cat (lit "where") (Cat WordB (Cat (Star dot)
         (Cat WordB (Cat (lit "1") (Cat (Star is_space) (Cat (lit "=")
         (Cat (Star is_space) (Cat (lit "1") WordB)))))))))))))))))) in Hq.
  apply run_cat_wordb_inv in Hq. destruct Hq as [Hb0 Hq].
  apply run_cat_lit_inv in Hq; [|discriminate]. destruct Hq as (r1 & -> & Hq).
  apply run_cat_wordb_inv in Hq. destruct Hq as [Hb1 Hq].
  apply run_cat_star_inv in Hq. destruct Hq as (m1' & r2 & -> & Hd1 & Hq).
  apply run_cat_wordb_inv in Hq. destruct Hq as [Hb2 Hq].
  apply run_cat_lit_inv in Hq; [|discriminate]. destruct Hq as (r3 & -> & Hq).
  apply run_cat_wordb_inv in Hq. destruct Hq as [Hb3 Hq].
  apply run_cat_star_inv in Hq. destruct Hq as (m2' & r4 & -> & Hd2 & Hq).
  apply run_cat_wordb_inv in Hq. destruct Hq as [Hb4 Hq].
  apply run_cat_lit_inv in Hq; [|discriminate]. destruct Hq as (r5 & -> & Hq).
  apply run_cat_wordb_inv in Hq. destruct Hq as [Hb5 Hq].
  apply run_cat_star_inv in Hq. destruct Hq as (m3' & r6 & -> & Hd3 & Hq).
  apply run_cat_wordb_inv in Hq. destruct Hq as [Hb6 Hq].
  apply run_cat_lit_inv in Hq; [|discriminate]. destruct Hq as (r7 & -> & Hq).
  apply run_cat_star_inv in Hq. destruct Hq as (s1' & r8 & -> & Hs1 & Hq).
  apply run_cat_lit_inv in Hq; [|discriminate]. destruct Hq as (r9 & -> & Hq).
  apply run_cat_star_inv in Hq. destruct Hq as (s2' & r10 & -> & Hs2 & Hq).
  apply run_cat_lit_inv in Hq; [|discriminate]. destruct Hq as (b' & -> & Hq).
  apply run_wordb_inv in Hq.
  assert (Hg1 : is_gap m1' = true).
  { apply (gap_intro "t" m1' (txt "from" ++ m2' ++ txt "where" ++ m3' ++ txt "1" ++ s1'
                                ++ txt "=" ++ s2' ++ txt "1" ++ b'));
      [exact Hd1| |reflexivity|].
    - by apply (boundary_after_word _ _ Hb1).
    - by apply (boundary_before_word _ _ Hb2). }
  assert (Hg2 : is_gap m2' = true).
  { apply (gap_intro "m" m2' (txt "where" ++ m3' ++ txt "1" ++ s1'
                                ++ txt "=" ++ s2' ++ txt "1" ++ b'));
      [exact Hd2| |reflexivity|].
    - by apply (boundary_after_word _ _ Hb3).
    - by apply (boundary_before_word _ _ Hb4). }
  assert (Hg3 : is_gap m3' = true).
  { apply (gap_intro "e" m3' (txt "1" ++ s1' ++ txt "=" ++ s2' ++ txt "1" ++ b'));
      [exact Hd3| |reflexivity|].
    - by apply (boundary_after_word _ _ Hb5).
    - by apply (boundary_before_word _ _ Hb6). }
  destruct (with_caps_split (txt "select") None L _ Hcaps eq_refl a' _ eq_refl)
    as (a & y1 & -> & Ha & Hy1).
  destruct (with_caps_split (txt "from") _ y1 _ Hy1 eq_refl m1' _ eq_refl)
    as (m1 & y2 & -> & Hm1 & Hy2).
  destruct (with_caps_split (txt "where") _ y2 _ Hy2 eq_refl m2' _ eq_refl)
    as (m2 & y3 & -> & Hm2 & Hy3).
  destruct (with_caps_split (txt "1") _ y3 _ Hy3 eq_refl m3' _ eq_refl)
    as (m3 & y4 & -> & Hm3 & Hy4).
  destruct (with_caps_split (txt "=") _ y4 _ Hy4 eq_refl s1' _ eq_refl)
    as (s1 & y5 & -> & Ht1 & Hy5).
  destruct (with_caps_split (txt "1") _ y5 _ Hy5 eq_refl s2' _ eq_refl)
    as (s2 & b & -> & Ht2 & Hb).
  rewrite (with_caps_spaces _ _ _ Ht1 Hs1), (with_caps_spaces _ _ _ Ht2 Hs2).
  exists a, m1, m2, m3, s1', s2', b. split; [reflexivity|].
  split; [|split; [|split; [|split; [|split; [|split]]]]].
  - rewrite <- (with_caps_prev _ _ _ Ha). by apply (boundary_before_word _ _ Hb0).
  - by apply (with_caps_gap "t" m1 m1').
  - by apply (with_caps_gap "m" m2 m2').
  - by apply (with_caps_gap "e" m3 m3').
  - exact Hs1.
  - exact Hs2.
  - apply (with_caps_word_after _ _ _ Hb). by apply (boundary_after_word _ _ Hq).
Qed.

Lemma lower_char_is (a c : ascii) :
  In a [";"; "/"; nl]%char -> lower_char c = a -> c = a.
Proof.
  intros Ha. repeat (destruct Ha as [<-|Ha]; [each_char c|]). destruct Ha.
Qed.

Lemma lower_In (a : ascii) (s : str) :
  In a [";"; "/"; nl]%char -> In a (lower s) -> In a s.
Proof.
  intros Ha H. apply in_map_iff in H. destruct H as (c & Hc & Hin).
  by rewrite <- (lower_char_is a c Ha Hc).
Qed.

(** The text contains the pair of dashes a match of the line-comment
    pattern starts with, and the semicolon or the slash the stacked and
    the block-comment pattern start with. *)
Lemma line_comment_starts (L' : str) :
  search line_comment L' = true -> exists a' b', L' = a' ++ txt "--" ++ b'.
Proof.
  intros Hs. apply search_from_inv in Hs. destruct Hs as (a' & b1 & q & -> & Hq).
  unfold line_comment in Hq.
  change (cats [lit "--"; Star dot; Eol false])
    with (Cat (lit "--") (Cat (Star dot) (Eol false))) in Hq.
  apply run_cat_lit_inv in Hq; [|discriminate]. destruct Hq as (b' & -> & _). by exists a', b'.
Qed.

Lemma stacked_statement_starts (L' : str) :
  search stacked_statement L' = true -> In ";"%char L'.
Proof.
  intros Hs. apply search_from_inv in Hs. destruct Hs as (a' & b1 & q & -> & Hq).
  unfold stacked_statement in Hq.
  change (cats [lit ";"; Star dot; WordB; alts (List.map lit stacked_words); WordB])
    with (Cat (lit ";") (Cat (Star dot) (Cat WordB
            (Cat (alts (List.map lit stacked_words)) WordB)))) in Hq.
  apply run_cat_lit_inv in Hq; [|discriminate]. destruct Hq as (b' & -> & _).
  apply in_app_iff. right. by left.
Qed.

Lemma block_comment_starts (L' : str) :
  search block_comment L' = true -> In "/"%char L'.
Proof.
  intros Hs. apply search_from_inv in Hs. destruct Hs as (a' & b1 & q & -> & Hq).
  unfold block_comment in Hq.
  change (cats [lit "/*"; Star dot; lit "*/"])
    with (Cat (lit "/*") (Cat (Star dot) (lit "*/"))) in Hq.
  apply run_cat_lit_inv in Hq; [|discriminate]. destruct Hq as (b' & -> & _).
  apply in_app_iff. right. by left.
Qed.

Lemma one_ci_lower (a c : ascii) : one_ci a c = true -> lower_char c = lower_char a.
Proof. unfold one_ci. apply eqc_eq. Qed.

(** What a match of [select\s+] reads. *)
Lemma match_here_select_ws_shape (prev : option ascii) (s rest : str) :
  match_here select_ws prev s = Some rest ->
  exists k c6 s6, s = k ++ c6 :: s6 /\ lower k = txt "select"
    /\ is_space c6 = true /\ rest = lstrip s6.
Proof.
  unfold match_here, select_ws, lit_ci.
  cbn [txt list_ascii_of_string List.map cats].
  rewrite ?run_cat_assoc, run_cat_chr.
  destruct s as [|c0 s]; [discriminate|]. destruct (one_ci "s" c0) eqn:E0; [|discriminate].
  rewrite ?run_cat_assoc, run_cat_chr.
  destruct s as [|c1 s]; [discriminate|]. destruct (one_ci "e" c1) eqn:E1; [|discriminate].
  rewrite ?run_cat_assoc, run_cat_chr.
  destruct s as [|c2 s]; [discriminate|]. destruct (one_ci "l" c2) eqn:E2; [|discriminate].
  rewrite ?run_cat_assoc, run_cat_chr.
  destruct s as [|c3 s]; [discriminate|]. destruct (one_ci "e" c3) eqn:E3; [|discriminate].
  rewrite ?run_cat_assoc, run_cat_chr.
  destruct s as [|c4 s]; [discriminate|]. destruct (one_ci "c" c4) eqn:E4; [|discriminate].
  rewrite ?run_cat_assoc, run_cat_chr.
  destruct s as [|c5 s]; [discriminate|]. destruct (one_ci "t" c5) eqn:E5; [|discriminate].
  destruct s as [|c6 s]; [discriminate|].
  change (match_here (plus is_space) (Some c5) (c6 :: s) = Some rest ->
          exists k c6' s6, c0 :: c1 :: c2 :: c3 :: c4 :: c5 :: c6 :: s = k ++ c6' :: s6
            /\ lower k = txt "select" /\ is_space c6' = true /\ rest = lstrip s6).
  rewrite match_here_spaces. destruct (is_space c6) eqn:E6; [|discriminate]. intros [= <-].
  exists [c0; c1; c2; c3; c4; c5], c6, s. split; [reflexivity|]. split; [|by split].
  cbn [lower List.map].
  by rewrite (one_ci_lower _ _ E0), (one_ci_lower _ _ E1), (one_ci_lower _ _ E2),
    (one_ci_lower _ _ E3), (one_ci_lower _ _ E4), (one_ci_lower _ _ E5).
Qed.

Lemma lower_app (a b : str) : lower (a ++ b) = lower a ++ lower b.
Proof. apply map_app. Qed.

Lemma with_caps_copy_all (k : str) : forall (prev : option ascii) (s s' : str),
  with_caps (prev_after prev k) s s' -> with_caps prev (k ++ s) (k ++ s').
Proof.
  induction k as [|c k IH]; intros prev s s' H; [exact H|].
  cbn [app]. constructor. by apply IH.
Qed.

(** On single-spaced text, the lower-cased result of the injection is the
    lower-cased text with row caps inserted. *)
Lemma inject_with_caps (n : nat) : forall (s : str) (prev prev' : option ascii),
  (length s <= n)%nat -> single_spaced s = true ->
  with_caps prev' (lower s) (lower (sub_from select_ws select_top prev 0 s)).
Proof.
  induction n as [|n IH]; intros s prev prev' Hlen Hs.
  - destruct s; [|cbn in Hlen; lia]. constructor.
  - destruct s as [|c s]; [constructor|]. cbn [length] in Hlen.
    destruct (sub_from_cases select_ws select_top prev c s)
      as [[Hm ->]|[(m & rest & Hsplit & Hm & ->)|[Hm _]]].
    + cbn [lower List.map]. constructor. apply IH; [lia|].
      cbn [single_spaced] in Hs. apply andb_true_iff in Hs. apply Hs.
    + destruct (match_here_select_ws_shape _ _ _ Hm) as (k & c6 & s6 & Hk & Hlow & Hc6 & ->).
      assert (H6 : single_spaced (c6 :: s6) = true).
      { apply (single_spaced_suffix k). by rewrite <- Hk. }
      cbn [single_spaced] in H6. rewrite Hc6 in H6.
      apply andb_true_iff in H6. destruct H6 as [H6 Hs6].
      apply andb_true_iff in H6. destruct H6 as [Hsp Hns].
      apply eqc_eq in Hsp. subst c6. apply negb_true_iff in Hns.
      rewrite (lstrip_id s6 Hns) in *.
      rewrite Hk, !lower_app, Hlow.
      change (lower select_top) with (txt "select " ++ row_cap).
      change (lower (" "%char :: s6)) with ([" "%char] ++ lower s6).
      rewrite (app_assoc (txt "select")), <- (app_assoc (txt "select ")).
      apply with_caps_copy_all. apply caps_insert. apply IH; [|exact Hs6].
      apply (f_equal (@length ascii)) in Hk. rewrite length_app in Hk.
      cbn [length] in Hk. lia.
    + apply match_here_select_ws in Hm. destruct Hm as (_ & _ & Hlt). lia.
Qed.

(** The statement with the row cap injected passes the gate when the
    statement does. *)
Lemma inject_top_passes_gate (s : str) :
  single_spaced s = true -> ~ In ";"%char s -> is_query_safe s = true ->
  is_query_safe (sub select_ws select_top s) = true.
Proof.
  intros Hs Hsemi Hsafe.
  pose proof (inject_with_caps _ s None None (Nat.le_refl _) Hs) as Hcaps.
  fold (sub select_ws select_top s) in Hcaps.
  assert (Hnl : ~ In nl (lower s)).
  { intros H. apply (single_spaced_no_newline s Hs), (lower_In nl); [cbn; tauto|exact H]. }
  destruct (is_query_safe (sub select_ws select_top s)) eqn:E; [reflexivity|].
  exfalso. unfold is_query_safe in E. apply negb_false_iff, existsb_exists in E.
  destruct E as (pattern & Hin & Hp).
  destruct Hin as [<-|[<-|[<-|[<-|[<-|[<-|[<-|[]]]]]]]].
  - destruct (mutating_keyword_transfer _ _ Hcaps Hp) as (a & b & kw & Hkw & HL & Ha & Hb).
    rewrite (mutating_keyword_rejected s a b kw Hkw HL Ha Hb) in Hsafe. discriminate.
  - apply stacked_statement_starts in Hp.
    destruct (with_caps_In _ _ _ _ Hcaps Hp) as [H|H].
    + apply Hsemi, (lower_In ";"); [cbn; tauto|exact H].
    + revert H. rewrite row_cap_eq. cbn. intuition discriminate.
  - destruct (union_select_transfer _ _ Hcaps Hp) as (a & m & b & HL & Ha & Hm & Hb).
    rewrite (union_select_rejected s a m b HL Ha Hm Hb) in Hsafe. discriminate.
  - destruct (tautology_transfer _ _ Hcaps Hp)
      as (a & m1 & m2 & m3 & s1 & s2 & b & HL & Ha & H1 & H2 & H3 & Hs1 & Hs2 & Hb).
    rewrite (tautology_rejected s a m1 m2 m3 s1 s2 b HL Ha H1 H2 H3 Hs1 Hs2 Hb) in Hsafe.
    discriminate.
  - apply block_comment_starts in Hp.
    destruct (with_caps_In _ _ _ _ Hcaps Hp) as [H|H].
    + apply (lower_In "/") in H; [|cbn; tauto].
      rewrite (slash_rejected s "/" H eq_refl) in Hsafe. discriminate.
    + revert H. rewrite row_cap_eq. cbn. intuition discriminate.
  - destruct (line_comment_starts _ Hp) as (a' & b' & HL').
    destruct (with_caps_split (txt "--") None _ _ Hcaps eq_refl a' b' HL')
      as (a & y & HL & _ & _).
    rewrite (last_line_comment_rejected s a y HL) in Hsafe; [discriminate|].
    intros H. apply Hnl. rewrite HL. apply in_app_iff. right. apply in_app_iff. by right.
  - unfold search, slash in Hp. rewrite search_from_class in Hp.
    apply existsb_exists in Hp. destruct Hp as (c & Hc & Hsl).
    destruct (with_caps_In _ _ _ _ Hcaps Hc) as [H|H].
    + apply in_map_iff in H. destruct H as (c0 & <- & Hc0).
      rewrite lower_char_slash in Hsl.
      rewrite (slash_rejected s c0 Hc0 Hsl) in Hsafe. discriminate.
    + revert H Hsl. rewrite row_cap_eq. cbn. intuition (subst; discriminate).
Qed.

(** The part of C2 that holds beside the leading [select]: every accepted
    statement passes the gate, with the row cap injected or not. *)
Lemma accept_passes_gate (response sql : str) :
  accept response = Some sql -> is_query_safe sql = true.
Proof.
  unfold accept. intros H.
  repeat match type of H with
         | (if negb ?b then None else _) = _ =>
             let E := fresh "E" in destruct b eqn:E; [cbn [negb] in H|discriminate]
         | (if ?b then None else _) = _ => destruct b; [discriminate|]
         end.
  pose proof (clean_sql_collapsed response) as Hc. unfold collapsed in Hc.
  apply andb_true_iff in Hc. destruct Hc as [Hc _].
  destruct (negb _); injection H as <-; [|assumption].
  apply inject_top_passes_gate; [exact Hc|apply clean_sql_no_semicolon|assumption].
Qed.

Theorem generate_sql_passes_gate (llm : nat -> option str) (sql : str) :
  generate_sql llm = Some sql -> is_query_safe sql = true.
Proof.
  unfold generate_sql. generalize 0%nat. induction MAX_SQL_ATTEMPTS as [|fuel IH]; [discriminate|].
  intros attempt. cbn [generate_from].
  destruct (llm attempt) as [response|].
  - destruct (accept response) as [sql'|] eqn:E.
    + intros [= <-]. by apply (accept_passes_gate response).
    + destruct (attempt =? _)%nat; [discriminate|apply IH].
  - destruct (attempt =? _)%nat; [discriminate|apply IH].
Qed.

End RowCapFacts.


Module ExecutorFacts.
Import Executor.

Lemma body_result_shape (d : driver) (query : str) (rows : list record) (err : option str) (t : trace) :
  body d query = (inr (rows, err), t) ->
  (err = None) \/ (rows = [] /\ exists msg, err = Some msg).
Proof.
  unfold body, sql_error. intros H.
  destruct (open_cursor d); [discriminate|].
  destruct (execute d query) as [[text|]|[[|c cols]|] [rows'|[text|]]];
    cbn in H; destruct (close_cursor d); cbn in H; inversion H; subst; eauto.
Qed.

Lemma execute_query_cases (d : driver) (query : str) :
  fst (execute_query d query) = unexpected
  \/ (exists msg, In msg guard_messages /\ execute_query d query = (([], Some msg), []))
  \/ (exists t, body d query = (inr (fst (execute_query d query)), t)).
Proof.
  unfold execute_query.
  destruct (negb (startswith _ _)).
  { right. left. eexists. split; [|reflexivity]. cbn. auto. }
  destruct (negb (is_query_safe query)).
  { right. left. eexists. split; [|reflexivity]. cbn. auto. }
  destruct (get_connection d false 0 MAX_SQL_ATTEMPTS) as [[e|attempt] t]; [by left|].
  destruct (body d query) as [[e|result] tb] eqn:Hb; [by left|].
  destruct (commit d); [by left|]. right. right. by exists tb.
Qed.

(** C6: [execute_query] returns rows without an error, or an error without
    rows, whatever the driver does. *)
Theorem execute_query_rows_or_error (d : driver) (query : str) :
  (exists rows, fst (execute_query d query) = (rows, None))
  \/ (exists msg, fst (execute_query d query) = ([], Some msg)).
Proof.
  destruct (execute_query_cases d query) as [H|[(msg & _ & H)|[t H]]].
  - right. rewrite H. by eexists.
  - right. rewrite H. by eexists.
  - destruct (fst (execute_query d query)) as [rows err].
    destruct (body_result_shape _ _ _ _ _ H) as [->|[-> [msg ->]]]; eauto.
Qed.

(** C3, as amended: a statement that, once stripped, does not start with
    [select], or that fails the gate, gets one of the two guard messages
    and no driver call is made. *)
Theorem execute_query_guard (d : driver) (query : str) :
  startswith (txt "select") (lower (strip query)) = false \/ is_query_safe query = false ->
  exists msg, In msg guard_messages /\ execute_query d query = (([], Some msg), []).
Proof.
  unfold execute_query. intros [H|H].
  - rewrite H. cbn [negb]. eexists. split; [|reflexivity]. cbn. auto.
  - rewrite H. destruct (negb (startswith _ _)); cbn [negb];
      (eexists; split; [|reflexivity]); cbn; auto.
Qed.

Lemma execute_query_guard_witness :
  exists msg, In msg guard_messages
    /\ execute_query one_row_driver (txt "delete from Orders") = (([], Some msg), []).
Proof.
  apply (execute_query_guard one_row_driver (txt "delete from Orders")).
  left. vm_compute. reflexivity.
Defined.

(** C3 as stated fails: a statement with leading white space does not
    start with [select], yet it is executed. *)
Lemma execute_query_leading_space_runs :
  startswith (txt "select") (lower (txt " select 1")) = false
  /\ is_query_safe (txt " select 1") = true
  /\ execute_query one_row_driver (txt " select 1") =
       (([[([], Some (txt "1"))]], None),
        [EvConnect 0; EvCursor; EvExecute (txt " select 1"); EvFetch; EvCommit; EvClose]).
Proof. vm_compute. auto. Qed.

Lemma first_line_no_newline (text : str) : ~ In nl (first_line text).
Proof.
  unfold first_line. induction text as [|c text IH]; cbn [split_head]; [intros []|].
  destruct (eqc c nl) eqn:E; [intros []|].
  intros [->|H]; [|by apply IH]. unfold eqc in E. by rewrite Ascii.eqb_refl in E.
Qed.

Lemma first_line_prefix (text : str) :
  exists rest, text = first_line text ++ rest /\ (rest = [] \/ exists rest', rest = nl :: rest').
Proof.
  unfold first_line. induction text as [|c text (rest & IH1 & IH2)]; cbn [split_head].
  - exists []. auto.
  - destruct (eqc c nl) eqn:E.
    + apply Ascii.eqb_eq in E. subst. exists (nl :: text). eauto.
    + exists rest. split; [|done]. cbn [app]. f_equal. exact IH1.
Qed.

Lemma fixed_messages_no_newline (msg : str) : In msg fixed_messages -> ~ In nl msg.
Proof.
  cbn. intros [<-|[<-|[<-|[<-|[]]]]]; vm_compute; intuition discriminate.
Qed.

(** C9: when [cursor.execute] or [fetchall] raises [pyodbc.Error], the
    message returned has no newline: it is the first line of the driver's
    text after the prefix, or one of the fixed messages. *)
Theorem driver_error_first_line_only (d : driver) (query text : str) (msg : str) :
  execute d query = ExecRaises (PyodbcError text)
  \/ (exists columns, execute d query = Executed (Some columns) (FetchRaises (PyodbcError text))) ->
  snd (fst (execute_query d query)) = Some msg ->
  ~ In nl msg
  /\ (msg = txt "SQL error: " ++ first_line text \/ In msg fixed_messages).
Proof.
  intros Hexec Hmsg.
  assert (Hm : msg = txt "SQL error: " ++ first_line text \/ In msg fixed_messages).
  { destruct (execute_query_cases d query) as [H|[(m & Hin & H)|[t H]]].
    - rewrite H in Hmsg. inversion Hmsg. right. cbn. auto.
    - rewrite H in Hmsg. inversion Hmsg; subst. right. unfold fixed_messages.
      apply in_app_iff. by left.
    - destruct (fst (execute_query d query)) as [rows err]. cbn in Hmsg. subst err.
      unfold body, sql_error in H. destruct (open_cursor d); [discriminate|].
      destruct Hexec as [He|[columns He]]; rewrite He in H.
      + cbn in H. destruct (close_cursor d); inversion H. by left.
      + destruct columns; cbn in H; destruct (close_cursor d); inversion H.
        * right. cbn. auto.
        * by left. }
  split; [|exact Hm]. destruct Hm as [->|Hin].
  - intros Hin. apply in_app_iff in Hin. destruct Hin as [Hin|Hin].
    + revert Hin. vm_compute. intuition discriminate.
    + by apply first_line_no_newline in Hin.
  - by apply fixed_messages_no_newline.
Qed.

Lemma driver_error_first_line_only_witness :
  ~ In nl (txt "SQL error: ('42S02', 'Invalid object name')")
  /\ (txt "SQL error: ('42S02', 'Invalid object name')" =
        txt "SQL error: " ++ first_line (txt "('42S02', 'Invalid object name')" ++ nl :: txt "[SQL: select 1]")
      \/ In (txt "SQL error: ('42S02', 'Invalid object name')") fixed_messages).
Proof.
  apply (driver_error_first_line_only failing_driver (txt "select 1")).
  - left. reflexivity.
  - vm_compute. reflexivity.
Defined.

End ExecutorFacts.


Module SchemaCacheFacts.
Import SchemaCache.

Section RoundTrip.

Variable content : Type.
Variable json_dump : SchemaInfo -> content.
Variable json_load : content -> option SchemaInfo.

(** What [json.load] reads back from a file [json.dump] wrote. *)
Hypothesis json_round_trip : forall s : SchemaInfo, json_load (json_dump s) = Some s.

(** After any call that returned, a plain read returns the same snapshot
    and leaves the world as it is. *)
Lemma read_after_return (w w1 : world content) (force_refresh : bool) (s1 : SchemaInfo) :
  get_schema_info json_dump json_load w force_refresh = (Some s1, w1) ->
get_schema_info json_dump json_load w1 false = (Some s1, w1).
Proof using json_round_trip.
  unfold get_schema_info. intros H.
  destruct force_refresh, (cache_file w) as [c|] eqn:Hc;
    try (destruct (introspect w) as [[schema_data fk_data]|]; [|discriminate];
         destruct (writable w); [|discriminate];
         inversion H; subst; cbn; by rewrite json_round_trip).
  inversion H; subst. rewrite Hc. by f_equal.
Qed.

(** A call that returned left a cache file that holds what it returned. *)
Lemma returned_is_cached (w w1 : world content) (force_refresh : bool) (s1 : SchemaInfo) :
  get_schema_info json_dump json_load w force_refresh = (Some s1, w1) ->
  exists c, cache_file w1 = Some c /\ json_load c = Some s1.
Proof using json_round_trip.
  unfold get_schema_info. intros H.
  destruct force_refresh, (cache_file w) as [c|] eqn:Hc;
    try (destruct (introspect w) as [[schema_data fk_data]|]; [|discriminate];
         destruct (writable w); [|discriminate];
         inversion H; subst; cbn; eexists; split; [reflexivity|apply json_round_trip]).
  inversion H; subst. by exists c.
Qed.

(** A plain read in a world with a cache file returns what the file holds
    and asks the database nothing. *)
Lemma read_cached (w : world content) (c : content) :
  cache_file w = Some c -> get_schema_info json_dump json_load w false = (json_load c, w).
Proof using Type. unfold get_schema_info. by intros ->. Qed.

(** C7: a read that returned has left its snapshot in the cache file, and
    a second read that finds the cache file as the first left it returns
    the same snapshot, whatever the database says by then and whether the
    file can still be written. *)
Theorem schema_read_twice_identical (w w1 w2 : world content) (s1 : SchemaInfo) :
  get_schema_info json_dump json_load w false = (Some s1, w1) ->
  cache_file w2 = cache_file w1 ->
  (exists c, cache_file w1 = Some c /\ json_load c = Some s1)
  /\ get_schema_info json_dump json_load w2 false = (Some s1, w2).
Proof using json_round_trip.
  intros H Hfile. destruct (returned_is_cached _ _ _ _ H) as (c & Hc & Hl).
  split; [by exists c|]. rewrite Hc in Hfile. by rewrite (read_cached w2 c Hfile), Hl.
Qed.

End RoundTrip.

Lemma schema_read_twice_identical_witness :
  (exists c, cache_file (write_cache fresh_world (organize customers_rows [])) = Some c
             /\ Some c = Some (organize customers_rows []))
  /\ get_schema_info id Some (changed_world (organize customers_rows [])) false
     = (Some (organize customers_rows []), changed_world (organize customers_rows [])).
Proof.
  apply (schema_read_twice_identical SchemaInfo id Some (fun s => eq_refl) fresh_world).
  - reflexivity.
  - reflexivity.
Defined.

End SchemaCacheFacts.


Module RateLimiterFacts.
Import RateLimiter.

Lemma fresh_iff (now t : Q) : fresh now t = true <-> (now - t < 60)%Q.
Proof.
  unfold fresh. rewrite negb_true_iff. split.
  - intros H. apply Qnot_le_lt. intros Hle. apply Qle_bool_iff in Hle. congruence.
  - intros H. destruct (Qle_bool 60 (now - t)) eqn:E; [|reflexivity].
    apply Qle_bool_iff in E. lra.
Qed.

Lemma window_of_insert (st : state) (u : Z) (w : list Q) :
  window_of (<[u := w]> st) u = w.
Proof. unfold window_of. by rewrite lookup_insert_eq. Qed.

Lemma window_of_insert_ne (st : state) (u v : Z) (w : list Q) :
  u ≠ v -> window_of (<[v := w]> st) u = window_of st u.
Proof. intros H. unfold window_of. by rewrite lookup_insert_ne. Qed.

Lemma check_rate_limit_window (st : state) (u : Z) (now : Q) :
  check_rate_limit st u now =
  (fst (step_window (window_of st u) now), <[u := snd (step_window (window_of st u) now)]> st).
Proof.
  unfold check_rate_limit, step_window.
  assert (Hw : window_of (match st !! u with None => <[u := []]> st | Some _ => st end) u
               = window_of st u).
  { unfold window_of. destruct (st !! u) eqn:E; [by rewrite E|by rewrite lookup_insert_eq]. }
  rewrite Hw.
  assert (Hi : forall w, <[u := w]> (match st !! u with None => <[u := []]> st | Some _ => st end)
                         = <[u := w]> st).
  { intros w. destruct (st !! u); [done|by rewrite insert_insert_eq]. }
  destruct (MAX_REQUESTS_PER_MINUTE <=? length (purge now (window_of st u)))%nat; simpl.
  - by rewrite Hi.
  - by rewrite insert_insert_eq, Hi.
Qed.

Lemma run_calls_window (u : Z) (calls : list (Z * Q)) : forall st : state,
  answers_of u (fst (run_calls st calls)) = fst (run_window (window_of st u) (times_of u calls))
  /\ window_of (snd (run_calls st calls)) u = snd (run_window (window_of st u) (times_of u calls)).
Proof.
  induction calls as [|[v now] calls IH]; intros st; [done|].
  cbn [run_calls]. rewrite check_rate_limit_window. cbn [fst snd].
  unfold times_of, answers_of in *. cbn [List.filter fst snd].
  destruct (Z.eqb_spec v u) as [->|Hne].
  - cbn [List.map run_window fst snd].
    specialize (IH (<[u := snd (step_window (window_of st u) now)]> st)).
    rewrite window_of_insert in IH. destruct IH as [IH1 IH2].
    split; [by rewrite IH1|done].
  - specialize (IH (<[v := snd (step_window (window_of st v) now)]> st)).
    rewrite window_of_insert_ne in IH by done. done.
Qed.

Lemma purge_length (now : Q) (w : list Q) : (length (purge now w) <= length w)%nat.
Proof. apply List.filter_length_le. Qed.

Lemma step_window_bound (w : list Q) (now : Q) :
  (length w <= MAX_REQUESTS_PER_MINUTE)%nat ->
  (length (snd (step_window w now)) <= MAX_REQUESTS_PER_MINUTE)%nat.
Proof.
  intros H. unfold step_window. pose proof (purge_length now w) as Hp.
  destruct (Nat.leb_spec MAX_REQUESTS_PER_MINUTE (length (purge now w))); cbn [snd].
  - lia.
  - rewrite length_app. cbn. lia.
Qed.

Lemma run_window_bound (times : list Q) : forall w : list Q,
  (length w <= MAX_REQUESTS_PER_MINUTE)%nat ->
  (length (snd (run_window w times)) <= MAX_REQUESTS_PER_MINUTE)%nat.
Proof.
  induction times as [|now times IH]; intros w H; [done|].
  cbn [run_window snd]. apply IH. by apply step_window_bound.
Qed.

(** C10: from the empty map, after any schedule of calls, no window holds
    more than [MAX_REQUESTS_PER_MINUTE] readings. *)
Theorem window_never_exceeds_quota (calls : list (Z * Q)) (user_id : Z) :
  (length (window_of (snd (run_calls init calls)) user_id) <= MAX_REQUESTS_PER_MINUTE)%nat.
Proof.
  destruct (run_calls_window user_id calls init) as [_ ->].
  apply run_window_bound. unfold window_of, init. rewrite lookup_empty. cbn. lia.
Qed.

Lemma purge_in_window (t1 now : Q) (acc : list Q) :
  (now - t1 < 60)%Q -> Forall (in_window t1) acc -> purge now acc = acc.
Proof.
  intros Hnow Hacc. unfold purge. induction Hacc as [|a acc [Ha1 Ha2] _ IH]; [done|].
  cbn [List.filter]. replace (fresh now a) with true; [by rewrite IH|].
  symmetry. apply fresh_iff. lra.
Qed.

Lemma purge_app (now : Q) (w1 w2 : list Q) : purge now (w1 ++ w2) = purge now w1 ++ purge now w2.
Proof. apply List.filter_app. Qed.

Lemma accepted_run_shape (t1 : Q) (ts : list Q) : forall w acc : list Q,
  Forall (in_window t1) acc -> Forall (in_window t1) ts ->
  all_accepted (fst (run_window (w ++ acc) ts)) ->
  exists w', snd (run_window (w ++ acc) ts) = w' ++ acc ++ ts.
Proof.
  induction ts as [|t ts IH]; intros w acc Hacc Hts Hall.
  - exists w. cbn. by rewrite app_nil_r.
  - inversion Hts as [|? ? [Ht1 Ht2] Hts']; subst.
    cbn [run_window fst snd] in *. inversion Hall as [|? ? Hb Hrest]; subst.
    assert (Hp : purge t (w ++ acc) = purge t w ++ acc).
    { rewrite purge_app. f_equal. by apply (purge_in_window t1). }
    unfold step_window in *. rewrite Hp in *.
    destruct (MAX_REQUESTS_PER_MINUTE <=? length (purge t w ++ acc))%nat; [done|].
    cbn [fst snd] in *. rewrite <- app_assoc in *.
    destruct (IH (purge t w) (acc ++ [t])) as [w' Hw']; [|done|done|].
    + apply Forall_app. split; [done|]. by repeat constructor.
    + exists w'. rewrite Hw'. by rewrite <- !app_assoc.
Qed.

Lemma accepted_run_bound (ts : list Q) : forall w : list Q,
  ts <> [] -> all_accepted (fst (run_window w ts)) ->
  (length (snd (run_window w ts)) <= MAX_REQUESTS_PER_MINUTE)%nat.
Proof.
  induction ts as [|t ts IH]; intros w Hne Hall; [done|].
  cbn [run_window fst snd] in *. inversion Hall as [|? ? Hb Hrest]; subst.
  destruct ts as [|t' ts'].
  - cbn [run_window snd]. unfold step_window in *.
    destruct (Nat.leb_spec MAX_REQUESTS_PER_MINUTE (length (purge t w))); [done|].
    cbn [snd]. rewrite length_app. cbn. lia.
  - by apply IH.
Qed.

Lemma full_window_denies (t1 : Q) (ts : list Q) (mids : list Q) :
  length ts = 9%nat -> Forall (in_window t1) ts ->
  Forall (fun m => (m - t1 < 60)%Q) mids ->
  all_denied (fst (run_window (t1 :: ts) mids)) /\ snd (run_window (t1 :: ts) mids) = t1 :: ts.
Proof.
  intros Hlen Hts Hmids. induction Hmids as [|m mids Hm _ IH].
  { split; [constructor|done]. }
  cbn [run_window fst snd]. unfold step_window.
  assert (Hp : purge m (t1 :: ts) = t1 :: ts).
  { apply (purge_in_window t1); [done|]. constructor; [split; lra|done]. }
  rewrite Hp.
  cbn [length]. rewrite Hlen. cbn [Nat.leb MAX_REQUESTS_PER_MINUTE fst snd].
  destruct IH as [IH1 IH2]. split; [by constructor|done].
Qed.

Lemma expired_first_allows (t1 now : Q) (ts : list Q) :
  length ts = 9%nat -> (60 <= now - t1)%Q -> fst (step_window (t1 :: ts) now) = true.
Proof.
  intros Hlen Hnow. unfold step_window, purge. cbn [List.filter].
  replace (fresh now t1) with false.
  - pose proof (List.filter_length_le (fresh now) ts) as Hle.
    destruct (Nat.leb_spec MAX_REQUESTS_PER_MINUTE (length (List.filter (fresh now) ts))); [|done].
    unfold MAX_REQUESTS_PER_MINUTE in *. lia.
  - symmetry. apply not_true_is_false. rewrite fresh_iff. lra.
Qed.

(** C4: ten accepted calls of a user within 60 seconds fill the window
    with exactly their readings; further calls inside the window are denied
    and leave it as it is; a call 60 seconds or more after the first is
    allowed; a user not seen before is allowed and recorded. *)
Theorem sliding_window_quota (st : state) (user_id : Z) (calls mid : list (Z * Q))
    (t1 : Q) (ts : list Q) (later : Q) :
  times_of user_id calls = t1 :: ts ->
  length ts = 9%nat ->
  Forall (in_window t1) ts ->
  all_accepted (answers_of user_id (fst (run_calls st calls))) ->
  Forall (fun m => (m - t1 < 60)%Q) (times_of user_id mid) ->
  (60 <= later - t1)%Q ->
  let st10 := snd (run_calls st calls) in
  let r := run_calls st10 mid in
  window_of st10 user_id = t1 :: ts
  /\ all_denied (answers_of user_id (fst r))
  /\ window_of (snd r) user_id = t1 :: ts
  /\ fst (check_rate_limit (snd r) user_id later) = true
  /\ (forall (st0 : state) (now : Q), st0 !! user_id = None ->
        check_rate_limit st0 user_id now = (true, <[user_id := [now]]> st0)).
Proof.
  intros Htimes Hlen Hts Hacc Hmid Hlater st10 r.
  destruct (run_calls_window user_id calls st) as [Ha Hw]. rewrite Htimes in *.
  rewrite Ha in Hacc.
  assert (H10 : window_of st10 user_id = t1 :: ts).
  { unfold st10. rewrite Hw.
    destruct (accepted_run_shape t1 (t1 :: ts) (window_of st user_id) []) as [w' Hw'].
    - constructor.
    - constructor; [split; lra|done].
    - by rewrite app_nil_r.
    - pose proof (accepted_run_bound (t1 :: ts) (window_of st user_id)) as Hb.
      rewrite app_nil_r in Hw'. rewrite Hw' in *. cbn [app] in *.
      destruct w' as [|x w']; [done|].
      exfalso. specialize (Hb ltac:(done) Hacc). rewrite length_app in Hb.
      cbn in Hb. unfold MAX_REQUESTS_PER_MINUTE in Hb. lia. }
  destruct (run_calls_window user_id mid st10) as [Ha' Hw'].
  rewrite H10 in *.
  destruct (full_window_denies t1 ts (times_of user_id mid) Hlen Hts Hmid) as [Hd Hs].
  split; [done|]. split; [unfold r; by rewrite Ha'|].
  assert (Hr : window_of (snd r) user_id = t1 :: ts) by (unfold r; by rewrite Hw').
  split; [done|]. split.
  - rewrite check_rate_limit_window. cbn [fst]. rewrite Hr. by apply expired_first_allows.
  - intros st0 now Hnone. rewrite check_rate_limit_window.
    unfold window_of. rewrite Hnone. reflexivity.
Qed.

Lemma sliding_window_quota_witness :
  let st10 := snd (run_calls init ten_calls) in
  let r := run_calls st10 [(7%Z, inject_Z 30); (8%Z, inject_Z 31); (7%Z, inject_Z 59)] in
  all_denied (answers_of 7 (fst r))
  /\ fst (check_rate_limit (snd r) 7 (inject_Z 60)) = true.
Proof.
  intros st10 r.
  destruct (sliding_window_quota init 7 ten_calls
              [(7%Z, inject_Z 30); (8%Z, inject_Z 31); (7%Z, inject_Z 59)]
              (inject_Z 0) (List.map inject_Z [1; 2; 3; 4; 5; 6; 7; 8; 9]%Z) (inject_Z 60))
    as (_ & Hd & _ & Ha & _).
  - reflexivity.
  - reflexivity.
  - cbn [List.map].
    repeat (apply List.Forall_cons; [split; vm_compute; congruence|]). apply List.Forall_nil.
  - vm_compute. repeat constructor.
  - cbn. repeat (apply List.Forall_cons; [vm_compute; congruence|]). apply List.Forall_nil.
  - vm_compute. congruence.
  - split; [exact Hd|exact Ha].
Defined.

End RateLimiterFacts.


(** * Further properties of the gate, the cleaning and the synthesis *)

Module GateProperties.
Import TextFacts ReFacts SafetyGateFacts.

(** X1: a statement with a forward or backward slash anywhere, hence with
    any block comment, is rejected. *)
Theorem gate_rejects_slash (query : str) (c : ascii) :
  In c query -> is_slash c = true -> is_query_safe query = false.
Proof. apply slash_rejected. Qed.

Lemma gate_rejects_slash_witness : is_query_safe (txt "select a /* b */ from t") = false.
Proof.
  apply (gate_rejects_slash (txt "select a /* b */ from t") "/").
  - vm_compute. tauto.
  - reflexivity.
Defined.

(** X2: a statement in which one of the eight mutating keywords (drop,
    delete, truncate, alter, shutdown, insert, update, merge) stands as a
    whole word, in any capitals, is rejected. *)
Theorem gate_rejects_mutating_keyword (query a b : str) (kw : string) :
  In kw mutating_words ->
  lower query = a ++ txt kw ++ b ->
  word_before (prev_after None a) = false -> word_after b = false ->
  is_query_safe query = false.
Proof. apply mutating_keyword_rejected. Qed.

Lemma gate_rejects_mutating_keyword_witness :
  is_query_safe (txt "select 1 from t where x = 'a' or Drop") = false.
Proof.
  apply (gate_rejects_mutating_keyword _ (txt "select 1 from t where x = 'a' or ") [] "drop").
  - vm_compute. tauto.
  - reflexivity.
  - reflexivity.
  - reflexivity.
Defined.

(** X3: a line comment on the last line of the statement is rejected. *)
Theorem gate_rejects_last_line_comment (query a b : str) :
  lower query = a ++ txt "--" ++ b -> ~ In nl b -> is_query_safe query = false.
Proof. apply last_line_comment_rejected. Qed.

Lemma gate_rejects_last_line_comment_witness :
  is_query_safe (txt "select a" ++ nl :: txt "from t -- all of it") = false.
Proof.
  apply (gate_rejects_last_line_comment _ (txt "select a" ++ nl :: txt "from t ") (txt " all of it")).
  - reflexivity.
  - vm_compute. intuition discriminate.
Defined.

(** X4: a semicolon followed on the same line by [exec], [execute],
    [xp_cmdshell] or [sp_] as a whole word is rejected. *)
Theorem gate_rejects_stacked_call (query a m b : str) (kw : string) :
  In kw stacked_words ->
  lower query = a ++ txt ";" ++ m ++ txt kw ++ b ->
  forallb dot m = true ->
  word_before (prev_after (Some ";"%char) m) = false -> word_after b = false ->
  is_query_safe query = false.
Proof. apply stacked_statement_rejected. Qed.

Lemma gate_rejects_stacked_call_witness :
  is_query_safe (txt "select 1; EXEC xp_x") = false.
Proof.
  apply (gate_rejects_stacked_call _ (txt "select 1") (txt " ") (txt " xp_x") "exec").
  - vm_compute. tauto.
  - reflexivity.
  - reflexivity.
  - reflexivity.
  - reflexivity.
Defined.

(** X5: UNION followed on the same line by SELECT, both as whole words, is
    rejected. *)
Theorem gate_rejects_union_select (query a m b : str) :
  lower query = a ++ txt "union" ++ m ++ txt "select" ++ b ->
  word_before (prev_after None a) = false -> is_gap m = true -> word_after b = false ->
  is_query_safe query = false.
Proof. apply union_select_rejected. Qed.

Lemma gate_rejects_union_select_witness :
  is_query_safe (txt "select a from t UNION ALL select b from u") = false.
Proof.
  apply (gate_rejects_union_select _ (txt "select a from t ") (txt " all ") (txt " b from u"));
    reflexivity.
Defined.

(** X6: SELECT, FROM, WHERE and [1 = 1], in this order on one line and as
    whole words, are rejected. *)
Theorem gate_rejects_tautology (query a m1 m2 m3 s1 s2 b : str) :
  lower query = a ++ txt "select" ++ m1 ++ txt "from" ++ m2 ++ txt "where" ++ m3
                  ++ txt "1" ++ s1 ++ txt "=" ++ s2 ++ txt "1" ++ b ->
  word_before (prev_after None a) = false ->
  is_gap m1 = true -> is_gap m2 = true -> is_gap m3 = true ->
  forallb is_space s1 = true -> forallb is_space s2 = true ->
  word_after b = false ->
  is_query_safe query = false.
Proof. apply tautology_rejected. Qed.

Lemma gate_rejects_tautology_witness :
  is_query_safe (txt "SELECT a FROM t WHERE x = 2 or 1=1") = false.
Proof.
  apply (gate_rejects_tautology _ [] (txt " a ") (txt " t ") (txt " x = 2 or ") [] [] []);
    reflexivity.
Defined.

End GateProperties.


Module CleaningProperties.
Import OllamaLLM TextFacts ReFacts SpacingFacts SafetyGateFacts OllamaLLMFacts.

(** X7: the cleaned statement has no slash, no backslash and no semicolon. *)
Theorem cleaned_has_no_slash_or_semicolon (sql : str) :
  forallb (fun c => negb (is_slash c) && negb (eqc c ";")) (clean_sql sql) = true.
Proof.
  apply forallb_forall. intros c Hc. apply andb_true_iff. split; apply negb_true_iff.
  - by apply (clean_sql_no_slash sql).
  - destruct (eqc c ";") eqn:E; [|reflexivity]. apply eqc_eq in E. subst.
    by apply clean_sql_no_semicolon in Hc.
Qed.

(** X8: the cleaned statement is one line whose white space is single
    spaces between words, none leading or trailing. *)
Theorem cleaned_is_one_collapsed_line (sql : str) :
  collapsed (clean_sql sql) = true
  /\ forallb (fun c => negb (eqc c nl)) (clean_sql sql) = true.
Proof.
  pose proof (clean_sql_collapsed sql) as H. split; [exact H|].
  unfold collapsed in H. apply andb_true_iff in H. destruct H as [H _].
  apply forallb_forall. intros c Hc. apply negb_true_iff.
  destruct (eqc c nl) eqn:E; [|reflexivity]. apply eqc_eq in E. subst.
  by apply single_spaced_no_newline in Hc.
Qed.

Lemma star_greedy_any_all (s : str) : forall prev : option ascii,
  exists tl, star_greedy any prev s = (prev_after prev s, []) :: tl.
Proof.
  induction s as [|c s IH]; intros prev; [by exists []|].
  cbn [star_greedy any]. destruct (IH (Some c)) as [tl ->]. by eexists.
Qed.

Lemma startswith_inv (p s : str) : startswith p s = true -> exists s1, s = p ++ s1.
Proof.
  revert s. induction p as [|a p IH]; intros s H; [by exists s|].
  destruct s as [|b s]; [discriminate|]. cbn [startswith] in H.
  apply andb_true_iff in H. destruct H as [Hab H]. apply eqc_eq in Hab. subst.
  destruct (IH s H) as [s1 ->]. by exists s1.
Qed.

(** The pattern of the code fence matches where the text starts with the
    fence, and then it reads the text to its end. *)
Lemma match_here_fence (prev : option ascii) (s : str) :
  match_here fence_tail prev s = if startswith (txt "```") s then Some [] else None.
Proof.
  unfold match_here, fence_tail.
  change (cats [lit "```"; Star any; Eol false])
    with (Cat (lit "```") (Cat (Star any) (Eol false))).
  destruct (startswith (txt "```") s) eqn:E.
  - apply startswith_inv in E. destruct E as [s1 ->]. unfold lit.
    rewrite run_cat_literal by discriminate. cbn [run].
    destruct (star_greedy_any_all s1 (prev_after prev (txt "```"))) as [tl ->].
    reflexivity.
  - destruct (run _ prev s) as [|q l] eqn:Er; [reflexivity|]. exfalso.
    assert (Hq : In q (run (Cat (lit "```") (Cat (Star any) (Eol false))) prev s)).
    { rewrite Er. by left. }
    apply run_cat_lit_inv in Hq; [|discriminate]. destruct Hq as (s1 & -> & _).
    by rewrite startswith_app in E.
Qed.

Lemma sub_from_skip_all (r : regex) (s : str) (prev : option ascii) :
  sub_from r [] prev (length s) s = [].
Proof.
  rewrite <- (app_nil_r s) at 2. rewrite sub_from_skip. cbn [sub_from].
  by destruct (match_here r _ []).
Qed.

Lemma startswith_app_long (p x b : str) :
  (length p <= length x)%nat -> startswith p (x ++ b) = startswith p x.
Proof.
  revert x. induction p as [|a p IH]; intros x H; [reflexivity|].
  destruct x as [|c x]; [cbn in H; lia|]. cbn [app startswith].
  f_equal. apply IH. cbn [length] in H. lia.
Qed.

Lemma fence_cuts (a b : str) : forall prev : option ascii,
  sub_from fence_tail [] prev 0 (a ++ txt "```" ++ b)
  = sub_from fence_tail [] prev 0 (a ++ txt "```").
Proof.
  assert (Hcut : forall prev s, startswith (txt "```") s = true ->
                 sub_from fence_tail [] prev 0 s = []).
  { intros prev [|c s] H; [discriminate|]. cbn [sub_from]. rewrite match_here_fence, H.
    cbn [length]. rewrite Nat.sub_0_r. cbn [app]. apply sub_from_skip_all. }
  induction a as [|c a IH]; intros prev.
  - cbn [app]. rewrite !Hcut; [reflexivity| |].
    + reflexivity.
    + apply startswith_app.
  - cbn [app].
    assert (Hs : startswith (txt "```") (c :: a ++ txt "```" ++ b)
                 = startswith (txt "```") (c :: a ++ txt "```")).
    { rewrite app_assoc. apply (startswith_app_long _ (c :: a ++ txt "```")).
      cbn [length]. rewrite length_app. cbn. lia. }
    destruct (startswith (txt "```") (c :: a ++ txt "```")) eqn:E.
    + rewrite (Hcut _ _ E). by apply Hcut.
    + cbn [sub_from]. rewrite !match_here_fence, Hs, E. f_equal. apply IH.
Qed.

(** X9: what follows a code fence has no effect on the cleaned statement. *)
Theorem text_after_fence_is_ignored (a b b' : str) :
  clean_sql (a ++ txt "```" ++ b) = clean_sql (a ++ txt "```" ++ b').
Proof.
  assert (H : forall x, clean_sql (a ++ txt "```" ++ x) = clean_sql (a ++ txt "```")).
  { intros x. unfold clean_sql, sub. by rewrite fence_cuts. }
  by rewrite (H b), (H b').
Qed.

End CleaningProperties.

Module SynthesisProperties.
Import OllamaLLM TextFacts ReFacts SpacingFacts SafetyGateFacts OllamaLLMFacts RowCapFacts.
Import CleaningProperties.

Lemma contains_split (p s : str) :
  contains p s = true -> exists a b, s = a ++ p ++ b.
Proof.
  induction s as [|c s IH]; cbn [contains]; intros H.
  - rewrite orb_false_r in H. apply startswith_inv in H. destruct H as [b ->]. by exists [], b.
  - apply orb_true_iff in H. destruct H as [H|H].
    + apply startswith_inv in H. destruct H as [b ->]. by exists [], b.
    + destruct (IH H) as (a & b & ->). by exists (c :: a), b.
Qed.

Lemma contains_app (a p b : str) : contains p (a ++ p ++ b) = true.
Proof.
  induction a as [|c a IH]; cbn [app].
  - apply contains_startswith, startswith_app.
  - by apply contains_cons.
Qed.

(** A statement [generate_sql] returns was accepted at one of the
    attempts of the loop. *)
Lemma generate_sql_accepted (llm : nat -> option str) (sql : str) :
  generate_sql llm = Some sql ->
  exists attempt response,
    (attempt < MAX_SQL_ATTEMPTS)%nat /\ llm attempt = Some response
    /\ accept response = Some sql.
Proof.
  unfold generate_sql.
  assert (H : forall fuel attempt, generate_from llm attempt fuel = Some sql ->
              exists k response, (attempt <= k < attempt + fuel)%nat
                /\ llm k = Some response /\ accept response = Some sql).
  { induction fuel as [|fuel IH]; intros attempt; [discriminate|]. cbn [generate_from].
    destruct (llm attempt) as [response|] eqn:El.
    - destruct (accept response) as [sql'|] eqn:E.
      + intros [= <-]. exists attempt, response. repeat split; [lia|lia|exact El|exact E].
      + destruct (attempt =? _)%nat; [discriminate|]. intros H.
        destruct (IH _ H) as (k & r & Hk & Hl & Ha). exists k, r. repeat split; [lia|lia|done|done].
    - destruct (attempt =? _)%nat; [discriminate|]. intros H.
      destruct (IH _ H) as (k & r & Hk & Hl & Ha). exists k, r. repeat split; [lia|lia|done|done]. }
  intros Hg. destruct (H _ _ Hg) as (k & r & Hk & Hl & Ha). exists k, r.
  repeat split; [cbn in Hk |- *; lia|done|done].
Qed.

(** An accepted statement is the cleaned answer, or the cleaned answer
    with the row cap injected; the cleaned answer passed every check. *)
Lemma accept_cases (response sql : str) :
  accept response = Some sql ->
  contains (txt "--") (lower (clean_sql response)) = false
  /\ (sql = clean_sql response \/ sql = sub select_ws select_top (clean_sql response)).
Proof.
  unfold accept. intros H.
  destruct (negb (startswith _ _)); [discriminate|].
  destruct (existsb _ _) eqn:E; [discriminate|].
  repeat match type of H with
         | (if ?b then None else _) = _ => destruct b; [discriminate|]
         end.
  split.
  - cbn [existsb] in E. apply orb_false_iff in E. destruct E as [_ E].
    apply orb_false_iff in E. apply E.
  - destruct (negb _); injection H as <-; auto.
Qed.

Lemma accept_single_statement (response sql : str) :
  accept response = Some sql ->
  single_spaced sql = true
  /\ (forall c, In c sql -> is_slash c = false /\ c <> ";"%char)
  /\ contains (txt "--") sql = false.
Proof.
  intros H. destruct (accept_cases _ _ H) as [Hdash Hsql].
  pose proof (clean_sql_collapsed response) as Hc. unfold collapsed in Hc.
  apply andb_true_iff in Hc. destruct Hc as [Hc _].
  assert (Hchars : forall c, In c (clean_sql response) -> is_slash c = false /\ c <> ";"%char).
  { intros c Hin. split; [by apply (clean_sql_no_slash response)|].
    intros ->. by apply (clean_sql_no_semicolon response). }
  destruct Hsql as [->| ->].
  - repeat split; [exact Hc|by apply Hchars|by apply Hchars|].
    destruct (contains (txt "--") (clean_sql response)) eqn:E; [|reflexivity].
    apply contains_lower in E. cbn [lower List.map txt list_ascii_of_string] in E.
    change (contains (txt "--") (lower (clean_sql response)) = true) in E. congruence.
  - split; [|split].
    + apply (inject_top_single_spaced _ (clean_sql response) None (Nat.le_refl _) Hc).
    + intros c Hin. apply sub_In in Hin. destruct Hin as [Hin|Hin]; [by apply Hchars|].
      revert Hin. change select_top with (txt "select top 50 "). cbn.
      intuition (subst; (reflexivity || discriminate)).
    + destruct (contains (txt "--") (sub _ _ _)) eqn:E; [|reflexivity].
      apply contains_lower in E. cbn [lower List.map txt list_ascii_of_string] in E.
      apply contains_split in E. destruct E as (a' & b' & HL').
      pose proof (inject_with_caps _ (clean_sql response) None None (Nat.le_refl _) Hc) as Hcaps.
      fold (sub select_ws select_top (clean_sql response)) in Hcaps.
      destruct (with_caps_split (txt "--") None _ _ Hcaps eq_refl a' b' HL')
        as (a & y & HL & _ & _).
      rewrite HL in Hdash. change (txt "--") with (txt "--") in Hdash.
      by rewrite contains_app in Hdash.
Qed.

(** X10: a statement [generate_sql] returns starts with [select], in any
    capitals. *)
Theorem generated_starts_with_select (llm : nat -> option str) (sql : str) :
  generate_sql llm = Some sql -> startswith (txt "select") (lower sql) = true.
Proof. apply generate_sql_starts_with_select. Qed.

Lemma generated_starts_with_select_witness :
  startswith (txt "select") (lower (txt "select top 50 name FROM Customers")) = true.
Proof.
  apply (generated_starts_with_select (fun _ => Some (txt "SELECT name FROM Customers;"))).
  vm_compute. reflexivity.
Defined.

(** X11: when the answers of the language model are text within Latin-1,
    the range of the text model, a statement [generate_sql] returns passes
    the executor's gate, with the row cap injected or not.  (Beyond
    Latin-1 the injection, which ignores case, also rewrites a keyword
    spelt with U+017F, which the gate, run before it on the lower-cased
    text, did not see.) *)
Theorem generated_passes_gate (llm : nat -> option str) (sql : str) :
  generate_sql llm = Some sql -> is_query_safe sql = true.
Proof. apply generate_sql_passes_gate. Qed.

Lemma generated_passes_gate_witness :
  is_query_safe (txt "select top 50 name FROM Customers") = true.
Proof.
  apply (generated_passes_gate (fun _ => Some (txt "SELECT name FROM Customers;"))).
  vm_compute. reflexivity.
Defined.

(** X12: a statement [generate_sql] returns is a single statement on one
    line: no semicolon, no slash or backslash, no newline, no pair of
    dashes, and its white space is single spaces. *)
Theorem generated_is_single_statement (llm : nat -> option str) (sql : str) :
  generate_sql llm = Some sql ->
  forallb (fun c => negb (is_slash c) && negb (eqc c ";") && negb (eqc c nl)) sql = true
  /\ contains (txt "--") sql = false
  /\ single_spaced sql = true.
Proof.
  intros H. apply generate_sql_accepted in H. destruct H as (k & r & _ & _ & H).
  apply accept_single_statement in H. destruct H as (Hs & Hc & Hd).
  split; [|split; assumption].
  apply forallb_forall. intros c Hin. destruct (Hc c Hin) as [H1 H2]. rewrite H1. cbn [negb andb].
  apply andb_true_iff. split; apply negb_true_iff.
  - destruct (eqc c ";") eqn:E; [|reflexivity]. by apply eqc_eq in E.
  - destruct (eqc c nl) eqn:E; [|reflexivity]. apply eqc_eq in E. subst.
    by apply single_spaced_no_newline in Hin.
Qed.

Lemma generated_is_single_statement_witness :
  forallb (fun c => negb (is_slash c) && negb (eqc c ";") && negb (eqc c nl))
    (txt "select top 50 name FROM Customers") = true
  /\ contains (txt "--") (txt "select top 50 name FROM Customers") = false
  /\ single_spaced (txt "select top 50 name FROM Customers") = true.
Proof.
  apply (generated_is_single_statement
           (fun _ => Some (txt "SELECT name" ++ nl :: txt "  FROM Customers;"))).
  vm_compute. reflexivity.
Defined.

Lemma generate_from_first (llm : nat -> option str) (response sql : str) :
  forall fuel k attempt : nat,
  (k < fuel)%nat -> (attempt + k < MAX_SQL_ATTEMPTS)%nat ->
  (forall j, (attempt <= j < attempt + k)%nat ->
     match llm j with Some r => accept r | None => None end = None) ->
  llm (attempt + k)%nat = Some response -> accept response = Some sql ->
  generate_from llm attempt fuel = Some sql.
Proof.
  induction fuel as [|fuel IH]; intros k attempt Hk Hmax Hrej Hl Ha; [lia|].
  cbn [generate_from]. destruct k as [|k].
  - rewrite Nat.add_0_r in Hl. by rewrite Hl, Ha.
  - rewrite (Hrej attempt) by lia.
    destruct (Nat.eqb_spec attempt (MAX_SQL_ATTEMPTS - 1)) as [E|_]; [lia|].
    apply (IH k (S attempt)); [lia|lia| |by rewrite <- Hl; f_equal; lia|exact Ha].
    intros j Hj. apply Hrej. lia.
Qed.

(** X13: [generate_sql] returns the statement of the first attempt whose
    answer passes the checks, among the [MAX_SQL_ATTEMPTS] attempts. *)
Theorem generate_sql_first_accepted (llm : nat -> option str) (k : nat) (response sql : str) :
  (k < MAX_SQL_ATTEMPTS)%nat ->
  (forall j, (j < k)%nat -> match llm j with Some r => accept r | None => None end = None) ->
  llm k = Some response -> accept response = Some sql ->
  generate_sql llm = Some sql.
Proof.
  intros Hk Hrej Hl Ha. unfold generate_sql.
  apply (generate_from_first llm response sql MAX_SQL_ATTEMPTS k 0); auto.
  intros j Hj. apply Hrej. lia.
Qed.

Lemma generate_sql_first_accepted_witness :
  generate_sql (fun attempt => match attempt with
                               | 0%nat => None
                               | 1%nat => Some (txt "DROP TABLE Orders")
                               | _ => Some (txt "SELECT name FROM Customers")
                               end)
  = Some (txt "select top 50 name FROM Customers").
Proof.
  apply (generate_sql_first_accepted _ 2 (txt "SELECT name FROM Customers")).
  - vm_compute. lia.
  - intros [|[|j]] Hj; [reflexivity|vm_compute; reflexivity|lia].
  - reflexivity.
  - vm_compute. reflexivity.
Defined.

(** X14: when the answers of all [MAX_SQL_ATTEMPTS] attempts fail,
    [generate_sql] returns nothing, whatever a later answer would be. *)
Theorem generate_sql_gives_up (llm : nat -> option str) :
  (forall j, (j < MAX_SQL_ATTEMPTS)%nat ->
     match llm j with Some r => accept r | None => None end = None) ->
  generate_sql llm = None.
Proof.
  intros Hrej. destruct (generate_sql llm) as [sql|] eqn:E; [|reflexivity].
  apply generate_sql_accepted in E. destruct E as (k & r & Hk & Hl & Ha).
  specialize (Hrej k Hk). rewrite Hl in Hrej. congruence.
Qed.

Lemma generate_sql_gives_up_witness :
  generate_sql (fun attempt => if (attempt <? 3)%nat then Some (txt "DELETE FROM Orders")
                               else Some (txt "SELECT name FROM Customers")) = None.
Proof.
  apply generate_sql_gives_up.
  intros [|[|[|j]]] Hj; [vm_compute; reflexivity..|vm_compute in Hj; lia].
Defined.

Lemma match_here_select_ws_space (prev : option ascii) (c0 c1 c2 c3 c4 c5 d : ascii) (s : str) :
  startswith (txt "select") (lower (c0 :: c1 :: c2 :: c3 :: c4 :: c5 :: d :: s)) = true ->
  is_space d = true ->
  match_here select_ws prev (c0 :: c1 :: c2 :: c3 :: c4 :: c5 :: d :: s) = Some (lstrip s).
Proof.
  intros H Hd. cbn [txt list_ascii_of_string lower List.map startswith] in H.
  repeat (apply andb_true_iff in H; let E := fresh "E" in destruct H as [E H]).
  assert (H0 : one_ci "s" c0 = true) by (unfold one_ci; apply eqc_eq in E; by rewrite <- E).
  assert (H1 : one_ci "e" c1 = true) by (unfold one_ci; apply eqc_eq in E0; by rewrite <- E0).
  assert (H2 : one_ci "l" c2 = true) by (unfold one_ci; apply eqc_eq in E1; by rewrite <- E1).
  assert (H3 : one_ci "e" c3 = true) by (unfold one_ci; apply eqc_eq in E2; by rewrite <- E2).
  assert (H4 : one_ci "c" c4 = true) by (unfold one_ci; apply eqc_eq in E3; by rewrite <- E3).
  assert (H5 : one_ci "t" c5 = true) by (unfold one_ci; apply eqc_eq in E4; by rewrite <- E4).
  unfold match_here, select_ws, lit_ci.
  cbn [txt list_ascii_of_string List.map cats].
  rewrite ?run_cat_assoc, run_cat_chr, H0.
  rewrite ?run_cat_assoc, run_cat_chr, H1.
  rewrite ?run_cat_assoc, run_cat_chr, H2.
  rewrite ?run_cat_assoc, run_cat_chr, H3.
  rewrite ?run_cat_assoc, run_cat_chr, H4.
  rewrite ?run_cat_assoc, run_cat_chr, H5.
  change (match_here (plus is_space) (Some c5) (d :: s) = Some (lstrip s)).
  by rewrite match_here_spaces, Hd.
Qed.

Lemma accept_cap_cases (response sql : str) :
  accept response = Some sql ->
  startswith (txt "select") (lower (clean_sql response)) = true
  /\ ((sql = clean_sql response /\ contains (txt "top 50") (lower sql) = true)
      \/ sql = sub select_ws select_top (clean_sql response)).
Proof.
  unfold accept. intros H.
  assert (Hs : strip (lower (clean_sql response)) = lower (clean_sql response)).
  { rewrite <- lower_strip. f_equal. apply strip_id.
    pose proof (clean_sql_collapsed response) as Hc. unfold collapsed in Hc.
    apply andb_true_iff in Hc. apply Hc. }
  rewrite Hs in H.
  destruct (startswith _ (lower (clean_sql response))) eqn:E; [|discriminate].
  cbn [negb] in H.
  repeat match type of H with
         | (if ?b then None else _) = _ => destruct b; [discriminate|]
         end.
  split; [reflexivity|].
  destruct (contains _ _) eqn:Ec; cbn [negb] in H; injection H as <-; auto.
Qed.

Lemma accept_row_cap (response sql : str) :
  accept response = Some sql -> nth_error sql 6 = Some " "%char ->
  contains (txt "top 50") (lower sql) = true.
Proof.
  intros H Hsp. destruct (accept_cap_cases _ _ H) as [Hsel [[_ Hc]| ->]]; [exact Hc|].
  assert (Hcap : forall x, contains (txt "top 50") (lower (select_top ++ x)) = true).
  { intros x. rewrite lower_app. apply (contains_app (txt "select ") (txt "top 50") (" "%char :: lower x)). }
  assert (Hnone : forall prev, match_here select_ws prev [] = None) by reflexivity.
  revert Hsp. unfold sub.
  destruct (clean_sql response) as [|c0 s]; [discriminate|].
  destruct (sub_from_cases select_ws select_top None c0 s)
    as [[Hm ->]|[(m & rest & _ & _ & ->)|[Hm _]]]; [|intros _; apply Hcap|].
  2:{ apply match_here_select_ws in Hm. destruct Hm as (_ & _ & Hlt). lia. }
  pose proof Hsel as Hsel'.
  cbn [txt list_ascii_of_string lower List.map startswith] in Hsel'.
  destruct s as [|c1 [|c2 [|c3 [|c4 [|c5 s]]]]]; cbn [List.map startswith] in Hsel';
    rewrite ?andb_false_r in Hsel'; try discriminate.
  repeat (apply andb_true_iff in Hsel'; let E := fresh "E" in destruct Hsel' as [E Hsel']).
  rewrite (sub_from_select_copy _ c1) by (by apply (one_ci_other "e")).
  rewrite (sub_from_select_copy _ c2) by (by apply (one_ci_other "l")).
  rewrite (sub_from_select_copy _ c3) by (by apply (one_ci_other "e")).
  rewrite (sub_from_select_copy _ c4) by (by apply (one_ci_other "c")).
  rewrite (sub_from_select_copy _ c5) by (by apply (one_ci_other "t")).
  cbn [nth_error]. destruct s as [|d s].
  - cbn [sub_from]. rewrite Hnone. discriminate.
  - destruct (sub_from_cases select_ws select_top (Some c5) d s)
      as [[_ ->]|[(m & rest & _ & _ & ->)|[Hm' _]]].
    + cbn [nth_error]. intros [= ->].
      rewrite (match_here_select_ws_space None c0 c1 c2 c3 c4 c5 " " s Hsel eq_refl) in Hm.
      discriminate.
    + discriminate.
    + apply match_here_select_ws in Hm'. destruct Hm' as (_ & _ & Hlt). lia.
Qed.

(** X15: a statement [generate_sql] returns whose leading [select] is
    followed by a space carries the row cap [top 50]. *)
Theorem generated_select_space_has_row_cap (llm : nat -> option str) (sql : str) :
  generate_sql llm = Some sql -> nth_error sql 6 = Some " "%char ->
  contains (txt "top 50") (lower sql) = true.
Proof.
  intros H Hsp. apply generate_sql_accepted in H. destruct H as (k & r & _ & _ & H).
  by apply (accept_row_cap r).
Qed.

Lemma generated_select_space_has_row_cap_witness :
  contains (txt "top 50") (lower (txt "select top 50 name FROM Customers")) = true.
Proof.
  apply (generated_select_space_has_row_cap (fun _ => Some (txt "SELECT name FROM Customers;"))).
  - vm_compute. reflexivity.
  - reflexivity.
Defined.

End SynthesisProperties.

Module ValidationProperties.
Import OllamaLLM TextFacts ReFacts SafetyGateFacts.

Lemma In_run_cat_plus (p : ascii -> bool) (r : regex) (m rest : str)
    (prev : option ascii) (q : pos) :
  m <> [] -> forallb p m = true -> In q (run r (prev_after prev m) rest) ->
  In q (run (Cat (plus p) r) prev (m ++ rest)).
Proof.
  intros Hne Hm Hq. destruct m as [|c m]; [done|].
  cbn [forallb] in Hm. apply andb_true_iff in Hm. destruct Hm as [Hc Hm].
  unfold plus. rewrite run_cat_assoc, run_cat_chr. cbn [app]. rewrite Hc.
  apply In_run_cat_star; [exact Hm|]. by rewrite prev_after_cons in Hq.
Qed.

Lemma In_run_lit (w : string) (prev : option ascii) (s : str) :
  In (prev_after prev (txt w), s) (run (lit w) prev (txt w ++ s)).
Proof. unfold lit. rewrite run_literal. by left. Qed.

(** A match of [join\s+table\s+.*=\s*target]. *)
Lemma search_join_to (table target : string) (a w1 w2 m w3 b : str) :
  txt table <> [] ->
  w1 <> [] -> forallb is_space w1 = true ->
  w2 <> [] -> forallb is_space w2 = true ->
  forallb dot m = true -> forallb is_space w3 = true ->
  search (join_to table target)
    (a ++ txt "join" ++ w1 ++ txt table ++ w2 ++ m ++ txt "=" ++ w3 ++ txt target ++ b) = true.
Proof.
  intros Ht Hn1 Hw1 Hn2 Hw2 Hm Hw3. unfold search. apply search_from_app, found.
  eexists. unfold join_to.
  change (cats [lit "join"; plus is_space; lit table; plus is_space; Star dot;
                lit "="; Star is_space; lit target])
    with (Cat (lit "join") (Cat (plus is_space) (Cat (lit table) (Cat (plus is_space)
            (Cat (Star dot) (Cat (lit "=") (Cat (Star is_space) (lit target)))))))).
  apply In_run_cat_lit; [discriminate|].
  apply In_run_cat_plus; [exact Hn1|exact Hw1|].
  apply In_run_cat_lit; [exact Ht|].
  apply In_run_cat_plus; [exact Hn2|exact Hw2|].
  apply In_run_cat_star; [exact Hm|].
  apply In_run_cat_lit; [discriminate|].
  apply In_run_cat_star; [exact Hw3|].
  apply In_run_lit.
Qed.

(** X16: a statement that joins one of the four table pairs without a
    direct relationship, on one line and in any capitals, is rejected by
    [_validate_sql]. *)
Theorem validate_sql_rejects_direct_join (sql a w1 w2 m w3 b : str) (table target : string) :
  In (table, target) [("customers", "employees.employeeid");
                      ("employees", "customers.customerid");
                      ("products", "employees.employeeid");
                      ("orders", "suppliers.supplierid")]%string ->
  lower sql = a ++ txt "join" ++ w1 ++ txt table ++ w2 ++ m ++ txt "=" ++ w3 ++ txt target ++ b ->
  w1 <> [] -> forallb is_space w1 = true ->
  w2 <> [] -> forallb is_space w2 = true ->
  forallb dot m = true -> forallb is_space w3 = true ->
  validate_sql sql = false.
Proof.
  intros Hin Hq Hn1 Hw1 Hn2 Hw2 Hm Hw3.
  assert (Hs : search (join_to table target) (lower sql) = true).
  { rewrite Hq. apply search_join_to; try assumption.
    destruct Hin as [[= <- <-]|[[= <- <-]|[[= <- <-]|[[= <- <-]|[]]]]]; discriminate. }
  unfold validate_sql.
  destruct Hin as [[= <- <-]|[[= <- <-]|[[= <- <-]|[[= <- <-]|[]]]]].
  - rewrite Hs. reflexivity.
  - rewrite Hs, orb_true_r. reflexivity.
  - destruct (_ || _); [reflexivity|]. cbn [invalid_joins existsb]. rewrite Hs. reflexivity.
  - destruct (_ || _); [reflexivity|]. cbn [invalid_joins existsb]. rewrite Hs, orb_true_r.
    reflexivity.
Qed.

Lemma validate_sql_rejects_direct_join_witness :
  validate_sql (txt "SELECT * FROM Orders o JOIN Customers c ON c.x = Employees.EmployeeID") = false.
Proof.
  apply (validate_sql_rejects_direct_join _ (txt "select * from orders o ") (txt " ") (txt " ")
           (txt "c on c.x ") (txt " ") [] "customers" "employees.employeeid").
  - cbn. tauto.
  - reflexivity.
  - discriminate.
  - reflexivity.
  - discriminate.
  - reflexivity.
  - reflexivity.
  - reflexivity.
Defined.

End ValidationProperties.

Module SanitizeProperties.
Import OllamaLLM TextFacts ReFacts OllamaLLMFacts.

(** X17: no run of ten or more digits between word boundaries is left in
    a sanitised value. *)
Theorem sanitized_has_no_long_number (value : str) :
  search long_number (sanitize_data value) = false.
Proof. apply sanitize_data_no_long_number. Qed.

(** X18: a sanitised value contains none of the sensitive terms, in any
    capitals, and never the marker [[PHONE]]: a value in which a number
    was replaced by the marker is redacted as a whole. *)
Theorem sanitized_has_no_sensitive_term (value : str) :
  existsb (fun word => contains word (lower (sanitize_data value))) sensitive_words = false
  /\ contains (txt "[PHONE]") (sanitize_data value) = false.
Proof.
  unfold sanitize_data.
  set (v := sub long_number (txt "[PHONE]") (sub email (txt "[EMAIL]") value)).
  set (b := existsb (fun word => contains word (lower v)) sensitive_words).
  assert (E : existsb (fun word => contains word (lower v)) sensitive_words = b) by reflexivity.
  clearbody b. destruct b; [split; reflexivity|].
  split; [exact E|].
  destruct (contains (txt "[PHONE]") v) eqn:Ec; [|reflexivity].
  apply contains_lower, contains_tail in Ec.
  apply (contains_prefix (txt "phone") (txt "]")) in Ec.
  rewrite <- E. symmetry. apply existsb_exists. exists (txt "phone").
  split; [cbn; tauto|exact Ec].
Qed.

End SanitizeProperties.


Module DriverCallProperties.
Import Executor Calls ExecutorFacts.

Lemma executed_app (t1 t2 : trace) : executed (t1 ++ t2) = executed t1 ++ executed t2.
Proof. apply flat_map_app. Qed.

Lemma connects_app (t1 t2 : trace) : connects (t1 ++ t2) = connects t1 ++ connects t2.
Proof. apply flat_map_app. Qed.

(** The retry loop connects at consecutive attempts, never more often
    than it has fuel, and a connection it yields is that of the last; it
    hands the driver no statement. *)
Lemma get_connection_calls (d : driver) (held : bool) : forall fuel attempt : nat,
  exists k, (k <= fuel)%nat
    /\ connects (snd (get_connection d held attempt fuel)) = seq attempt k
    /\ executed (snd (get_connection d held attempt fuel)) = []
    /\ forall a, fst (get_connection d held attempt fuel) = inr a -> (S a = attempt + k)%nat.
Proof.
  induction fuel as [|fuel IH]; intros attempt; cbn [get_connection].
  - exists 0%nat. repeat split; [lia|discriminate].
  - destruct (negb (env_set d)); [exists 0%nat; repeat split; [lia|discriminate]|].
    destruct (connect d attempt) as [[text|]|].
    + destruct (IH (S attempt)) as (k & Hk & Ht & Hx & Ha). exists (S k). cbn [fst snd].
      split; [lia|]. split; [|split].
      * change (EvConnect attempt :: (if held then [EvClose] else []) ++ snd (get_connection d held (S attempt) fuel))
          with ([EvConnect attempt] ++ (if held then [EvClose] else []) ++ snd (get_connection d held (S attempt) fuel)).
        rewrite !connects_app, Ht. by destruct held.
      * change (EvConnect attempt :: (if held then [EvClose] else []) ++ snd (get_connection d held (S attempt) fuel))
          with ([EvConnect attempt] ++ (if held then [EvClose] else []) ++ snd (get_connection d held (S attempt) fuel)).
        rewrite !executed_app, Hx. by destruct held.
      * intros a H. specialize (Ha a H). lia.
    + exists 1%nat. repeat split; [lia|discriminate].
    + exists 1%nat. repeat split; [lia|]. intros a [= <-]. lia.
Qed.

(** Before any connection was made the trace of the loop is its
    connection attempts. *)
Lemma get_connection_trace (d : driver) : forall fuel attempt : nat,
  exists k, (k <= fuel)%nat
    /\ snd (get_connection d false attempt fuel) = List.map EvConnect (seq attempt k)
    /\ forall a, fst (get_connection d false attempt fuel) = inr a -> (S a = attempt + k)%nat.
Proof.
  induction fuel as [|fuel IH]; intros attempt; cbn [get_connection].
  - exists 0%nat. repeat split; [lia|discriminate].
  - destruct (negb (env_set d)); [exists 0%nat; repeat split; [lia|discriminate]|].
    destruct (connect d attempt) as [[text|]|].
    + destruct (IH (S attempt)) as (k & Hk & Ht & Ha). exists (S k). cbn [fst snd app].
      repeat split; [lia|by rewrite Ht|]. intros a H. specialize (Ha a H). lia.
    + exists 1%nat. repeat split; [lia|discriminate].
    + exists 1%nat. repeat split; [lia|]. intros a [= <-]. lia.
Qed.

Lemma body_calls (d : driver) (query : str) :
  connects (snd (body d query)) = []
  /\ (executed (snd (body d query)) = [] \/ executed (snd (body d query)) = [query]).
Proof.
  unfold body. destruct (open_cursor d); [by split; [|left]|].
  destruct (execute d query) as [[text|]|[[|c cols]|] [rows'|[text|]]];
    cbn [fst snd]; destruct (close_cursor d); cbn; auto.
Qed.

Lemma retry_calls (d : driver) (attempt : nat) :
  exists k, (k <= MAX_SQL_ATTEMPTS - S attempt)%nat
    /\ connects (retry d attempt) = seq (S attempt) k
    /\ executed (retry d attempt) = [].
Proof.
  unfold retry.
  destruct (get_connection_calls d true (MAX_SQL_ATTEMPTS - S attempt) (S attempt))
    as (k & Hk & Hc & Hx & _).
  exists k. split; [exact Hk|].
  change (EvClose :: ?t) with ([EvClose] ++ t).
  rewrite !connects_app, !executed_app, Hc, Hx.
  split; destruct (fst _); cbn; by rewrite ?app_nil_r.
Qed.

Lemma get_connection_raise_calls (d : driver) (attempt : nat) (e : exn) :
  exists k, (k <= MAX_SQL_ATTEMPTS - S attempt)%nat
    /\ connects (get_connection_raise d attempt e) = seq (S attempt) k
    /\ executed (get_connection_raise d attempt e) = [].
Proof.
  unfold get_connection_raise. rewrite connects_app, executed_app.
  destruct (after_rollback d e) as [text|].
  - destruct (retry_calls d attempt) as (k & Hk & -> & ->). by exists k.
  - exists 0%nat. split; [lia|]. split; reflexivity.
Qed.

(** The driver calls of [execute_query]: none, or, after both guards
    passed, connection attempts 0, 1, ... and the calls of the body. *)
Lemma execute_query_calls (d : driver) (query : str) :
  snd (execute_query d query) = []
  \/ (startswith (txt "select") (lower (strip query)) = true /\ is_query_safe query = true
      /\ (exists n, (n <= MAX_SQL_ATTEMPTS)%nat
                    /\ connects (snd (execute_query d query)) = seq 0 n)
      /\ (executed (snd (execute_query d query)) = []
          \/ executed (snd (execute_query d query)) = [query])).
Proof.
  unfold execute_query.
  destruct (startswith _ _); cbn [negb]; [|by left].
  destruct (is_query_safe query); cbn [negb]; [|by left].
  right. split; [reflexivity|]. split; [reflexivity|].
  destruct (get_connection_calls d false MAX_SQL_ATTEMPTS 0) as (k & Hk & Hc & Hx & Ha).
  destruct (get_connection d false 0 MAX_SQL_ATTEMPTS) as [[e|attempt] t]; cbn [fst snd] in *.
  { split; [by exists k|by left]. }
  specialize (Ha attempt eq_refl). cbn [Nat.add] in Ha.
  destruct (body_calls d query) as [Hbc Hbx].
  destruct (body d query) as [[e|result] tb]; cbn [snd] in *.
  - destruct (get_connection_raise_calls d attempt e) as (k' & Hk' & Hc' & Hx').
    rewrite !connects_app, !executed_app, Hc, Hx, Hbc, Hc', Hx'. cbn [app].
    rewrite app_nil_r. split; [|exact Hbx].
    exists (k + k')%nat. split; [lia|]. rewrite seq_app. cbn [Nat.add]. by rewrite Ha.
  - destruct (commit d) as [e|]; cbn [snd].
    + destruct (get_connection_raise_calls d attempt e) as (k' & Hk' & Hc' & Hx').
      change (EvCommit :: get_connection_raise d attempt e)
        with ([EvCommit] ++ get_connection_raise d attempt e).
      rewrite !connects_app, !executed_app, Hc, Hx, Hbc, Hc', Hx'. cbn [app connects executed flat_map].
      rewrite app_nil_r. split; [|exact Hbx].
      exists (k + k')%nat. split; [lia|]. rewrite seq_app. cbn [Nat.add]. by rewrite Ha.
    + rewrite !connects_app, !executed_app, Hc, Hx, Hbc. cbn [app connects executed flat_map].
      rewrite !app_nil_r. split; [by exists k|exact Hbx].
Qed.

Lemma execute_query_executed (d : driver) (query : str) :
  executed (snd (execute_query d query)) = []
  \/ (executed (snd (execute_query d query)) = [query]
      /\ startswith (txt "select") (lower (strip query)) = true
      /\ is_query_safe query = true).
Proof.
  destruct (execute_query_calls d query) as [->|(H1 & H2 & _ & [H|H])]; auto.
Qed.

(** X19: [execute_query] hands the driver no statement but the one it was
    given, at most once, and only when the statement passed both guards. *)
Theorem execute_query_runs_only_guarded_statement (d : driver) (query : str) :
  executed (snd (execute_query d query)) = []
  \/ (executed (snd (execute_query d query)) = [query]
      /\ startswith (txt "select") (lower (strip query)) = true
      /\ is_query_safe query = true).
Proof. apply execute_query_executed. Qed.

(** X20: for one query the driver is asked to connect at most
    [MAX_SQL_ATTEMPTS] times, at attempts 0, 1, ... in order, the attempts
    made after a failure inside the transaction included. *)
Theorem execute_query_connects_at_most_max (d : driver) (query : str) :
  exists n, (n <= MAX_SQL_ATTEMPTS)%nat
    /\ connects (snd (execute_query d query)) = seq 0 n.
Proof.
  destruct (execute_query_calls d query) as [->|(_ & _ & H & _)]; [|exact H].
  exists 0%nat. split; [lia|reflexivity].
Qed.

(** X21: rows come back without an error only after one fixed course of
    driver calls: connection attempts up to the one that connects, the
    cursor, the statement, the fetch, commit and close; the rows are the
    fetched rows zipped with the column names. *)
Theorem execute_query_rows_trace (d : driver) (query : str) (rows : list record) :
  fst (execute_query d query) = (rows, None) ->
  exists k columns fetched,
    (k < MAX_SQL_ATTEMPTS)%nat
    /\ execute d query = Executed (Some columns) (Fetched fetched)
    /\ rows = List.map (dict_zip columns) fetched
    /\ snd (execute_query d query)
       = List.map EvConnect (seq 0 (S k))
         ++ [EvCursor; EvExecute query; EvFetch; EvCommit; EvClose].
Proof.
  unfold execute_query.
  destruct (negb (startswith _ _)); [discriminate|].
  destruct (negb (is_query_safe query)); [discriminate|].
  destruct (get_connection_trace d MAX_SQL_ATTEMPTS 0) as (k & Hk & Ht & Ha).
  destruct (get_connection d false 0 MAX_SQL_ATTEMPTS) as [[e|attempt] t]; cbn [fst snd] in *;
    [discriminate|].
  specialize (Ha attempt eq_refl). cbn [Nat.add] in Ha. subst t k.
  unfold body, sql_error. destruct (open_cursor d); [discriminate|].
  destruct (execute d query) as [[text|]|[[|c cols]|] [fetched|[text|]]];
    cbn [fst snd]; destruct (close_cursor d); cbn [fst snd]; try discriminate;
    destruct (commit d); cbn [fst snd]; try discriminate.
  intros [= <-]. exists attempt, (c :: cols), fetched.
  split; [lia|]. split; [reflexivity|]. split; reflexivity.
Qed.

Lemma execute_query_rows_trace_witness :
  exists k columns fetched,
    (k < MAX_SQL_ATTEMPTS)%nat
    /\ execute one_row_driver (txt "select 1") = Executed (Some columns) (Fetched fetched)
    /\ [[([], Some (txt "1"))]] = List.map (dict_zip columns) fetched
    /\ snd (execute_query one_row_driver (txt "select 1"))
       = List.map EvConnect (seq 0 (S k))
         ++ [EvCursor; EvExecute (txt "select 1"); EvFetch; EvCommit; EvClose].
Proof.
  apply (execute_query_rows_trace one_row_driver (txt "select 1")).
  vm_compute. reflexivity.
Defined.

End DriverCallProperties.

Module RowProperties.
Import Executor Rows.

Lemma str_eqb_true (a b : str) : str_eqb a b = true <-> a = b.
Proof. unfold str_eqb. apply bool_decide_eq_true. Qed.

Lemma str_eqb_false (a b : str) : str_eqb a b = false <-> a <> b.
Proof. unfold str_eqb. apply bool_decide_eq_false. Qed.

Lemma dict_set_In (d : record) (k x : str) (v y : cell) :
  In (x, y) (dict_set d k v) -> (x = k /\ y = v) \/ In (x, y) d.
Proof.
  induction d as [|[k' v'] d IH]; cbn [dict_set].
  - intros [[= <- <-]|[]]. by left.
  - destruct (str_eqb k' k) eqn:E.
    + apply str_eqb_true in E. subst. intros [[= <- <-]|H]; [by left|right; by right].
    + intros [H|H]; [right; by left|]. destruct (IH H); [by left|right; by right].
Qed.

Lemma dict_set_key_In (d : record) (k x : str) (v : cell) :
  In x (List.map fst (dict_set d k v)) -> x = k \/ In x (List.map fst d).
Proof.
  intros H. apply in_map_iff in H. destruct H as ([x' y] & <- & H).
  destruct (dict_set_In _ _ _ _ _ H) as [[-> _]|H']; [by left|].
  right. apply in_map_iff. by exists (x', y).
Qed.

Lemma dict_set_NoDup (d : record) (k : str) (v : cell) :
  List.NoDup (List.map fst d) -> List.NoDup (List.map fst (dict_set d k v)).
Proof.
  induction d as [|[k' v'] d IH]; cbn [dict_set List.map fst]; intros H.
  - constructor; [intros []|constructor].
  - inversion H as [|? ? Hk Hd]; subst. destruct (str_eqb k' k) eqn:E.
    + cbn [List.map fst]. by constructor.
    + cbn [List.map fst]. constructor; [|by apply IH].
      intros Hin. apply dict_set_key_In in Hin. destruct Hin as [->|Hin]; [|done].
      by apply str_eqb_false in E.
Qed.

Lemma dict_zip_onto_NoDup (columns : list str) : forall (row : list cell) (d : record),
  List.NoDup (List.map fst d) -> List.NoDup (List.map fst (dict_zip_onto d columns row)).
Proof.
  induction columns as [|c columns IH]; intros row d Hd; [exact Hd|].
  destruct row as [|x row]; [exact Hd|]. cbn [dict_zip_onto].
  apply IH. by apply dict_set_NoDup.
Qed.

Lemma dict_get_set (d : record) (k x : str) (v : cell) :
  dict_get (dict_set d k v) x = if str_eqb k x then Some v else dict_get d x.
Proof.
  unfold dict_get. induction d as [|[k' v'] d IH]; cbn [dict_set List.find fst].
  - by destruct (str_eqb k x).
  - destruct (str_eqb k' k) eqn:E.
    + apply str_eqb_true in E. subst k'. cbn [List.find fst].
      by destruct (str_eqb k x).
    + cbn [List.find fst]. destruct (str_eqb k' x) eqn:E1; [|exact IH].
      apply str_eqb_true in E1. subst k'. destruct (str_eqb k x) eqn:E2; [|reflexivity].
      apply str_eqb_true in E2. subst k. apply str_eqb_false in E. done.
Qed.

Lemma dict_get_app (l1 l2 : record) (x : str) :
  dict_get (l1 ++ l2) x = match dict_get l1 x with
                          | Some v => Some v
                          | None => dict_get l2 x
                          end.
Proof.
  unfold dict_get. induction l1 as [|[k v] l1 IH]; [reflexivity|].
  cbn [app List.find fst]. by destruct (str_eqb k x).
Qed.

Lemma dict_zip_onto_get (x : str) (columns : list str) : forall (row : list cell) (d : record),
  dict_get (dict_zip_onto d columns row) x
  = match dict_get (rev (combine columns row)) x with
    | Some v => Some v
    | None => dict_get d x
    end.
Proof.
  induction columns as [|c columns IH]; intros row d; [reflexivity|].
  destruct row as [|v row]; [reflexivity|]. cbn [dict_zip_onto combine rev].
  rewrite IH, dict_get_app, dict_get_set.
  destruct (dict_get (rev (combine columns row)) x); [reflexivity|].
  unfold dict_get at 2. cbn [List.find fst]. by destruct (str_eqb c x).
Qed.

(** X22: a row built by [dict(zip(columns, row))] has every column name
    once, however often the result set repeats it, and under a name the
    last value the fetched row has for it: looking a name up in the row
    is looking it up in the zipped pairs from the last to the first. *)
Theorem dict_zip_keys_distinct (columns : list str) (row : list cell) :
  List.NoDup (List.map fst (dict_zip columns row))
  /\ forall k, dict_get (dict_zip columns row) k = dict_get (rev (combine columns row)) k.
Proof.
  split.
  - apply dict_zip_onto_NoDup. constructor.
  - intros k. unfold dict_zip. rewrite dict_zip_onto_get.
    by destruct (dict_get (rev (combine columns row)) k).
Qed.

End RowProperties.

Module SchemaProperties.
Import SchemaCache Tables SchemaCacheFacts RowProperties.

Lemma lookup_add_column (ts : list (str * TableInfo)) (key k : str) (col : ColumnInfo) :
  lookup_table (add_column ts key col) k
  = if str_eqb key k
    then Some (key, {| columns := match lookup_table ts key with
                                  | Some kt => columns (snd kt)
                                  | None => []
                                  end ++ [col];
                       primary_keys := match lookup_table ts key with
                                       | Some kt => primary_keys (snd kt)
                                       | None => []
                                       end |})
    else lookup_table ts k.
Proof.
  unfold lookup_table. induction ts as [|[k0 t] ts IH]; cbn [add_column List.find fst snd].
  - destruct (str_eqb key k); reflexivity.
  - destruct (str_eqb k0 key) eqn:E0.
    + apply str_eqb_true in E0. subst k0. cbn [List.find fst snd].
      destruct (str_eqb key k); reflexivity.
    + cbn [List.find fst snd]. destruct (str_eqb k0 k) eqn:E1.
      * apply str_eqb_true in E1. subst k0. destruct (str_eqb key k) eqn:E2; [|reflexivity].
        apply str_eqb_true in E2. subst key. apply str_eqb_false in E0. done.
      * exact IH.
Qed.

Lemma add_column_key_In (ts : list (str * TableInfo)) (key x : str) (col : ColumnInfo) :
  In x (List.map fst (add_column ts key col)) -> x = key \/ In x (List.map fst ts).
Proof.
  induction ts as [|[k0 t] ts IH]; cbn [add_column].
  - intros [<-|[]]. by left.
  - destruct (str_eqb k0 key); cbn [List.map fst].
    + intros [<-|H]; right; [by left|by right].
    + intros [<-|H]; [right; by left|]. destruct (IH H); [by left|right; by right].
Qed.

Lemma add_column_NoDup (ts : list (str * TableInfo)) (key : str) (col : ColumnInfo) :
  List.NoDup (List.map fst ts) -> List.NoDup (List.map fst (add_column ts key col)).
Proof.
  induction ts as [|[k0 t] ts IH]; cbn [add_column List.map fst]; intros H.
  - constructor; [intros []|constructor].
  - inversion H as [|? ? Hk Hd]; subst. destruct (str_eqb k0 key) eqn:E; cbn [List.map fst].
    + by constructor.
    + constructor; [|by apply IH]. intros Hin. apply add_column_key_In in Hin.
      destruct Hin as [->|Hin]; [|done]. by apply str_eqb_false in E.
Qed.

Lemma lookup_NoDup (ts : list (str * TableInfo)) (k : str) (t : TableInfo) :
  List.NoDup (List.map fst ts) -> In (k, t) ts -> lookup_table ts k = Some (k, t).
Proof.
  unfold lookup_table. induction ts as [|[k0 t0] ts IH]; [intros _ []|].
  cbn [List.map fst List.find]. intros H Hin. inversion H as [|? ? Hk Hd]; subst.
  destruct Hin as [[= -> ->]|Hin].
  - by rewrite (proj2 (str_eqb_true k k) eq_refl).
  - destruct (str_eqb k0 k) eqn:E; [|by apply IH].
    apply str_eqb_true in E. subst k0. exfalso. apply Hk. apply in_map_iff. by exists (k, t).
Qed.

Lemma lookup_In (ts : list (str * TableInfo)) (k : str) (kt : str * TableInfo) :
  lookup_table ts k = Some kt -> In k (List.map fst ts).
Proof.
  unfold lookup_table. intros H. apply find_some in H. destruct H as [Hin E].
  apply str_eqb_true in E. subst k. by apply in_map.
Qed.

Lemma rows_of_none (k : str) (rows : list schema_row) :
  existsb (fun row => str_eqb (table_key row) k) rows = false -> rows_of k rows = [].
Proof.
  unfold rows_of. induction rows as [|row rows IH]; [reflexivity|]. cbn [existsb List.filter].
  intros H. apply orb_false_iff in H. destruct H as [-> H]. by apply IH.
Qed.

(** The loop over the rows of the column query keeps the table keys
    distinct and, under each key, the columns of the rows seen so far. *)
Lemma organize_loop (rows : list schema_row) :
  let ts := List.fold_left (fun ts row => add_column ts (table_key row) (column_of row)) rows [] in
  List.NoDup (List.map fst ts)
  /\ forall k, lookup_table ts k
       = if existsb (fun row => str_eqb (table_key row) k) rows
         then Some (k, {| columns := List.map column_of (rows_of k rows); primary_keys := [] |})
         else None.
Proof.
  induction rows as [|row rows IH] using rev_ind; [split; [constructor|reflexivity]|].
  cbn zeta in *. rewrite fold_left_app. cbn [List.fold_left].
  destruct IH as [IH1 IH2]. split; [by apply add_column_NoDup|].
  intros k. rewrite lookup_add_column, existsb_app. unfold rows_of. rewrite List.filter_app.
  cbn [existsb List.filter]. destruct (str_eqb (table_key row) k) eqn:E.
  - apply str_eqb_true in E. subst k. rewrite orb_true_r, IH2.
    destruct (existsb _ rows) eqn:Ex; cbn [snd columns primary_keys].
    + by rewrite List.map_app.
    + fold (rows_of (table_key row) rows). by rewrite (rows_of_none _ _ Ex).
  - rewrite orb_false_r, app_nil_r. apply IH2.
Qed.

(** X23: [get_schema_info] groups the rows of the column query by table
    key: the keys are distinct, every row's key is there, a table's
    columns are those of its rows in the order of the rows, and no
    primary key is ever recorded. *)
Theorem organize_groups_rows_by_table (schema_data : list schema_row) (fk_data : list fk_row) :
  List.NoDup (List.map fst (tables (organize schema_data fk_data)))
  /\ List.Forall (fun row => In (table_key row) (List.map fst (tables (organize schema_data fk_data))))
       schema_data
  /\ List.Forall (fun kt => columns (snd kt) = List.map column_of (rows_of (fst kt) schema_data)
                            /\ primary_keys (snd kt) = [])
       (tables (organize schema_data fk_data)).
Proof.
  unfold organize. cbn [tables].
  destruct (organize_loop schema_data) as [H1 H2]. cbn zeta in H1, H2.
  split; [exact H1|]. split.
  - apply List.Forall_forall. intros row Hin.
    assert (Hex : existsb (fun r => str_eqb (table_key r) (table_key row)) schema_data = true).
    { apply existsb_exists. exists row. split; [exact Hin|]. by apply str_eqb_true. }
    specialize (H2 (table_key row)). rewrite Hex in H2. by apply lookup_In in H2.
  - apply List.Forall_forall. intros [k t] Hin. cbn [fst snd].
    pose proof (lookup_NoDup _ _ _ H1 Hin) as Hl. rewrite H2 in Hl.
    destruct (existsb _ schema_data); [|discriminate]. by injection Hl as <-.
Qed.

Section Refresh.

Variable content : Type.
Variable json_dump : SchemaInfo -> content.
Variable json_load : content -> option SchemaInfo.

Hypothesis json_round_trip : forall s : SchemaInfo, json_load (json_dump s) = Some s.

(** X24: a forced refresh that returns ignores the cache file: it returns
    what the database says, writes that to the file, and a plain read
    afterwards returns the same. *)
Theorem forced_refresh_replaces_cache (w w1 : world content) (s : SchemaInfo) :
  get_schema_info json_dump json_load w true = (Some s, w1) ->
  (exists schema_data fk_data,
     introspect w = Some (schema_data, fk_data) /\ s = organize schema_data fk_data)
  /\ cache_file w1 = Some (json_dump s)
  /\ get_schema_info json_dump json_load w1 false = (Some s, w1).
Proof using json_round_trip.
  intros H. split; [|split].
  - unfold get_schema_info in H.
    destruct (introspect w) as [[schema_data fk_data]|]; [|discriminate].
    destruct (writable w); [|discriminate]. injection H as <- _. by exists schema_data, fk_data.
  - unfold get_schema_info in H.
    destruct (introspect w) as [[schema_data fk_data]|]; [|discriminate].
    destruct (writable w); [|discriminate]. by injection H as <- <-.
  - by apply (read_after_return content json_dump json_load json_round_trip w w1 true).
Qed.

End Refresh.

Lemma forced_refresh_replaces_cache_witness :
  (exists schema_data fk_data,
     introspect (write_cache fresh_world (organize [] [])) = Some (schema_data, fk_data)
     /\ organize customers_rows [] = organize schema_data fk_data)
  /\ cache_file (write_cache fresh_world (organize customers_rows []))
     = Some (organize customers_rows [])
  /\ get_schema_info id Some (write_cache fresh_world (organize customers_rows [])) false
     = (Some (organize customers_rows []), write_cache fresh_world (organize customers_rows [])).
Proof.
  apply (forced_refresh_replaces_cache SchemaInfo id Some (fun s => eq_refl)
           (write_cache fresh_world (organize [] []))).
  reflexivity.
Defined.

End SchemaProperties.

Module LimiterProperties.
Import RateLimiter RateLimiterFacts.

(** X25: the answers a caller gets depend on the clock readings of that
    caller's own calls only: the calls of other users, wherever they fall
    in the schedule, change nothing. *)
Theorem other_callers_do_not_matter (st : state) (user_id : Z) (calls1 calls2 : list (Z * Q)) :
  times_of user_id calls1 = times_of user_id calls2 ->
  answers_of user_id (fst (run_calls st calls1)) = answers_of user_id (fst (run_calls st calls2)).
Proof.
  intros H.
  rewrite (proj1 (run_calls_window user_id calls1 st)).
  rewrite (proj1 (run_calls_window user_id calls2 st)).
  by rewrite H.
Qed.

Lemma other_callers_do_not_matter_witness :
  answers_of 7 (fst (run_calls init ten_calls))
  = answers_of 7 (fst (run_calls init ((8%Z, 0%Q) :: ten_calls ++ [(9%Z, 5%Q)]))).
Proof.
  apply other_callers_do_not_matter. reflexivity.
Defined.

(** X26: after a call, accepted or not, every reading kept for the caller
    is less than 60 seconds old, and the entries of the other users are
    as they were. *)
Theorem window_after_call_is_fresh (st : state) (user_id : Z) (now : Q) :
  List.Forall (fun t => (now - t < 60)%Q) (window_of (snd (check_rate_limit st user_id now)) user_id)
  /\ delete user_id (snd (check_rate_limit st user_id now)) = delete user_id st.
Proof.
  rewrite check_rate_limit_window. cbn [snd]. rewrite window_of_insert. split.
  - assert (Hp : List.Forall (fun t => (now - t < 60)%Q) (purge now (window_of st user_id))).
    { apply List.Forall_forall. intros t Hin. unfold purge in Hin.
      apply List.filter_In in Hin. destruct Hin as [_ Hin]. by apply fresh_iff. }
    unfold step_window.
    destruct (MAX_REQUESTS_PER_MINUTE <=? _)%nat; cbn [snd]; [exact Hp|].
    apply List.Forall_app. split; [exact Hp|]. constructor; [|constructor]. lra.
  - apply delete_insert_eq.
Qed.

End LimiterProperties.


Module GreetingProperties.
Import Bot TextFacts ReFacts SafetyGateFacts.

Lemma run_literal_ci (w : str) : forall (m b : str) (prev : option ascii),
  lower m = lower w ->
  run (cats (List.map (fun a => Chr (one_ci a)) w)) prev (m ++ b) = [(prev_after prev m, b)].
Proof.
  induction w as [|a w IH]; intros m b prev H.
  - destruct m; [reflexivity|discriminate].
  - destruct m as [|c m]; [discriminate|]. cbn [lower List.map] in H.
    injection H as Hc Hm. destruct w as [|a' w].
    + destruct m; [|discriminate]. cbn. unfold one_ci, eqc. rewrite Hc.
      by rewrite Ascii.eqb_refl.
    + change (cats (List.map (fun a => Chr (one_ci a)) (a :: a' :: w)))
        with (Cat (Chr (one_ci a)) (cats (List.map (fun a => Chr (one_ci a)) (a' :: w)))).
      rewrite run_cat_chr. cbn [app]. unfold one_ci at 1, eqc. rewrite Hc, Ascii.eqb_refl.
      apply (IH m b (Some c)). exact Hm.
Qed.

Lemma word_before_lower (m : str) : forall prev prev' : option ascii,
  m <> [] -> word_before (prev_after prev m) = word_before (prev_after prev' (lower m)).
Proof.
  induction m as [|c m IH]; intros prev prev' H; [done|].
  destruct m as [|c' m].
  - cbn. by rewrite lower_char_word.
  - change (word_before (prev_after (Some c) (c' :: m))
            = word_before (prev_after (Some (lower_char c)) (lower (c' :: m)))).
    apply IH. discriminate.
Qed.

Lemma word_after_lower (m : str) : word_after m = word_after (lower m).
Proof. destruct m as [|c m]; [reflexivity|]. cbn. by rewrite lower_char_word. Qed.

Lemma greeting_ends_in_word (greeting : string) (prev : option ascii) :
  In greeting greetings ->
  lower (txt greeting) = txt greeting
  /\ word_before (prev_after prev (txt greeting)) = true /\ word_after (txt greeting) = true.
Proof.
  intros H. repeat (destruct H as [<-|H]; [by repeat split|]). destruct H.
Qed.

(** X27: a message that contains one of the greetings as a whole word, in
    any capitals, is taken for a greeting, whatever else it says. *)
Theorem greeting_word_detected (text a m b : str) (greeting : string) :
  In greeting greetings ->
  text = a ++ m ++ b -> lower m = txt greeting ->
  word_before (prev_after None a) = false -> word_after b = false ->
  is_greeting text = true.
Proof.
  intros Hg -> Hm Ha Hb. unfold is_greeting. apply existsb_exists. exists greeting.
  split; [exact Hg|].
  destruct (greeting_ends_in_word greeting None Hg) as (Hlow & Hlast & Hfirst).
  assert (Hne : m <> []).
  { intros ->. rewrite <- Hm in Hfirst. discriminate. }
  unfold search. apply search_from_app, found. eexists. unfold greeting_pattern.
  change (cats [WordB; lit_ci greeting; WordB])
    with (Cat WordB (Cat (lit_ci greeting) WordB)).
  apply In_run_cat_wordb.
  { unfold at_boundary. rewrite Ha. rewrite word_after_app by exact Hne.
    by rewrite word_after_lower, Hm, Hfirst. }
  eapply In_run_cat.
  - unfold lit_ci. rewrite run_literal_ci by (by rewrite Hlow). by left.
  - cbn [fst snd]. apply In_run_wordb. unfold at_boundary.
    rewrite (word_before_lower m _ None Hne), Hm, Hlast, Hb. reflexivity.
Qed.

Lemma greeting_word_detected_witness :
  is_greeting (txt "Oh, HELLO there: drop the Orders table") = true.
Proof.
  apply (greeting_word_detected _ (txt "Oh, ") (txt "HELLO")
           (txt " there: drop the Orders table") "hello").
  - cbn. tauto.
  - reflexivity.
  - reflexivity.
  - reflexivity.
  - reflexivity.
Defined.

End GreetingProperties.

Module ChunkProperties.
Import Bot.

Lemma range_from_lt (step stop : nat) : forall fuel start i : nat,
  In i (range_from fuel start stop step) -> (i < stop)%nat.
Proof.
  induction fuel as [|fuel IH]; intros start i; cbn [range_from]; [intros []|].
  destruct (Nat.ltb_spec start stop) as [Hlt|_]; [|intros []].
  intros [<-|H]; [exact Hlt|by apply (IH _ _ H)].
Qed.

Lemma chunks_from {A : Type} (size : nat) (text : list A) : forall fuel start : nat,
  (0 < size)%nat -> (length text - start <= fuel)%nat ->
  concat (List.map (fun i => slice text i (i + size)) (range_from fuel start (length text) size))
  = skipn start text.
Proof.
  induction fuel as [|fuel IH]; intros start Hsize Hfuel; cbn [range_from].
  - cbn. symmetry. apply skipn_all2. lia.
  - destruct (Nat.ltb_spec start (length text)) as [Hlt|Hge].
    + cbn [List.map concat]. rewrite IH by lia. unfold slice.
      replace (start + size - start)%nat with size by lia.
      transitivity (firstn size (skipn start text) ++ skipn size (skipn start text));
        [|apply firstn_skipn].
      f_equal. rewrite skipn_skipn. f_equal. lia.
    + cbn. symmetry. apply skipn_all2. lia.
Qed.

Lemma chunks_spec {A : Type} (size : nat) (text : list A) :
  (0 < size)%nat ->
  concat (chunks size text) = text
  /\ List.Forall (fun chunk => chunk <> [] /\ (length chunk <= size)%nat) (chunks size text).
Proof.
  intros Hsize. unfold chunks, range. split.
  - by rewrite chunks_from by lia.
  - apply List.Forall_forall. intros chunk Hin. apply in_map_iff in Hin.
    destruct Hin as (i & <- & Hi). apply range_from_lt in Hi. unfold slice.
    replace (i + size - i)%nat with size by lia. split.
    + intros E. apply (f_equal (@length A)) in E.
      rewrite length_firstn, length_skipn in E. cbn [length] in E. lia.
    + rewrite length_firstn. lia.
Qed.

(** X28: the messages [send_long_message] sends are the text cut into
    pieces: put together they are the text, none is empty and none is
    longer than 4096 characters. *)
Theorem send_long_message_chunks (text : str) :
  concat (send_long_message text) = text
  /\ List.Forall (fun chunk => chunk <> [] /\ (length chunk <= 4096)%nat) (send_long_message text).
Proof. unfold send_long_message. apply chunks_spec. lia. Qed.

End ChunkProperties.

Module HandlerProperties.
Import Executor RateLimiter OllamaLLM Response Bot Calls Samples.
Import TextFacts ReFacts SpacingFacts OllamaLLMFacts RowCapFacts.
Import CleaningProperties SynthesisProperties DriverCallProperties.

(** The driver calls of [handle_message] are those of [execute_query] on
    the generated statement, when one was generated for a caller within
    the quota whose message is no greeting. *)
Lemma handle_message_trace (f : formatters) (model : str -> nat -> option str) (d : driver)
    (st : state) (user_id : Z) (now : Q) (text : str) :
  snd (handle_message f model d st user_id now text) = []
  \/ exists query,
       fst (check_rate_limit st user_id now) = true
       /\ is_greeting (strip text) = false
       /\ generate_sql (model (strip text)) = Some query
       /\ snd (handle_message f model d st user_id now text) = snd (execute_query d query).
Proof.
  unfold handle_message.
  destruct (fst (check_rate_limit st user_id now)); cbn [negb]; [|by left].
  destruct (is_greeting (strip text)); [by left|].
  destruct (generate_sql (model (strip text))) as [[|c q]|]; [by left| |by left].
  right. exists (c :: q). repeat split.
  destruct (fst (execute_query d (c :: q))) as [[|r0 rs] [[|c' e]|]];
    try destruct (contains _ _); try destruct (format_response _ _ _); reflexivity.
Qed.

(** X29: whatever the language model answers, [handle_message] has the
    driver run at most one statement, and that statement starts with
    [select], passes the gate and is a single statement: no semicolon, no
    slash or backslash, no newline and no pair of dashes. *)
Theorem handle_message_runs_only_checked_select (f : formatters)
    (model : str -> nat -> option str) (d : driver)
    (st : state) (user_id : Z) (now : Q) (text : str) :
  executed (snd (handle_message f model d st user_id now text)) = []
  \/ exists query,
       executed (snd (handle_message f model d st user_id now text)) = [query]
       /\ startswith (txt "select") (lower query) = true
       /\ is_query_safe query = true
       /\ forallb (fun c => negb (is_slash c) && negb (eqc c ";") && negb (eqc c nl)) query = true
       /\ contains (txt "--") query = false.
Proof.
  destruct (handle_message_trace f model d st user_id now text)
    as [->|(query & _ & _ & Hg & ->)]; [by left|].
  destruct (execute_query_executed d query) as [->|(-> & _ & _)]; [by left|].
  right. exists query. split; [reflexivity|].
  split; [by apply (generate_sql_starts_with_select (model (strip text)))|].
  split; [by apply (generate_sql_passes_gate (model (strip text)))|].
  apply generate_sql_accepted in Hg. destruct Hg as (k & r & _ & _ & H).
  apply accept_single_statement in H. destruct H as (Hs & Hc & Hd).
  split; [|exact Hd].
  apply forallb_forall. intros c Hin. destruct (Hc c Hin) as [H1 H2]. rewrite H1. cbn [negb andb].
  apply andb_true_iff. split; apply negb_true_iff.
  - destruct (eqc c ";") eqn:E; [|reflexivity]. by apply eqc_eq in E.
  - destruct (eqc c nl) eqn:E; [|reflexivity]. apply eqc_eq in E. subst.
    by apply single_spaced_no_newline in Hin.
Qed.

(** Everything after the colon of the fourth replacement field is read
    as the format specification, which no float accepts. *)
Lemma order_items_spec_rejected :
  float_spec_ok (txt ".1f if 'OrderID' in df.columns else 'N/A'") = false.
Proof. vm_compute. reflexivity. Qed.

(** [_format_order_response] raises on every frame: when pandas has
    computed the date range, the customers and the mean, formatting the
    mean raises ValueError. *)
Lemma format_order_response_raises (p : frame_ops) (results : list record) (query : str) :
  format_order_response p results query = None.
Proof.
  unfold format_order_response, format_float. rewrite order_items_spec_rejected.
  destruct (has_column results "OrderDate"); [destruct (date_span p results)|]; cbn;
    try reflexivity;
    (destruct (has_column results "CustomerID");
       [destruct (nunique p "CustomerID" results)|]; cbn; try reflexivity;
     by destruct (group_mean p "OrderID" results)).
Qed.

(** X30: rows with an OrderID and a CustomerID or ShipVia column, and not
    both ProductName and UnitPrice, are never shown: the formatter for
    orders raises, whatever pandas computes, and the user is told that an
    unexpected error occurred. *)
Theorem order_rows_get_unexpected_error (f : formatters)
    (model : str -> nat -> option str) (d : driver)
    (st : state) (user_id : Z) (now : Q) (text query : str) (results : list record) :
  fst (check_rate_limit st user_id now) = true ->
  is_greeting (strip text) = false ->
  generate_sql (model (strip text)) = Some query ->
  fst (execute_query d query) = (results, None) ->
  classify results = OrderShape ->
  fst (fst (handle_message f model d st user_id now text)) = [unexpected_error].
Proof.
  intros Hlimit Hgreet Hgen Hexec Hshape. unfold handle_message.
  rewrite Hlimit, Hgreet, Hgen. cbn [negb].
  destruct query as [|c q].
  { apply generate_sql_starts_with_select in Hgen. discriminate. }
  rewrite Hexec. destruct results as [|r0 rs]; [discriminate|].
  unfold format_response. rewrite Hshape, format_order_response_raises. reflexivity.
Qed.

Lemma order_rows_get_unexpected_error_witness :
  fst (fst (handle_message fixed_formatters
              (fixed_model "SELECT OrderID, CustomerID FROM Orders") orders_driver
              init 7 0 (txt "show me the orders")))
  = [unexpected_error].
Proof.
  apply (order_rows_get_unexpected_error _ _ _ _ _ _ _
           (txt "select top 50 OrderID, CustomerID FROM Orders")
           [[(txt "OrderID", Some (txt "10248")); (txt "CustomerID", Some (txt "VINET"))]]).
  - reflexivity.
  - vm_compute. reflexivity.
  - vm_compute. reflexivity.
  - vm_compute. reflexivity.
  - vm_compute. reflexivity.
Defined.

End HandlerProperties.
